(** * A five-stage MIPS pipeline simulator (simulator.py)

    Shallow embedding of the simulator's decoder, hazard detector,
    forwarding unit and per-cycle engine, followed by the properties
    stated about them.

    Modelling conventions.
    - Python integers are unbounded: [Z].  Counters that start at 0 and
      are only ever incremented (pc, cycle, instr_executed) are [nat].
    - Python exceptions are the [Raise] outcome of the [exc] monad; a
      raising call yields no state.  The globals that a raising call of
      [pipeline_step] leaves behind are given separately, by
      [globals_after].
    - Converting between integers and text is limited to 4300 decimal
      digits (the interpreter's default [sys.get_int_max_str_digits()]):
      [int] and the f-strings of the log raise ValueError beyond it.
    - An instruction is a Python dict with a fixed set of possible keys;
      it is a record of optional fields, a missing key being [None].
    - Dicts are mutable objects shared between latches: the latches hold
      references into an object store ([heap]); the module-level [NOP]
      dict lives at reference [NOP_ref].
    - Text is a [string] of code points below 256. *)

From Stdlib Require Import ZArith Bool Ascii String Lia.
From stdpp Require Import base option list gmap strings.

Local Open Scope string_scope.
Local Open Scope Z_scope.

(** ** Python primitives *)

Module Py.

Inductive exn : Set := IndexError | KeyError | ValueError | TypeError.

Inductive exc (A : Type) : Type :=
| Ret (a : A)
| Raise (e : exn).
Arguments Ret {A} a.
Arguments Raise {A} e.

#[export] Instance exc_ret : MRet exc := fun A a => Ret a.
#[export] Instance exc_bind : MBind exc := fun A B f m =>
  match m with
  | Ret a => f a
  | Raise e => Raise e
  end.
#[export] Instance exc_fmap : FMap exc := fun A B f m =>
  match m with
  | Ret a => Ret (f a)
  | Raise e => Raise e
  end.

Definition raises {A} (m : exc A) : bool :=
  match m with Ret _ => false | Raise _ => true end.

(** [d[k]] on a key that may be missing. *)
Definition subscript {A} (field : option A) : exc A :=
  match field with
  | Some v => Ret v
  | None => Raise KeyError
  end.

(** Position designated by index [i] in a list of length [n]: negative
    indices count from the end, anything else out of range raises. *)
Definition index_of (n : nat) (i : Z) : exc nat :=
  let len := Z.of_nat n in
  if (0 <=? i) && (i <? len) then Ret (Z.to_nat i)
  else if (- len <=? i) && (i <? 0) then Ret (Z.to_nat (len + i))
  else Raise IndexError.

(** [l[i]] *)
Definition getitem {A} (l : list A) (i : Z) : exc A :=
  k ← index_of (length l) i;
  match l !! k with
  | Some v => Ret v
  | None => Raise IndexError
  end.

(** [l[i] = v] *)
Definition setitem {A} (l : list A) (i : Z) (v : A) : exc (list A) :=
  k ← index_of (length l) i;
  Ret (<[k := v]> l).

(** Index [i] is one that a list of [n] elements accepts. *)
Definition in_range (n : nat) (i : Z) : bool :=
  (- Z.of_nat n <=? i) && (i <? Z.of_nat n).

(** The position it designates: [i] itself, or [n + i] when negative. *)
Definition position (n : nat) (i : Z) : nat :=
  Z.to_nat (i `mod` Z.of_nat n).

(** [x in (a, b, ...)] for strings. *)
Definition in_tuple (x : string) (t : list string) : bool :=
  existsb (String.eqb x) t.

(** [str.isspace] on one character. *)
Definition isspace (c : ascii) : bool :=
  let n := nat_of_ascii c in
  ((9 <=? n) && (n <=? 13) || (28 <=? n) && (n <=? 32)
   || (n =? 133) || (n =? 160))%nat.

(** [s.replace(c, empty)] for a one-character [c]: every [c] removed. *)
Fixpoint remove_char (c : ascii) (s : string) : string :=
  match s with
  | EmptyString => EmptyString
  | String a r =>
      if Ascii.eqb a c then remove_char c r else String a (remove_char c r)
  end.

(** [s.split()]: maximal runs of non-blank characters.  [cur] is the
    token being read. *)
Fixpoint split_from (cur : string) (s : string) : list string :=
  match s with
  | EmptyString =>
      match cur with EmptyString => [] | _ => [cur] end
  | String a r =>
      if isspace a then
        match cur with
        | EmptyString => split_from EmptyString r
        | _ => cur :: split_from EmptyString r
        end
      else split_from (cur ++ String a EmptyString) r
  end.

Definition split (s : string) : list string := split_from EmptyString s.

(** [s.split(c)]: the pieces between occurrences of [c], empty ones
    included; never the empty list. *)
Fixpoint split_on (c : ascii) (s : string) : list string :=
  match s with
  | EmptyString => [EmptyString]
  | String a r =>
      if Ascii.eqb a c then EmptyString :: split_on c r
      else
        match split_on c r with
        | p :: ps => String a p :: ps
        | [] => [String a EmptyString]
        end
  end.

(** [str.lower] *)
Definition lower_char (c : ascii) : ascii :=
  let n := nat_of_ascii c in
  if ((65 <=? n) && (n <=? 90)
      || (192 <=? n) && (n <=? 222) && negb (n =? 215))%nat
  then ascii_of_nat (n + 32) else c.

Fixpoint lower (s : string) : string :=
  match s with
  | EmptyString => EmptyString
  | String a r => String (lower_char a) (lower r)
  end.

(** [s[1:]] *)
Definition tail (s : string) : string :=
  match s with
  | EmptyString => EmptyString
  | String _ r => r
  end.

Fixpoint lstrip (s : string) : string :=
  match s with
  | EmptyString => EmptyString
  | String a r => if isspace a then lstrip r else s
  end.

Fixpoint rstrip (s : string) : string :=
  match s with
  | EmptyString => EmptyString
  | String a r =>
      match rstrip r with
      | EmptyString => if isspace a then EmptyString else String a EmptyString
      | r' => String a r'
      end
  end.

Definition is_digit (c : ascii) : bool :=
  let n := nat_of_ascii c in ((48 <=? n) && (n <=? 57))%nat.

Definition digit_value (c : ascii) : Z := Z.of_nat (nat_of_ascii c) - 48.

(** Decimal digits, single underscores allowed between two digits.
    [after_digit] tells whether the previous character was a digit. *)
Fixpoint digits (acc : Z) (after_digit : bool) (s : string) : option Z :=
  match s with
  | EmptyString => if after_digit then Some acc else None
  | String a r =>
      if is_digit a then digits (10 * acc + digit_value a) true r
      else if Ascii.eqb a "_" && after_digit then digits acc false r
      else None
  end.

(** The interpreter's limit on the length of a decimal integer, in
    either direction of the conversion. *)
Definition MAX_STR_DIGITS : nat := 4300.

(** Number of digit characters of a literal (leading zeros count, sign
    and underscores do not). *)
Fixpoint count_digits (s : string) : nat :=
  match s with
  | EmptyString => 0%nat
  | String a r => ((if is_digit a then 1 else 0) + count_digits r)%nat
  end.

(** [int(s)] in base 10: surrounding blanks, an optional sign, digits;
    ValueError for anything else, and for a literal of more than
    [MAX_STR_DIGITS] digits. *)
Definition int (s : string) : exc Z :=
  let body := rstrip (lstrip s) in
  let parsed :=
    match body with
    | String "+" r => digits 0 false r
    | String "-" r => Z.opp <$> digits 0 false r
    | _ => digits 0 false body
    end in
  match parsed with
  | Some z =>
      if (MAX_STR_DIGITS <? count_digits body)%nat then Raise ValueError
      else Ret z
  | None => Raise ValueError
  end.

(** The decimal text of [z >= 0] has more than [n] digits. *)
Fixpoint longer_than (n : nat) (z : Z) : bool :=
  match n with
  | O => true
  | S k => if z <? 10 then false else longer_than k (z / 10)
  end.

(** [str(z)], [repr(z)] and an f-string field holding [z] return:
    [z] has at most [MAX_STR_DIGITS] digits, the sign apart.  Otherwise
    they raise ValueError. *)
Definition printable (z : Z) : bool :=
  negb (longer_than MAX_STR_DIGITS (Z.abs z)).
#[global] Arguments printable : simpl never.

(** [l[k]] for a literal non-negative [k]. *)
Definition item {A} (l : list A) (k : nat) : exc A :=
  match l !! k with
  | Some v => Ret v
  | None => Raise IndexError
  end.

End Py.

Import Py.

(** ** Data model *)

(** An instruction dict.  [opcode] is always present; the operand keys
    come from the decoder, [result], [addr], [val] and (for immediate
    and load instructions) [rd] are added by the Execute and Memory
    stages. *)
Record instr : Type := mkInstr {
  opcode : string;
  rd : option Z;
  rs : option Z;
  rt : option Z;
  imm : option Z;
  result : option Z;
  addr : option Z;
  val : option Z
}.

(** [NOP = {'opcode': 'nop'}] *)
Definition NOP : instr :=
  mkInstr "nop" None None None None None None None.

Definition set_result (v : Z) (i : instr) : instr :=
  mkInstr (opcode i) (rd i) (rs i) (rt i) (imm i) (Some v) (addr i) (val i).
Definition set_addr (v : Z) (i : instr) : instr :=
  mkInstr (opcode i) (rd i) (rs i) (rt i) (imm i) (result i) (Some v) (val i).
Definition set_val (v : Z) (i : instr) : instr :=
  mkInstr (opcode i) (rd i) (rs i) (rt i) (imm i) (result i) (addr i) (Some v).
(** [i['rd'] = i.get('rt')] *)
Definition set_rd_from_rt (i : instr) : instr :=
  mkInstr (opcode i) (rt i) (rs i) (rt i) (imm i) (result i) (addr i) (val i).

(** What a call of the decoder hands back: the module-level [NOP]
    object itself, or a dict built by the call. *)
Inductive decoded : Type :=
| The_NOP
| New_dict (i : instr).

Definition R_TYPE : list string := ["add"; "sub"; "and"; "or"; "slt"].
Definition I_TYPE : list string := ["addi"; "slti"].
Definition MEM_TYPE : list string := ["lw"; "sw"].

(** [int(tokens[k][1:])] *)
Definition reg_operand (tokens : list string) (k : nat) : exc Z :=
  t ← item tokens k; int (tail t).

(** [a, b = l] *)
Definition unpack2 (l : list string) : exc (string * string) :=
  match l with
  | [a; b] => Ret (a, b)
  | _ => Raise ValueError
  end.

Definition parse_instruction (line : string) : exc decoded :=
  let tokens := split (remove_char "," line) in
  match tokens with
  | [] => Ret The_NOP
  | t0 :: _ =>
      let opcode := lower t0 in
      if in_tuple opcode R_TYPE then
        rd ← reg_operand tokens 1;
        rs ← reg_operand tokens 2;
        rt ← reg_operand tokens 3;
        Ret (New_dict
               (mkInstr opcode (Some rd) (Some rs) (Some rt)
                        None None None None))
      else if in_tuple opcode I_TYPE then
        rt ← reg_operand tokens 1;
        rs ← reg_operand tokens 2;
        imm ← (t ← item tokens 3; int t);
        Ret (New_dict
               (mkInstr opcode None (Some rs) (Some rt)
                        (Some imm) None None None))
      else if in_tuple opcode MEM_TYPE then
        rt ← reg_operand tokens 1;
        t2 ← item tokens 2;
        '(offset, base) ← unpack2 (split_on "(" (remove_char ")" t2));
        rs ← int (tail base);
        imm ← int offset;
        Ret (New_dict
               (mkInstr opcode None (Some rs) (Some rt)
                        (Some imm) None None None))
      else Ret The_NOP
  end.

(** ** Hazard detection *)

(** [d.get(k) == v] for an integer [v]. *)
Definition get_eq (field : option Z) (v : Z) : bool :=
  match field with
  | Some x => x =? v
  | None => false
  end.

(** [ID_instr] is a dict; [EX_instr] is a latch content, possibly
    empty. *)
Definition detect_load_use_hazard (ID_instr : instr) (EX_instr : option instr)
  : bool :=
  match EX_instr with
  | Some ex =>
      if String.eqb (opcode ex) "lw" then
        match rt ex with
        | Some r => get_eq (rs ID_instr) r || get_eq (rt ID_instr) r
        | None => false
        end
      else false
  | None => false
  end.

(** ** Machine state *)

Definition ref : Set := nat.

(** The module-level [NOP] dict. *)
Definition NOP_ref : ref := 0%nat.

(** [pipeline]: the four latches.  [IF_ID] holds program text, the
    others hold (references to) instruction dicts. *)
Record latches : Type := mkLatches {
  IF_ID : option string;
  ID_EX : option ref;
  EX_MEM : option ref;
  MEM_WB : option ref
}.

(** One entry of [log_lines]: what a cycle reports. *)
Record log_entry : Type := mkLog {
  log_cycle : nat;
  log_stall : bool;
  log_fetched : option string;
  log_IF_ID : option string;
  log_ID_EX : option instr;
  log_EX_MEM : option instr;
  log_MEM_WB : option instr;
  log_registers : list Z;
  log_executed : nat
}.

Record state : Type := mkState {
  registers : list Z;
  data_memory : list Z;
  instruction_memory : list string;
  pc : nat;
  cycle : nat;
  instr_executed : nat;
  log_lines : list log_entry;
  pipeline : latches;
  heap : ref -> instr
}.

Definition NUM_REGS : nat := 32.
Definition MEMORY_SIZE : nat := 1024.

Definition with_registers (v : list Z) (s : state) : state :=
  mkState v (data_memory s) (instruction_memory s) (pc s) (cycle s)
          (instr_executed s) (log_lines s) (pipeline s) (heap s).
Definition with_data_memory (v : list Z) (s : state) : state :=
  mkState (registers s) v (instruction_memory s) (pc s) (cycle s)
          (instr_executed s) (log_lines s) (pipeline s) (heap s).
Definition with_instruction_memory (v : list string) (s : state) : state :=
  mkState (registers s) (data_memory s) v (pc s) (cycle s)
          (instr_executed s) (log_lines s) (pipeline s) (heap s).
Definition with_pc (v : nat) (s : state) : state :=
  mkState (registers s) (data_memory s) (instruction_memory s) v (cycle s)
          (instr_executed s) (log_lines s) (pipeline s) (heap s).
Definition with_cycle (v : nat) (s : state) : state :=
  mkState (registers s) (data_memory s) (instruction_memory s) (pc s) v
          (instr_executed s) (log_lines s) (pipeline s) (heap s).
Definition with_instr_executed (v : nat) (s : state) : state :=
  mkState (registers s) (data_memory s) (instruction_memory s) (pc s) (cycle s)
          v (log_lines s) (pipeline s) (heap s).
Definition with_log_lines (v : list log_entry) (s : state) : state :=
  mkState (registers s) (data_memory s) (instruction_memory s) (pc s) (cycle s)
          (instr_executed s) v (pipeline s) (heap s).
Definition with_pipeline (v : latches) (s : state) : state :=
  mkState (registers s) (data_memory s) (instruction_memory s) (pc s) (cycle s)
          (instr_executed s) (log_lines s) v (heap s).
Definition with_heap (v : ref -> instr) (s : state) : state :=
  mkState (registers s) (data_memory s) (instruction_memory s) (pc s) (cycle s)
          (instr_executed s) (log_lines s) (pipeline s) v.
(** [pipeline[stage] = v] *)
Definition set_IF_ID (v : option string) (s : state) : state :=
  let p := pipeline s in
  with_pipeline (mkLatches v (ID_EX p) (EX_MEM p) (MEM_WB p)) s.
Definition set_ID_EX (v : option ref) (s : state) : state :=
  let p := pipeline s in
  with_pipeline (mkLatches (IF_ID p) v (EX_MEM p) (MEM_WB p)) s.
Definition set_EX_MEM (v : option ref) (s : state) : state :=
  let p := pipeline s in
  with_pipeline (mkLatches (IF_ID p) (ID_EX p) v (MEM_WB p)) s.
Definition set_MEM_WB (v : option ref) (s : state) : state :=
  let p := pipeline s in
  with_pipeline (mkLatches (IF_ID p) (ID_EX p) (EX_MEM p) v) s.

(** The dict a latch designates, if the latch is not empty. *)
Definition deref (s : state) (l : option ref) : option instr :=
  heap s <$> l.

(** In-place update of the object at [r]: every latch holding [r]
    sees it. *)
Definition store (r : ref) (i : instr) (s : state) : state :=
  with_heap (fun r' => if Nat.eqb r' r then i else heap s r') s.

(** A dict built by the decoder becomes a new object: one that no
    latch designates and that is not the [NOP] object. *)
Definition latch_ref (l : option ref) : ref := default NOP_ref l.

Definition fresh (s : state) : ref :=
  let p := pipeline s in
  S (latch_ref (ID_EX p) `max` (latch_ref (EX_MEM p) `max` latch_ref (MEM_WB p))).

Definition alloc (i : instr) (s : state) : ref * state :=
  let r := fresh s in (r, store r i s).

(** The object a decoder result is. *)
Definition object_of (d : decoded) (s : state) : ref * state :=
  match d with
  | The_NOP => (NOP_ref, s)
  | New_dict i => alloc i s
  end.

(** The dict a decoder result is, as it reads in state [s]. *)
Definition contents (s : state) (d : decoded) : instr :=
  match d with
  | The_NOP => heap s NOP_ref
  | New_dict i => i
  end.

(** [reset()] *)
Definition reset : state :=
  mkState (replicate NUM_REGS 0) (replicate MEMORY_SIZE 0) [] 0 0 0 []
          (mkLatches None None None None) (fun _ => NOP).

(** ** Forwarding unit *)

Inductive source : Set := REG | EX | MEM.

Definition is_REG (f : source) : bool :=
  match f with REG => true | _ => false end.

(** The [rd] of a latch content [l] when
    [l and l.get('rd') not in (None, 0)], nothing otherwise. *)
Definition forwardable_rd (l : option instr) : option Z :=
  match l with
  | Some i =>
      match rd i with
      | Some d => if d =? 0 then None else Some d
      | None => None
      end
  | None => None
  end.

Definition detect_forwarding_sources (s : state) (ID_instr : instr)
  : source * source :=
  let forwardA := REG in
  let forwardB := REG in
  let src1 := rs ID_instr in
  let src2 := rt ID_instr in
  let ex_mem := deref s (EX_MEM (pipeline s)) in
  let '(forwardA, forwardB) :=
    match forwardable_rd ex_mem with
    | Some d =>
        (if get_eq src1 d then EX else forwardA,
         if get_eq src2 d then EX else forwardB)
    | None => (forwardA, forwardB)
    end in
  let mem_wb := deref s (MEM_WB (pipeline s)) in
  match forwardable_rd mem_wb with
  | Some d =>
      (if is_REG forwardA && get_eq src1 d then MEM else forwardA,
       if is_REG forwardB && get_eq src2 d then MEM else forwardB)
  | None => (forwardA, forwardB)
  end.

(** [registers[instr[k]] if instr.get(k) is not None else 0] *)
Definition read_register (s : state) (field : option Z) : exc Z :=
  match field with
  | Some r => getitem (registers s) r
  | None => Ret 0
  end.

(** [pipeline[stage]['result']] *)
Definition latch_result (s : state) (l : option ref) : exc Z :=
  match deref s l with
  | Some i => subscript (result i)
  | None => Raise TypeError
  end.

Definition forwarded (s : state) (f : source) (reg_val : Z) : exc Z :=
  match f with
  | EX => latch_result s (EX_MEM (pipeline s))
  | MEM => latch_result s (MEM_WB (pipeline s))
  | REG => Ret reg_val
  end.

Definition apply_forwarding (s : state) (i : instr) (forwardA forwardB : source)
  : exc (Z * Z) :=
  rs_val ← read_register s (rs i);
  rt_val ← read_register s (rt i);
  rs_val ← forwarded s forwardA rs_val;
  rt_val ← forwarded s forwardB rt_val;
  Ret (rs_val, rt_val).

(** ** The cycle engine *)

(** Write Back *)
Definition write_back (s : state) : exc state :=
  match deref s (MEM_WB (pipeline s)) with
  | Some wb =>
      if negb (String.eqb (opcode wb) "nop") then
        s1 ← match rd wb with
             | Some d =>
                 v ← subscript (result wb);
                 regs ← setitem (registers s) d v;
                 Ret (with_registers regs s)
             | None => Ret s
             end;
        Ret (with_instr_executed (S (instr_executed s1)) s1)
      else Ret s
  | None => Ret s
  end.

(** Memory Access.  The object read from [EX_MEM] is updated in place
    and then also put in [MEM_WB]: both latches designate it until
    Execute overwrites [EX_MEM]. *)
Definition memory_access (s : state) : exc state :=
  match EX_MEM (pipeline s) with
  | Some r =>
      let mem := heap s r in
      s1 ← (if String.eqb (opcode mem) "lw" then
               a ← subscript (addr mem);
               v ← getitem (data_memory s) (a / 4);
               Ret (store r (set_result v mem) s)
             else if String.eqb (opcode mem) "sw" then
               v ← subscript (val mem);
               a ← subscript (addr mem);
               dm ← setitem (data_memory s) (a / 4) v;
               Ret (with_data_memory dm s)
             else Ret s);
      Ret (set_MEM_WB (Some r) s1)
  | None => Ret (set_MEM_WB None s)
  end.

(** The opcode-specific part of Execute: the fields it adds to [ex]. *)
Definition compute (ex : instr) (rs_val rt_val : Z) : exc instr :=
  let op := opcode ex in
  if String.eqb op "add" then Ret (set_result (rs_val + rt_val) ex)
  else if String.eqb op "sub" then Ret (set_result (rs_val - rt_val) ex)
  else if String.eqb op "and" then Ret (set_result (Z.land rs_val rt_val) ex)
  else if String.eqb op "or" then Ret (set_result (Z.lor rs_val rt_val) ex)
  else if String.eqb op "slt" then
    Ret (set_result (if rs_val <? rt_val then 1 else 0) ex)
  else if String.eqb op "addi" then
    i ← subscript (imm ex); Ret (set_result (rs_val + i) ex)
  else if String.eqb op "slti" then
    i ← subscript (imm ex); Ret (set_result (if rs_val <? i then 1 else 0) ex)
  else if String.eqb op "lw" then
    i ← subscript (imm ex); Ret (set_addr (rs_val + i) ex)
  else if String.eqb op "sw" then
    i ← subscript (imm ex); Ret (set_val rt_val (set_addr (rs_val + i) ex))
  else Ret ex.

(** Execute *)
Definition execute (s : state) : exc state :=
  match ID_EX (pipeline s) with
  | Some r =>
      let ex := heap s r in
      let '(fA, fB) := detect_forwarding_sources s ex in
      '(rs_val, rt_val) ← apply_forwarding s ex fA fB;
      ex ← compute ex rs_val rt_val;
      let ex :=
        if in_tuple (opcode ex) ["addi"; "slti"; "lw"]
        then set_rd_from_rt ex else ex in
      Ret (set_EX_MEM (Some r) (store r ex s))
  | None => Ret (set_EX_MEM None s)
  end.

(** Truth value of a string latch: empty text counts as no text. *)
Definition text_of (l : option string) : option string :=
  match l with
  | Some EmptyString => None
  | _ => l
  end.

(** Decode.  The flag tells whether the cycle stalls (and then ends
    without fetching). *)
Definition decode (s : state) : exc (bool * state) :=
  match text_of (IF_ID (pipeline s)) with
  | Some line =>
      d ← parse_instruction line;
      let '(r, s) := object_of d s in
      if detect_load_use_hazard (heap s r) (deref s (ID_EX (pipeline s)))
      then Ret (true, set_MEM_WB None (set_EX_MEM None (set_ID_EX None s)))
      else Ret (false, set_ID_EX (Some r) s)
  | None => Ret (false, set_ID_EX None s)
  end.

(** Instruction Fetch; also gives the text fetched, for the log. *)
Definition fetch (s : state) : exc (option string * state) :=
  if (pc s <? length (instruction_memory s))%nat then
    fetched ← item (instruction_memory s) (pc s);
    Ret (Some fetched, with_pc (S (pc s)) (set_IF_ID (Some fetched) s))
  else Ret (None, set_IF_ID None s).

(** The text of a latch dict can be built: each of its integers is
    printable. *)
Definition printable_field (field : option Z) : bool :=
  match field with
  | Some z => printable z
  | None => true
  end.

Definition printable_instr (i : instr) : bool :=
  printable_field (rd i) && printable_field (rs i) && printable_field (rt i)
  && printable_field (imm i) && printable_field (result i)
  && printable_field (addr i) && printable_field (val i).

Definition printable_latch (s : state) (l : option ref) : bool :=
  match deref s l with
  | Some i => printable_instr i
  | None => true
  end.

(** All the text of [log_pipeline_state] can be built: the three latch
    dicts and [registers[:8]].  (IF/ID holds text already.  The cycle
    number and the retired count are converted too; they only count
    calls, which cannot be numerous enough to reach the limit, and their
    conversion is taken to return.) *)
Definition printable_state (s : state) : bool :=
  let p := pipeline s in
  printable_latch s (ID_EX p) && printable_latch s (EX_MEM p)
  && printable_latch s (MEM_WB p) && forallb printable (take 8 (registers s)).

(** The state with the entry of this cycle appended to [log_lines]. *)
Definition logged (stalled : bool) (fetched : option string) (s : state)
  : state :=
  let p := pipeline s in
  let entry :=
    mkLog (cycle s) stalled fetched (text_of (IF_ID p))
          (deref s (ID_EX p)) (deref s (EX_MEM p)) (deref s (MEM_WB p))
          (take 8 (registers s)) (instr_executed s) in
  with_log_lines (log_lines s ++ [entry]) s.

(** [log_pipeline_state(log)]: the text of the entry is built first,
    which raises ValueError on an integer that is not printable; then
    the entry is appended. *)
Definition log_pipeline_state (stalled : bool) (fetched : option string)
    (s : state) : exc state :=
  if printable_state s then Ret (logged stalled fetched s)
  else Raise ValueError.

Definition pipeline_step (s : state) : exc state :=
  let s := with_cycle (S (cycle s)) s in
  s ← write_back s;
  s ← memory_access s;
  s ← execute s;
  '(stalled, s) ← decode s;
  if stalled : bool then log_pipeline_state true None s
  else
    '(fetched, s) ← fetch s;
    log_pipeline_state false fetched s.

(** The globals when a call of [pipeline_step] ends, whether it returns
    or raises.  Every stage raises, if it does, before it assigns
    anything (the right-hand side and the index are evaluated before the
    store), and [log_pipeline_state] before it appends: the globals of a
    raising call are those that the last completed stage left. *)
Definition globals_after (s : state) : state :=
  let s0 := with_cycle (S (cycle s)) s in
  match write_back s0 with
  | Raise _ => s0
  | Ret s1 =>
      match memory_access s1 with
      | Raise _ => s1
      | Ret s2 =>
          match execute s2 with
          | Raise _ => s2
          | Ret s3 =>
              match decode s3 with
              | Raise _ => s3
              | Ret (true, s4) =>
                  if printable_state s4 then logged true None s4 else s4
              | Ret (false, s4) =>
                  match fetch s4 with
                  | Raise _ => s4
                  | Ret (fetched, s5) =>
                      if printable_state s5 then logged false fetched s5
                      else s5
                  end
              end
          end
      end
  end.

(** [for _ in range(cycles): pipeline_step()] *)
Fixpoint run_cycles (cycles : nat) (s : state) : exc state :=
  match cycles with
  | O => Ret s
  | S k => s ← pipeline_step s; run_cycles k s
  end.

(** A run as the tests make it: [reset()], the program loaded into
    [instruction_memory], then [cycles] steps. *)
Definition run (program : list string) (cycles : nat) : exc state :=
  run_cycles cycles (with_instruction_memory program reset).

Definition reference_program : list string :=
  [ "addi $1, $0, 5";
    "addi $2, $0, 10";
    "add  $3, $1, $2";
    "sw   $3, 0($0)";
    "lw   $4, 0($0)" ].

(** ** Properties as the specification words them *)

(** The load-use condition of the specification: the instruction in
    Execute is a load whose target register is defined and not register
    0, and the decoded instruction names that register as [rs] or [rt]. *)
Definition load_use_as_specified (ID_instr : instr) (EX_instr : option instr)
  : Prop :=
  exists ex r,
    EX_instr = Some ex /\ opcode ex = "lw" /\ rt ex = Some r /\ r <> 0 /\
    (rs ID_instr = Some r \/ rt ID_instr = Some r).

(** A latch content qualifies as producer for an operand: it holds a
    record whose [rd] is defined, non-zero and equal to the operand's
    register index. *)
Definition qualifies (l : option instr) (operand : option Z) : Prop :=
  exists p d, l = Some p /\ rd p = Some d /\ d <> 0 /\ operand = Some d.

(** The choice of source for one operand. *)
Definition source_rule (ex_mem mem_wb : option instr) (operand : option Z)
    (f : source) : Prop :=
  (f = EX <-> qualifies ex_mem operand) /\
  (f = MEM <-> ~ qualifies ex_mem operand /\ qualifies mem_wb operand) /\
  (f = REG <-> ~ qualifies ex_mem operand /\ ~ qualifies mem_wb operand).

(** Boolean form of [qualifies]. *)
Definition qualifies_b (l : option instr) (operand : option Z) : bool :=
  match forwardable_rd l with
  | Some d => get_eq operand d
  | None => false
  end.

(** The choice made for one operand, as a function. *)
Definition pick (ex_mem mem_wb : option instr) (operand : option Z) : source :=
  if qualifies_b ex_mem operand then EX
  else if qualifies_b mem_wb operand then MEM
  else REG.

(** ** Concrete inputs *)

Definition lw_into_zero : instr :=
  mkInstr "lw" None (Some 0) (Some 0) (Some 0) None None None.
Definition add_from_zero : instr :=
  mkInstr "add" (Some 1) (Some 0) (Some 0) None None None None.


(** ** Observations on states *)

(** The Write-Back latch holds a record that is not a no-operation. *)
Definition retiring (s : state) : Prop :=
  exists r, MEM_WB (pipeline s) = Some r /\ opcode (heap s r) <> "nop".

(** Write-Back cannot complete: the record in MEM/WB is not a
    no-operation and names a destination, but it has no result, or the
    destination is no index of the register file. *)
Definition unwritable (s : state) : Prop :=
  exists r d,
    MEM_WB (pipeline s) = Some r /\ opcode (heap s r) <> "nop" /\
    rd (heap s r) = Some d /\
    (result (heap s r) = None \/ in_range (length (registers s)) d = false).

(** The cycle that starts in [s] detects a load-use hazard: the text in
    IF/ID decodes to an instruction that [detect_load_use_hazard] flags
    against the instruction in ID/EX. *)
Definition hazard_detected (s : state) : Prop :=
  exists line d,
    text_of (IF_ID (pipeline s)) = Some line /\
    parse_instruction line = Ret d /\
    detect_load_use_hazard (contents s d) (deref s (ID_EX (pipeline s)))
    = true.

(** The fields the hazard detector reads. *)
Definition same_operands (i j : instr) : Prop :=
  opcode i = opcode j /\ rs i = rs j /\ rt i = rt j.

(** Number of cycles, among those logged, that fetched an instruction. *)
Definition count_fetched (log : list log_entry) : nat :=
  length (omap log_fetched log).

(** Number of logged cycles that stalled. *)
Definition count_stalls (log : list log_entry) : nat :=
  length (filter (fun e => log_stall e = true) log).

(** The fetch counter agrees with the log and stays within the program. *)
Definition fetch_invariant (s : state) : Prop :=
  count_fetched (log_lines s) = pc s /\
  (pc s <= length (instruction_memory s))%nat.

(** Nothing is in flight and nothing is left to fetch. *)
Definition drained (s : state) : Prop :=
  pipeline s = mkLatches None None None None /\
  (length (instruction_memory s) <= pc s)%nat.

(** What a run leaves behind, as far as the programmer sees it:
    registers 0 to 7, the first two memory words, the retired count and
    the number of stall cycles. *)
Definition outcome (s : state) : list Z * list Z * nat * nat :=
  (take 8 (registers s), take 2 (data_memory s), instr_executed s,
   count_stalls (log_lines s)).

(** A store to word 0, a load of it, and a reader of the loaded register. *)
Definition load_use_program : list string :=
  [ "addi $1, $0, 7";
    "sw $1, 0($0)";
    "lw $2, 0($0)";
    "add $3, $2, $2" ].

(** A producer, a load, and a reader of both. *)
Definition distance_two_program : list string :=
  [ "addi $1, $0, 5";
    "lw $2, 0($0)";
    "add $3, $1, $2" ].

Definition write_zero_program : list string :=
  [ "addi $0, $0, 5" ].

(** An instruction whose destination is no register. *)
Definition register_32_program : list string :=
  [ "add $32, $0, $0" ].

(** ** The decoder's input language *)

Definition tokens_of (line : string) : list string :=
  split (remove_char "," line).

(** The first token, in lower case. *)
Definition mnemonic (line : string) : option string :=
  lower <$> head (tokens_of line).

Definition MNEMONICS : list string := R_TYPE ++ I_TYPE ++ MEM_TYPE.

Definition recognized (line : string) : bool :=
  match mnemonic line with
  | Some m => in_tuple m MNEMONICS
  | None => false
  end.

(** [s] is an integer literal: one that [int] takes, of at most 4300
    digits. *)
Definition is_int (s : string) : bool := negb (raises (int s)).

(** A register operand as the specification writes it: the sigil, then
    the register number. *)
Definition has_sigil (t : string) : bool :=
  match t with
  | String "$" _ => true
  | _ => false
  end.

(** A register token the decoder accepts: present, and an integer
    literal once its first character -- whatever it is -- is dropped. *)
Definition register_token (t : option string) : bool :=
  match t with
  | Some t => is_int (tail t)
  | None => false
  end.

Definition immediate_token (t : option string) : bool :=
  match t with
  | Some t => is_int t
  | None => false
  end.

(** A memory operand the decoder accepts: present and, closing
    parentheses dropped, exactly two pieces around one opening
    parenthesis, an integer literal and a register token. *)
Definition memory_token (t : option string) : bool :=
  match t with
  | Some t =>
      match split_on "(" (remove_char ")" t) with
      | [offset; base] => is_int (tail base) && is_int offset
      | _ => false
      end
  | None => false
  end.

(** The operands that the mnemonic of [line] calls for are all there and
    accepted. *)
Definition operands_accepted (line : string) : bool :=
  let tokens := tokens_of line in
  match mnemonic line with
  | Some m =>
      if in_tuple m R_TYPE then
        register_token (tokens !! 1%nat) && register_token (tokens !! 2%nat)
        && register_token (tokens !! 3%nat)
      else if in_tuple m I_TYPE then
        register_token (tokens !! 1%nat) && register_token (tokens !! 2%nat)
        && immediate_token (tokens !! 3%nat)
      else if in_tuple m MEM_TYPE then
        register_token (tokens !! 1%nat) && memory_token (tokens !! 2%nat)
      else true
  | None => true
  end.

(** A latch is empty or holds the [NOP] object. *)
Definition nop_latch (l : option ref) : Prop :=
  l = None \/ l = Some NOP_ref.

(** Only no-operations are in flight or still to come. *)
Definition only_nops (s : state) : Prop :=
  heap s NOP_ref = NOP /\
  nop_latch (ID_EX (pipeline s)) /\
  nop_latch (EX_MEM (pipeline s)) /\
  nop_latch (MEM_WB (pipeline s)) /\
  (forall t, IF_ID (pipeline s) = Some t -> recognized t = false) /\
  Forall (fun t => recognized t = false) (instruction_memory s).

(** ** States met along concrete runs *)

(** The state a computation returned ([reset] if it raised). *)
Definition returned (m : exc state) : state :=
  match m with
  | Ret s => s
  | Raise _ => reset
  end.

(** Four cycles into the reference program: the first [addi] is in
    MEM/WB, the second in EX/MEM, the [add] that reads both in ID/EX. *)
Definition add_enters_execute : state := returned (run reference_program 4).
Definition add_after_write_back : state :=
  returned (write_back (with_cycle (S (cycle add_enters_execute))
                                   add_enters_execute)).
Definition add_after_memory : state :=
  returned (memory_access add_after_write_back).

(** Seven cycles into the reference program: the store is in MEM/WB. *)
Definition store_retires : state := returned (run reference_program 7).
Definition store_retired : state := returned (pipeline_step store_retires).

(** Four cycles into [register_32_program]: its [add] is in MEM/WB. *)
Definition register_32_retires : state :=
  returned (run register_32_program 4).

(** Four cycles into [load_use_program]: the load is in ID/EX and its
    reader in IF/ID; the fifth cycle stalls. *)
Definition before_stall : state := returned (run load_use_program 4).
Definition after_stall : state := returned (pipeline_step before_stall).

(** The dicts of the unit tests.  Those given there without an opcode get
    one here; the functions under test do not read it. *)
Definition test_lw : instr :=
  mkInstr "lw" None (Some 0) (Some 2) (Some 0) None None None.
Definition test_operands (a b : Z) : instr :=
  mkInstr "add" None (Some a) (Some b) None None None None.
Definition test_producer (d v : Z) : instr :=
  mkInstr "add" (Some d) None None None (Some v) None None.

(** A state whose EX/MEM and MEM/WB latches hold the given dicts. *)
Definition test_latches (ex_mem mem_wb : option instr) (regs : list Z)
  : state :=
  let h := fun r : ref =>
    match r with
    | 1%nat => default NOP ex_mem
    | 2%nat => default NOP mem_wb
    | _ => NOP
    end in
  mkState regs (replicate MEMORY_SIZE 0) [] 0 0 0 []
    (mkLatches None None
       (if ex_mem is Some _ then Some 1%nat else None)
       (if mem_wb is Some _ then Some 2%nat else None)) h.

(** ** The loader *)

(** [s.strip()] *)
Definition strip (s : string) : string := rstrip (lstrip s).

(** Truth value of a string: the empty string is false. *)
Definition truthy (s : string) : bool :=
  match s with
  | EmptyString => false
  | String _ _ => true
  end.

(** [c in s] for a one-character [c]. *)
Fixpoint contains (c : ascii) (s : string) : bool :=
  match s with
  | EmptyString => false
  | String a r => Ascii.eqb a c || contains c r
  end.

(** [s.split(c, 1)]: [s] cut at the first [c], or [s] alone when there
    is none. *)
Fixpoint split_once (c : ascii) (s : string) : list string :=
  match s with
  | EmptyString => [EmptyString]
  | String a r =>
      if Ascii.eqb a c then [EmptyString; r]
      else
        match split_once c r with
        | p :: ps => String a p :: ps
        | [] => [String a EmptyString]
        end
  end.

(** One turn of the loop of [resolve_labels], on the pair
    [(pure, label_map)]. *)
Definition resolve_line (acc : list string * gmap string nat) (line : string)
  : exc (list string * gmap string nat) :=
  let '(pure, label_map) := acc in
  if contains ":" line then
    '(label, rest) ← unpack2 (split_once ":" line);
    let label_map := <[strip label := length pure]> label_map in
    if truthy (strip rest)
    then Ret ((pure ++ [strip rest])%list, label_map)
    else Ret (pure, label_map)
  else Ret ((pure ++ [strip line])%list, label_map).

(** The loop, from the pair reached so far. *)
Fixpoint resolve_from (acc : list string * gmap string nat)
    (program : list string) : exc (list string * gmap string nat) :=
  match program with
  | [] => Ret acc
  | line :: rest => acc ← resolve_line acc line; resolve_from acc rest
  end.

Definition resolve_labels (program : list string)
  : exc (list string * gmap string nat) :=
  resolve_from ([], ∅) program.

(** [load_program], on the lines the file yields:
    [lines = [l.strip() for l in f if l.strip()]], then the labels
    resolved and the label map dropped. *)
Definition load_program (file : list string) : exc (list string) :=
  let lines :=
    omap (fun l => if truthy (strip l) then Some (strip l) else None) file in
  '(code, _) ← resolve_labels lines;
  Ret code.

(** [run(filename, cycles)] after [reset()], up to the summary line:
    the program loaded, then [cycles] steps. *)
Definition run_file (file : list string) (cycles : nat) : exc state :=
  code ← load_program file;
  run code cycles.

(** No line of the program has a label. *)
Definition label_free (program : list string) : Prop :=
  Forall (fun line => contains ":" line = false) program.

(** The text neither begins nor ends with a blank. *)
Definition stripped (s : string) : Prop := strip s = s.

(** The label a line defines, if it has one. *)
Definition label_of (line : string) : option string :=
  if contains ":" line
  then strip <$> head (split_once ":" line)
  else None.

(** Non-empty text without blanks at either end. *)
Definition clean (t : string) : Prop := truthy t = true /\ stripped t.

Definition labelled_file : list string :=
  [ "start: addi $1, $0, 5";
    "  ";
    "loop:";
    "  add $2, $1, $1  ";
    "end:" ].

(** The text waiting in IF/ID, if any, is a line of the program. *)
Definition fetched_from_program (s : state) : Prop :=
  forall t, IF_ID (pipeline s) = Some t -> t ∈ instruction_memory s.

(** ** What a cycle changes *)

(** The register file after the cycle: as before, or with the one
    register replaced that the record in MEM/WB names as [rd]. *)
Definition registers_step (s s' : state) : Prop :=
  registers s' = registers s \/
  exists r d v k,
    MEM_WB (pipeline s) = Some r /\ opcode (heap s r) <> "nop" /\
    rd (heap s r) = Some d /\ result (heap s r) = Some v /\
    index_of (length (registers s)) d = Ret k /\
    registers s' = <[k := v]> (registers s).

(** Data memory after the cycle: as before, or with the one word
    replaced that the store in EX/MEM addresses. *)
Definition data_memory_step (s s' : state) : Prop :=
  data_memory s' = data_memory s \/
  exists r a v k,
    EX_MEM (pipeline s) = Some r /\ opcode (heap s r) = "sw" /\
    addr (heap s r) = Some a /\ val (heap s r) = Some v /\
    index_of (length (data_memory s)) (a / 4) = Ret k /\
    data_memory s' = <[k := v]> (data_memory s).

(** The log entry [e] shows state [s]. *)
Definition shows (e : log_entry) (s : state) : Prop :=
  log_cycle e = cycle s /\
  log_IF_ID e = text_of (IF_ID (pipeline s)) /\
  log_ID_EX e = deref s (ID_EX (pipeline s)) /\
  log_EX_MEM e = deref s (EX_MEM (pipeline s)) /\
  log_MEM_WB e = deref s (MEM_WB (pipeline s)) /\
  log_registers e = take 8 (registers s) /\
  log_executed e = instr_executed s.

(** Number of latches that hold something. *)
Definition occupied {A} (l : option A) : nat :=
  match l with Some _ => 1%nat | None => 0%nat end.

Definition in_flight (s : state) : nat :=
  let p := pipeline s in
  (occupied (IF_ID p) + occupied (ID_EX p) + occupied (EX_MEM p)
   + occupied (MEM_WB p))%nat.

(** The log has one entry per cycle so far, numbered from 1. *)
Definition numbered (s : state) : Prop :=
  length (log_lines s) = cycle s /\
  forall k e, log_lines s !! k = Some e -> log_cycle e = S k.

(** The texts fetched so far, in the order of the log, are the first
    [pc] lines of the program. *)
Definition fetched_in_order (s : state) : Prop :=
  omap log_fetched (log_lines s) = take (pc s) (instruction_memory s).

(** Retired instructions and instructions in flight were all fetched. *)
Definition accounted (s : state) : Prop :=
  (instr_executed s + in_flight s <= pc s)%nat.

(** ** Records in flight have the keys the stages read *)

(** As the decoder builds it: an immediate where Execute reads one, and
    no [rd] key on a record for which Execute computes no result. *)
Definition decoded_ok (i : instr) : Prop :=
  (in_tuple (opcode i) ["addi"; "slti"; "lw"; "sw"] = true ->
   is_Some (imm i)) /\
  (in_tuple (opcode i) (R_TYPE ++ ["addi"; "slti"; "lw"]) = false ->
   rd i = None).

(** The record Execute stores, from the one [compute] returned: for
    immediate and load instructions [rd] is set from [rt]. *)
Definition executed (ex1 : instr) : instr :=
  if in_tuple (opcode ex1) ["addi"; "slti"; "lw"]
  then set_rd_from_rt ex1 else ex1.

(** As Execute leaves it: an address on a load or store, a value on a
    store, a result wherever there is a destination, loads apart. *)
Definition executed_ok (i : instr) : Prop :=
  (opcode i = "lw" \/ opcode i = "sw" -> is_Some (addr i)) /\
  (opcode i = "sw" -> is_Some (val i)) /\
  (is_Some (rd i) -> opcode i = "lw" \/ is_Some (result i)).

(** As Memory leaves it: a result wherever there is a destination. *)
Definition completed_ok (i : instr) : Prop :=
  is_Some (rd i) -> is_Some (result i).

Definition well_formed (s : state) : Prop :=
  heap s NOP_ref = NOP /\
  (forall r, ID_EX (pipeline s) = Some r -> decoded_ok (heap s r)) /\
  (forall r, EX_MEM (pipeline s) = Some r -> executed_ok (heap s r)) /\
  (forall r, MEM_WB (pipeline s) = Some r -> completed_ok (heap s r)) /\
  (forall r, ID_EX (pipeline s) = Some r -> EX_MEM (pipeline s) = Some r ->
             r = NOP_ref).

(** The exceptions a run can end with. *)
Definition input_error (e : exn) : Prop := e = IndexError \/ e = ValueError.

(** A computation returns a state satisfying [P] or raises an input
    error. *)
Definition safely {A} (P : A -> Prop) (m : exc A) : Prop :=
  match m with
  | Ret a => P a
  | Raise e => input_error e
  end.

(** MEM/WB holds a record whose destination is register -1. *)
Definition negative_destination : state :=
  test_latches None (Some (test_producer (-1) 5)) (replicate NUM_REGS 0).

Definition missing_operand_program : list string :=
  [ "addi $1, $0, 5"; "add $2, $1" ].

(** A store of 15 at byte address 6 in EX/MEM, and a load from byte
    address 5 in EX/MEM once the store is done. *)
Definition test_sw : instr :=
  mkInstr "sw" None (Some 0) (Some 3) (Some 6) None (Some 6) (Some 15).
Definition test_lw_5 : instr :=
  mkInstr "lw" (Some 4) (Some 0) (Some 4) (Some 5) None (Some 5) None.
Definition store_in_memory : state :=
  test_latches (Some test_sw) None (replicate NUM_REGS 0).
Definition store_done : state := returned (memory_access store_in_memory).
Definition load_in_memory : state :=
  with_data_memory (data_memory store_done)
    (test_latches (Some test_lw_5) None (replicate NUM_REGS 0)).

(** ** Draining *)

(** An upper bound on the number of cycles until nothing is left to
    decode: two per line still to come or waiting in IF/ID (a cycle may
    stall, the next one cannot), one more if ID/EX is occupied (the
    stall, if any, comes first), one more if IF/ID is still to be
    filled. *)
Definition to_decode (s : state) : nat :=
  (2 * (length (instruction_memory s) - pc s + occupied (IF_ID (pipeline s)))
   + occupied (ID_EX (pipeline s))
   + match IF_ID (pipeline s) with
     | None => if (pc s <? length (instruction_memory s))%nat then 1 else 0
     | Some _ => 0
     end)%nat.

(** ** A modified [NOP] dict *)

(** The [NOP] dict given a source register and an immediate [z]. *)
Definition marked_nop (z : Z) : instr :=
  mkInstr "nop" None (Some 2) None (Some z) None None None.

(** A load into register 2 in ID/EX, an unrecognized line in IF/ID, and
    the [NOP] dict so modified. *)
Definition stall_on_nop (z : Z) : state :=
  mkState (replicate NUM_REGS 0) (replicate MEMORY_SIZE 0) ["foo"] 1 0 0 []
    (mkLatches (Some "foo") (Some 1%nat) None None)
    (fun r => match r with O => marked_nop z | _ => test_lw end).

(** ** Programs without loads and stores *)

(** [z] fits in [k] bits and a sign. *)
Definition within (k z : Z) : Prop := - 2 ^ k <= z < 2 ^ k.

(** A number of bits with which an integer is printable:
    [2 ^ MAX_BITS < 10 ^ 4300 < 2 ^ (MAX_BITS + 1)]. *)
Definition MAX_BITS : Z := 14284.

(** A record that is no load and no store, whose register operands are
    indices a register file of [n] registers accepts, and whose immediate
    fits in [k] bits. *)
Definition alu_record (n : nat) (k : Z) (i : instr) : Prop :=
  opcode i <> "lw" /\ opcode i <> "sw" /\
  (forall r, rd i = Some r -> in_range n r = true) /\
  (forall r, rs i = Some r -> in_range n r = true) /\
  (forall r, rt i = Some r -> in_range n r = true) /\
  (forall v, imm i = Some v -> within k v).

(** A line the decoder accepts, and turns into such a record or into
    the [NOP]. *)
Definition alu_line (n : nat) (k : Z) (line : string) : Prop :=
  exists d, parse_instruction line = Ret d /\
            forall i, d = New_dict i -> alu_record n k i.

(** Such a record in flight: it has no address and no value to store,
    and its result, if it has one, fits in [e] bits. *)
Definition alu_object (n : nat) (k e : Z) (i : instr) : Prop :=
  alu_record n k i /\ addr i = None /\ val i = None /\
  (forall v, result i = Some v -> within e v).

(** The instructions fetched that are past Decode. *)
Definition past_decode (s : state) : Z :=
  Z.of_nat (pc s) - Z.of_nat (occupied (IF_ID (pipeline s)))
  - Z.of_nat (occupied (ID_EX (pipeline s))).

(** Every record, every text in flight and every line still to come is
    of that kind, and the integers in the registers and in the records
    fit in one bit more per instruction past Decode. *)
Definition alu_state (k : Z) (s : state) : Prop :=
  let n := length (registers s) in
  let e := k + past_decode s in
  0 <= past_decode s /\ (pc s <= length (instruction_memory s))%nat /\
  (forall r, alu_object n k e (heap s r)) /\
  Forall (within e) (registers s) /\
  (forall t, IF_ID (pipeline s) = Some t -> t <> EmptyString ->
             alu_line n k t) /\
  Forall (alu_line n k) (instruction_memory s).

Definition alu_program : list string :=
  [ "addi $1, $0, 5";
    "ADD $2, $1, $-1";
    "";
    "slt $3 $2 $31";
    "mul $3, $2, $1";
    "and $4, $1, $2" ].
(** ** Reasoning about the exception monad *)

Lemma bind_Ret {A B} (m : exc A) (f : A -> exc B) (b : B) :
  m ≫= f = Ret b -> exists a, m = Ret a /\ f a = Ret b.
Proof. destruct m as [a|e]; simpl; [eauto | discriminate]. Qed.

Lemma bind_Ret_l {A B} (a : A) (f : A -> exc B) : Ret a ≫= f = f a.
Proof. reflexivity. Qed.

Lemma ret_Ret {A} (a : A) : mret a = Ret a.
Proof. reflexivity. Qed.

(** Decomposes hypotheses [m ≫= f = Ret b], one bind at a time. *)
Ltac inv_exc :=
  repeat match goal with
  | H : Ret _ = Ret _ |- _ => injection H as H; try subst
  | H : Raise _ = Ret _ |- _ => discriminate H
  | H : mret _ = Ret _ |- _ => rewrite ret_Ret in H
  | H : _ ≫= _ = Ret _ |- _ =>
      let a := fresh "a" in
      let Ha := fresh "Ha" in
      apply bind_Ret in H; destruct H as (a & Ha & H)
  | H : (let '(_, _) := ?p in _) = Ret _ |- _ => destruct p eqn:?
  | H : (_, _) = (_, _) |- _ => injection H as ? ?; try subst
  end.

(** ** The hazard detector *)

Lemma get_eq_true (field : option Z) (v : Z) :
  get_eq field v = true <-> field = Some v.
Proof.
  destruct field as [x|]; simpl.
  - rewrite Z.eqb_eq. split; congruence.
  - split; discriminate.
Qed.

(** C4, as stated, fails: a load into register 0 followed by a reader of
    register 0 is reported as a hazard although the target is register
    0. *)
Lemma hazard_on_register_zero :
  detect_load_use_hazard add_from_zero (Some lw_into_zero) = true /\
  ~ load_use_as_specified add_from_zero (Some lw_into_zero).
Proof.
  split; [reflexivity |].
  intros (ex & r & Hex & _ & Hrt & Hr & _).
  injection Hex as <-. simpl in Hrt. congruence.
Qed.

(** C4 (amended): [detect_load_use_hazard] answers true exactly when the
    instruction in Execute is a load-word whose [rt] is defined -- register
    0 included -- and the decoded instruction has that register as its
    [rs] or [rt]. *)
Theorem detect_load_use_hazard_spec (ID_instr : instr) (EX_instr : option instr) :
  detect_load_use_hazard ID_instr EX_instr = true <->
  exists ex r,
    EX_instr = Some ex /\ opcode ex = "lw" /\ rt ex = Some r /\
    (rs ID_instr = Some r \/ rt ID_instr = Some r).
Proof.
  unfold detect_load_use_hazard. split.
  - destruct EX_instr as [ex|]; [| discriminate].
    destruct (String.eqb_spec (opcode ex) "lw") as [Hop|]; [| discriminate].
    destruct (rt ex) as [r|] eqn:Hrt; [| discriminate].
    rewrite orb_true_iff, !get_eq_true. intros H.
    exists ex, r. auto.
  - intros (ex & r & -> & Hop & Hrt & H).
    rewrite Hop, Hrt. simpl.
    rewrite orb_true_iff, !get_eq_true. exact H.
Qed.

(** ** The forwarding unit *)

Lemma qualifies_reflect (l : option instr) (operand : option Z) :
  qualifies_b l operand = true <-> qualifies l operand.
Proof.
  unfold qualifies_b, forwardable_rd, qualifies. split.
  - destruct l as [p|]; [| discriminate].
    destruct (rd p) as [d|] eqn:Hrd; [| discriminate].
    destruct (Z.eqb_spec d 0); [discriminate |].
    rewrite get_eq_true. intros ->. exists p, d. auto.
  - intros (p & d & -> & Hrd & Hd & ->). rewrite Hrd.
    destruct (Z.eqb_spec d 0); [contradiction |].
    simpl. apply Z.eqb_refl.
Qed.

Lemma detect_forwarding_sources_pick (s : state) (i : instr) :
  detect_forwarding_sources s i =
  (pick (deref s (EX_MEM (pipeline s))) (deref s (MEM_WB (pipeline s))) (rs i),
   pick (deref s (EX_MEM (pipeline s))) (deref s (MEM_WB (pipeline s))) (rt i)).
Proof.
  unfold detect_forwarding_sources, pick, qualifies_b.
  destruct (forwardable_rd (deref s (EX_MEM (pipeline s)))) as [d|];
    destruct (forwardable_rd (deref s (MEM_WB (pipeline s)))) as [d'|];
    simpl;
    repeat match goal with
    | |- context [get_eq ?o ?v] => destruct (get_eq o v); simpl
    end; reflexivity.
Qed.

Lemma pick_rule (ex_mem mem_wb : option instr) (operand : option Z) :
  source_rule ex_mem mem_wb operand (pick ex_mem mem_wb operand).
Proof.
  unfold source_rule, pick.
  rewrite <- !qualifies_reflect.
  destruct (qualifies_b ex_mem operand), (qualifies_b mem_wb operand);
    repeat split; intros; try discriminate; try tauto;
    repeat match goal with
    | H : _ /\ _ |- _ => destruct H
    end; try discriminate; try congruence.
Qed.

(** C6: for every instruction record and every content of the latches,
    [detect_forwarding_sources] designates, for each of the operands [rs]
    and [rt], the Execute/Memory latch exactly when that latch qualifies
    (it holds a record whose [rd] is defined, non-zero and equal to the
    operand's register), the Memory/WriteBack latch exactly when it
    qualifies and the Execute/Memory latch does not, and the register
    file exactly when neither qualifies. *)
Theorem detect_forwarding_sources_spec (s : state) (i : instr) :
  let ex_mem := deref s (EX_MEM (pipeline s)) in
  let mem_wb := deref s (MEM_WB (pipeline s)) in
  source_rule ex_mem mem_wb (rs i) (fst (detect_forwarding_sources s i)) /\
  source_rule ex_mem mem_wb (rt i) (snd (detect_forwarding_sources s i)).
Proof.
  intros ex_mem mem_wb. rewrite detect_forwarding_sources_pick. simpl.
  split; apply pick_rule.
Qed.

(** ** Indices *)

Lemma index_of_position (n : nat) (i : Z) :
  index_of n i = if in_range n i then Ret (position n i) else Raise IndexError.
Proof.
  unfold index_of, in_range, position.
  destruct (Z.leb_spec 0 i); destruct (Z.ltb_spec i (Z.of_nat n));
    destruct (Z.leb_spec (- Z.of_nat n) i); destruct (Z.ltb_spec i 0);
    simpl; try reflexivity; try lia.
  - rewrite Z.mod_small by lia. reflexivity.
  - f_equal. f_equal.
    rewrite <- (Z.mod_add i 1 (Z.of_nat n)) by lia.
    rewrite Z.mod_small by lia. lia.
Qed.

Lemma setitem_position {A} (l : list A) (i : Z) (v : A) :
  setitem l i v =
  if in_range (length l) i then Ret (<[position (length l) i := v]> l)
  else Raise IndexError.
Proof.
  unfold setitem. rewrite index_of_position.
  destruct (in_range (length l) i); reflexivity.
Qed.

Lemma position_lt (n : nat) (i : Z) :
  in_range n i = true -> (position n i < n)%nat.
Proof.
  unfold in_range, position. intros H.
  apply andb_true_iff in H as [H1 H2].
  apply Z.leb_le in H1. apply Z.ltb_lt in H2.
  pose proof (Z.mod_pos_bound i (Z.of_nat n)). lia.
Qed.

Lemma getitem_position {A} (l : list A) (i : Z) :
  getitem l i =
  if in_range (length l) i
  then match l !! position (length l) i with
       | Some v => Ret v
       | None => Raise IndexError
       end
  else Raise IndexError.
Proof.
  unfold getitem. rewrite index_of_position.
  destruct (in_range (length l) i); reflexivity.
Qed.

(** ** The stages, one by one

    Each stage hands back the state it was given with a few fields
    replaced; the lemmas below say which. *)

Lemma write_back_shape (s s' : state) :
  write_back s = Ret s' ->
  exists regs n, s' = with_instr_executed n (with_registers regs s).
Proof.
  unfold write_back. intros H.
  destruct (deref s (MEM_WB (pipeline s))) as [wb|];
    [destruct (negb (opcode wb =? "nop")%string);
     [destruct (rd wb) as [d|] |] |];
    inv_exc;
    repeat match goal with x : state |- _ => destruct x end;
    eexists _, _; reflexivity.
Qed.

Lemma memory_access_shape (s s' : state) :
  memory_access s = Ret s' ->
  exists s1,
    s' = set_MEM_WB (EX_MEM (pipeline s)) s1 /\
    (s1 = s \/ (exists r i, EX_MEM (pipeline s) = Some r /\ s1 = store r i s)
     \/ exists dm, s1 = with_data_memory dm s).
Proof.
  unfold memory_access. intros H.
  destruct (EX_MEM (pipeline s)) as [r|] eqn:Hr; [| inv_exc; eauto].
  apply bind_Ret in H as (s1 & H1 & H). inv_exc.
  exists s1. split; [reflexivity |].
  destruct (opcode (heap s r) =? "lw")%string;
    [| destruct (opcode (heap s r) =? "sw")%string]; inv_exc; eauto 6.
Qed.

Lemma execute_shape (s s' : state) :
  execute s = Ret s' ->
  (ID_EX (pipeline s) = None /\ s' = set_EX_MEM None s) \/
  (exists r ex, ID_EX (pipeline s) = Some r /\
                s' = set_EX_MEM (Some r) (store r ex s)).
Proof.
  unfold execute. intros H.
  destruct (ID_EX (pipeline s)) as [r|]; [| inv_exc; auto].
  destruct (detect_forwarding_sources s (heap s r)) as [fA fB].
  inv_exc. eauto.
Qed.

Lemma object_of_shape (d : decoded) (s s1 : state) (r : ref) :
  object_of d s = (r, s1) ->
  s1 = s \/ exists i, s1 = store (fresh s) i s.
Proof.
  destruct d as [|i]; simpl; unfold alloc; intros [= <- <-]; eauto.
Qed.

Lemma decode_shape (s s' : state) (stalled : bool) :
  decode s = Ret (stalled, s') ->
  exists s1,
    (s1 = s \/ exists i, s1 = store (fresh s) i s) /\
    if stalled
    then s' = set_MEM_WB None (set_EX_MEM None (set_ID_EX None s1))
    else exists l, s' = set_ID_EX l s1.
Proof.
  unfold decode. intros H.
  destruct (text_of (IF_ID (pipeline s))) as [line|]; [| inv_exc; eauto].
  apply bind_Ret in H as (d & Hd & H).
  destruct (object_of d s) as [r s1] eqn:Hobj.
  apply object_of_shape in Hobj.
  destruct (detect_load_use_hazard _ _); inv_exc; eauto.
Qed.

Lemma fetch_shape (s s' : state) (fetched : option string) :
  fetch s = Ret (fetched, s') ->
  (fetched = None /\ (length (instruction_memory s) <= pc s)%nat /\
   s' = set_IF_ID None s) \/
  (exists text, fetched = Some text /\
     instruction_memory s !! pc s = Some text /\
     s' = with_pc (S (pc s)) (set_IF_ID (Some text) s)).
Proof.
  unfold fetch, item. intros H.
  destruct (Nat.ltb_spec (pc s) (length (instruction_memory s))).
  - destruct (instruction_memory s !! pc s) as [text|] eqn:Ht; inv_exc.
    right. eauto.
  - inv_exc. left. auto.
Qed.

Lemma log_pipeline_state_Ret (stalled : bool) (fetched : option string)
    (s s' : state) :
  log_pipeline_state stalled fetched s = Ret s' ->
  s' = logged stalled fetched s /\ printable_state s = true.
Proof.
  unfold log_pipeline_state.
  destruct (printable_state s); [| discriminate].
  intros [= <-]. auto.
Qed.

Lemma log_pipeline_state_printable (stalled : bool) (fetched : option string)
    (s : state) :
  printable_state s = true ->
  log_pipeline_state stalled fetched s = Ret (logged stalled fetched s).
Proof. unfold log_pipeline_state. intros ->. reflexivity. Qed.

Lemma printable_state_logged (stalled : bool) (fetched : option string)
    (s : state) :
  printable_state (logged stalled fetched s) = printable_state s.
Proof. reflexivity. Qed.

(** A cycle that returns went through its stages in order. *)
Lemma pipeline_step_stages (s s' : state) :
  pipeline_step s = Ret s' ->
  exists s1 s2 s3 s4 stalled,
    write_back (with_cycle (S (cycle s)) s) = Ret s1 /\
    memory_access s1 = Ret s2 /\
    execute s2 = Ret s3 /\
    decode s3 = Ret (stalled, s4) /\
    if stalled : bool
    then s' = logged true None s4
    else exists fetched s5,
        fetch s4 = Ret (fetched, s5) /\
        s' = logged false fetched s5.
Proof.
  unfold pipeline_step. intros H.
  apply bind_Ret in H as (s1 & H1 & H).
  apply bind_Ret in H as (s2 & H2 & H).
  apply bind_Ret in H as (s3 & H3 & H).
  apply bind_Ret in H as ([stalled s4] & H4 & H).
  exists s1, s2, s3, s4, stalled. repeat split; try assumption.
  destruct stalled;
    [apply log_pipeline_state_Ret in H as [-> _]; reflexivity |].
  apply bind_Ret in H as ([fetched s5] & H5 & H).
  apply log_pipeline_state_Ret in H as [-> _]. eauto.
Qed.

(** The state a cycle returns was put into text: its integers are
    printable. *)
Lemma pipeline_step_printable (s s' : state) :
  pipeline_step s = Ret s' -> printable_state s' = true.
Proof.
  unfold pipeline_step. intros H.
  apply bind_Ret in H as (s1 & H1 & H).
  apply bind_Ret in H as (s2 & H2 & H).
  apply bind_Ret in H as (s3 & H3 & H).
  apply bind_Ret in H as ([stalled s4] & H4 & H).
  destruct stalled;
    [apply log_pipeline_state_Ret in H as [-> Hp]; exact Hp |].
  apply bind_Ret in H as ([fetched s5] & H5 & H).
  apply log_pipeline_state_Ret in H as [-> Hp]. exact Hp.
Qed.

(** What each stage leaves alone. *)

Lemma write_back_keeps (s s' : state) :
  write_back s = Ret s' ->
  data_memory s' = data_memory s /\
  instruction_memory s' = instruction_memory s /\
  pc s' = pc s /\ cycle s' = cycle s /\ log_lines s' = log_lines s /\
  pipeline s' = pipeline s /\ heap s' = heap s.
Proof.
  intros H. apply write_back_shape in H as (regs & n & ->).
  simpl. auto 10.
Qed.

Lemma memory_access_keeps (s s' : state) :
  memory_access s = Ret s' ->
  registers s' = registers s /\
  instruction_memory s' = instruction_memory s /\
  pc s' = pc s /\ cycle s' = cycle s /\
  instr_executed s' = instr_executed s /\ log_lines s' = log_lines s /\
  IF_ID (pipeline s') = IF_ID (pipeline s) /\
  ID_EX (pipeline s') = ID_EX (pipeline s) /\
  EX_MEM (pipeline s') = EX_MEM (pipeline s) /\
  MEM_WB (pipeline s') = EX_MEM (pipeline s).
Proof.
  intros H.
  apply memory_access_shape in H
    as (s1 & -> & [-> | [(r & i & _ & ->) | (dm & ->)]]);
    simpl; auto 12.
Qed.

Lemma execute_keeps (s s' : state) :
  execute s = Ret s' ->
  registers s' = registers s /\ data_memory s' = data_memory s /\
  instruction_memory s' = instruction_memory s /\
  pc s' = pc s /\ cycle s' = cycle s /\
  instr_executed s' = instr_executed s /\ log_lines s' = log_lines s /\
  IF_ID (pipeline s') = IF_ID (pipeline s) /\
  ID_EX (pipeline s') = ID_EX (pipeline s) /\
  EX_MEM (pipeline s') = ID_EX (pipeline s) /\
  MEM_WB (pipeline s') = MEM_WB (pipeline s).
Proof.
  intros H.
  apply execute_shape in H as [(Hr & ->) | (r & ex & Hr & ->)];
    simpl; rewrite Hr; auto 12.
Qed.

Lemma decode_keeps (s s' : state) (stalled : bool) :
  decode s = Ret (stalled, s') ->
  registers s' = registers s /\ data_memory s' = data_memory s /\
  instruction_memory s' = instruction_memory s /\
  pc s' = pc s /\ cycle s' = cycle s /\
  instr_executed s' = instr_executed s /\ log_lines s' = log_lines s /\
  IF_ID (pipeline s') = IF_ID (pipeline s) /\
  (if stalled
   then ID_EX (pipeline s') = None /\ EX_MEM (pipeline s') = None /\
        MEM_WB (pipeline s') = None
   else EX_MEM (pipeline s') = EX_MEM (pipeline s) /\
        MEM_WB (pipeline s') = MEM_WB (pipeline s)).
Proof.
  intros H. apply decode_shape in H as (s1 & Hs1 & H).
  destruct stalled; [| destruct H as (l & H)]; subst s';
    destruct Hs1 as [-> | (i & ->)]; simpl;
    repeat split; auto.
Qed.

Lemma fetch_keeps (s s' : state) (fetched : option string) :
  fetch s = Ret (fetched, s') ->
  registers s' = registers s /\ data_memory s' = data_memory s /\
  instruction_memory s' = instruction_memory s /\
  cycle s' = cycle s /\
  instr_executed s' = instr_executed s /\ log_lines s' = log_lines s /\
  heap s' = heap s /\
  ID_EX (pipeline s') = ID_EX (pipeline s) /\
  EX_MEM (pipeline s') = EX_MEM (pipeline s) /\
  MEM_WB (pipeline s') = MEM_WB (pipeline s).
Proof.
  intros H.
  apply fetch_shape in H as [(_ & _ & ->) | (text & _ & _ & ->)];
    simpl; auto 12.
Qed.

(** Brings the facts of the lemmas above into the context. *)
Ltac stage_facts :=
  repeat match goal with
  | H : write_back _ = Ret _ |- _ =>
      let K := fresh "K" in
      pose proof (write_back_keeps _ _ H) as K; revert H;
      destruct K as (? & ? & ? & ? & ? & ? & ?)
  | H : memory_access _ = Ret _ |- _ =>
      let K := fresh "K" in
      pose proof (memory_access_keeps _ _ H) as K; revert H;
      destruct K as (? & ? & ? & ? & ? & ? & ? & ? & ? & ?)
  | H : execute _ = Ret _ |- _ =>
      let K := fresh "K" in
      pose proof (execute_keeps _ _ H) as K; revert H;
      destruct K as (? & ? & ? & ? & ? & ? & ? & ? & ? & ? & ?)
  | H : decode _ = Ret _ |- _ =>
      let K := fresh "K" in
      pose proof (decode_keeps _ _ _ H) as K; revert H;
      destruct K as (? & ? & ? & ? & ? & ? & ? & ? & ?)
  | H : fetch _ = Ret _ |- _ =>
      let K := fresh "K" in
      pose proof (fetch_keeps _ _ _ H) as K; revert H;
      destruct K as (? & ? & ? & ? & ? & ? & ? & ? & ? & ?)
  end; intros.

(** ** The retired-instruction counter *)

Lemma write_back_counter (s s' : state) :
  write_back s = Ret s' ->
  (retiring s /\ instr_executed s' = S (instr_executed s)) \/
  (~ retiring s /\ instr_executed s' = instr_executed s).
Proof.
  unfold write_back, retiring, deref. intros H.
  destruct (MEM_WB (pipeline s)) as [r|]; simpl in H.
  - destruct (String.eqb_spec (opcode (heap s r)) "nop") as [Hop|Hop];
      simpl in H.
    + inv_exc. right. split; [| reflexivity].
      intros (r' & [= <-] & Hne). contradiction.
    + left. split; [eauto |].
      destruct (rd (heap s r)); inv_exc; reflexivity.
  - inv_exc. right. split; [| reflexivity].
    intros (r' & Hr & _). discriminate.
Qed.

Lemma pipeline_step_counter (s s' : state) :
  pipeline_step s = Ret s' ->
  (retiring s /\ instr_executed s' = S (instr_executed s)) \/
  (~ retiring s /\ instr_executed s' = instr_executed s).
Proof.
  intros H.
  apply pipeline_step_stages in H
    as (s1 & s2 & s3 & s4 & stalled & H1 & H2 & H3 & H4 & H).
  pose proof (write_back_counter _ _ H1) as Hc.
  assert (instr_executed s' = instr_executed s1) as ->.
  { destruct stalled; [| destruct H as (f & s5 & H5 & H)]; subst s';
      stage_facts; simpl; congruence. }
  exact Hc.
Qed.

(** The counter after a call, whichever way the call ends, is the one
    Write-Back left, or the one the call started with if Write-Back
    raised. *)
Lemma globals_after_counter (s : state) :
  match write_back (with_cycle (S (cycle s)) s) with
  | Ret s1 => instr_executed (globals_after s) = instr_executed s1
  | Raise _ => instr_executed (globals_after s) = instr_executed s
  end.
Proof.
  unfold globals_after.
  destruct (write_back _) as [s1|e1]; [| reflexivity].
  destruct (memory_access s1) as [s2|e2] eqn:H2; [| reflexivity].
  destruct (execute s2) as [s3|e3] eqn:H3;
    [| stage_facts; congruence].
  destruct (decode s3) as [[stalled s4]|e4] eqn:H4;
    [| stage_facts; congruence].
  destruct stalled.
  - destruct (printable_state s4); stage_facts; simpl; congruence.
  - destruct (fetch s4) as [[f s5]|e5] eqn:H5; [| stage_facts; congruence].
    destruct (printable_state s5); stage_facts; simpl; congruence.
Qed.

Lemma globals_after_returned (s s' : state) :
  pipeline_step s = Ret s' -> globals_after s = s'.
Proof.
  unfold pipeline_step, globals_after. intros H.
  apply bind_Ret in H as (s1 & -> & H).
  apply bind_Ret in H as (s2 & -> & H).
  apply bind_Ret in H as (s3 & -> & H).
  apply bind_Ret in H as ([stalled s4] & -> & H).
  destruct stalled.
  - apply log_pipeline_state_Ret in H as [-> ->]. reflexivity.
  - apply bind_Ret in H as ([fetched s5] & -> & H).
    apply log_pipeline_state_Ret in H as [-> ->]. reflexivity.
Qed.

Lemma write_back_raises_iff (s : state) :
  (exists e, write_back s = Raise e) <-> unwritable s.
Proof.
  unfold write_back, unwritable, deref.
  destruct (MEM_WB (pipeline s)) as [r|]; simpl.
  2:{ split; [intros [e He]; discriminate He |].
      intros (r & d & Hr & _). discriminate Hr. }
  destruct (String.eqb_spec (opcode (heap s r)) "nop") as [Hop|Hop]; simpl.
  { split; [intros [e He]; discriminate He |].
    intros (r' & d & [= <-] & Hne & _). contradiction. }
  destruct (rd (heap s r)) as [d|] eqn:Hrd; simpl.
  2:{ split; [intros [e He]; discriminate He |].
      intros (r' & d & [= <-] & _ & Hd & _). congruence. }
  destruct (result (heap s r)) as [v|] eqn:Hres; simpl.
  2:{ split; [| eauto]. intros _. exists r, d. auto. }
  rewrite setitem_position.
  destruct (in_range (length (registers s)) d) eqn:Hin; simpl.
  - split; [intros [e He]; discriminate He |].
    intros (r' & d' & [= <-] & _ & Hd & [H | H]); congruence.
  - split; [| eauto]. intros _. exists r, d. auto.
Qed.

Lemma unwritable_retiring (s : state) : unwritable s -> retiring s.
Proof. intros (r & d & Hr & Hop & _). exists r. auto. Qed.

(** C8 (amended): whichever way a call of [pipeline_step] ends, the
    retired-instruction counter it leaves is 1 more than the one it
    found if and only if the MEM/WB latch held a record other than a
    no-operation when the call started and Write-Back completed, that
    is, unless the record names a destination and has no result or a
    destination outside the register file; otherwise the counter is
    unchanged.  Write-Back raises exactly in that case, before the
    increment, and the call then raises.  A store, which has no
    destination, always counts.  In a call that returns, the counter
    grows by 1 if and only if MEM/WB held a record other than a
    no-operation.  So the counter never decreases and grows by at most 1
    per call. *)
Theorem retired_counter_step (s : state) :
  let g := globals_after s in
  (instr_executed g = S (instr_executed s) <->
   retiring s /\ ~ unwritable s) /\
  (instr_executed g = instr_executed s <-> ~ retiring s \/ unwritable s) /\
  (unwritable s <->
   exists e, write_back (with_cycle (S (cycle s)) s) = Raise e) /\
  (unwritable s -> exists e, pipeline_step s = Raise e) /\
  (forall r, MEM_WB (pipeline s) = Some r -> opcode (heap s r) = "sw" ->
             rd (heap s r) = None ->
             instr_executed g = S (instr_executed s)) /\
  (forall s', pipeline_step s = Ret s' ->
              s' = g /\
              (instr_executed s' = S (instr_executed s) <-> retiring s) /\
              (instr_executed s' = instr_executed s <-> ~ retiring s)) /\
  (instr_executed s <= instr_executed g <= S (instr_executed s))%nat.
Proof.
  intros g. subst g.
  set (s0 := with_cycle (S (cycle s)) s).
  assert (unwritable s <-> exists e, write_back s0 = Raise e) as Hraise
    by (symmetry; apply (write_back_raises_iff s0)).
  pose proof (globals_after_counter s) as Hg. fold s0 in Hg.
  assert ((retiring s /\ ~ unwritable s /\
           instr_executed (globals_after s) = S (instr_executed s)) \/
          ((~ retiring s \/ unwritable s) /\
           instr_executed (globals_after s) = instr_executed s)) as Hcases.
  { destruct (write_back s0) as [s1|e1] eqn:H1.
    - assert (~ unwritable s) as Hn
        by (intros Hu; apply Hraise in Hu as [e He]; discriminate He).
      destruct (write_back_counter _ _ H1) as [[Hr E] | [Hr E]].
      + left. split; [exact Hr |]. split; [exact Hn |]. rewrite Hg. exact E.
      + right. split; [left; exact Hr |]. rewrite Hg. exact E.
    - right. split; [| exact Hg]. right. apply Hraise. eauto. }
  assert (forall s', pipeline_step s = Ret s' -> ~ unwritable s) as Hret.
  { intros s' H Hu. apply Hraise in Hu as [e He].
    unfold pipeline_step in H. fold s0 in H. rewrite He in H.
    discriminate H. }
  split; [| split; [| split; [| split; [| split; [| split]]]]].
  - destruct Hcases as [(Hr & Hn & E) | ([Hr | Hu] & E)]; rewrite E.
    + split; auto.
    + split; [lia | intros [Hr' _]; contradiction].
    + split; [lia | intros [_ Hn]; contradiction].
  - destruct Hcases as [(Hr & Hn & E) | (Hor & E)]; rewrite E.
    + split; [lia | intros [Hr' | Hu]; contradiction].
    + split; auto.
  - exact Hraise.
  - intros Hu. apply Hraise in Hu as [e He]. exists e.
    unfold pipeline_step. fold s0. rewrite He. reflexivity.
  - intros r Hwb Hop Hrd.
    destruct Hcases as [(_ & _ & E) | ([Hr | Hu] & E)]; [exact E | |].
    + exfalso. apply Hr. exists r. split; [exact Hwb |].
      rewrite Hop. discriminate.
    + exfalso. destruct Hu as (r' & d & Hr' & _ & Hd & _). congruence.
  - intros s' H. pose proof (Hret s' H) as Hn.
    rewrite <- (globals_after_returned _ _ H).
    split; [reflexivity |].
    destruct Hcases as [(Hr & _ & E) | ([Hr | Hu] & E)];
      try contradiction; rewrite E.
    + split; split; auto; try lia. intros Hr'. contradiction.
    + split; split; auto; try lia. intros Hr'. contradiction.
  - destruct Hcases as [(_ & _ & E) | (_ & E)]; rewrite E; lia.
Qed.

(** ** Stall cycles and the fetch counter *)

Lemma last_logged (stalled : bool) (fetched : option string)
    (s : state) (e : log_entry) :
  last (log_lines (logged stalled fetched s)) = Some e ->
  log_stall e = stalled /\ log_fetched e = fetched.
Proof.
  unfold logged. simpl. rewrite last_snoc.
  intros [= <-]. split; reflexivity.
Qed.

Lemma count_fetched_snoc (log : list log_entry) (e : log_entry) :
  count_fetched (log ++ [e]) =
  (count_fetched log + match log_fetched e with Some _ => 1 | None => 0 end)%nat.
Proof.
  unfold count_fetched. rewrite omap_app, length_app. simpl.
  destruct (log_fetched e); reflexivity.
Qed.

Lemma stall_cycle_frame (s s' : state) (e : log_entry) :
  pipeline_step s = Ret s' ->
  last (log_lines s') = Some e -> log_stall e = true ->
  ID_EX (pipeline s') = None /\ EX_MEM (pipeline s') = None /\
  MEM_WB (pipeline s') = None /\
  IF_ID (pipeline s') = IF_ID (pipeline s) /\
  pc s' = pc s /\ log_fetched e = None.
Proof.
  intros H He Hstall.
  apply pipeline_step_stages in H
    as (s1 & s2 & s3 & s4 & stalled & H1 & H2 & H3 & H4 & H).
  destruct stalled.
  - subst s'. apply last_logged in He as [_ Hf].
    stage_facts.
    match goal with K : _ /\ _ /\ _ |- _ => destruct K as (? & ? & ?) end.
    simpl in *. repeat split; congruence.
  - destruct H as (f & s5 & H5 & ->).
    apply last_logged in He as [Hs _]. congruence.
Qed.

Lemma pipeline_step_fetch_invariant (s s' : state) :
  pipeline_step s = Ret s' ->
  fetch_invariant s ->
  fetch_invariant s' /\ instruction_memory s' = instruction_memory s.
Proof.
  unfold fetch_invariant. intros H [Hc Hpc].
  apply pipeline_step_stages in H
    as (s1 & s2 & s3 & s4 & stalled & H1 & H2 & H3 & H4 & H).
  assert (log_lines s4 = log_lines s /\ pc s4 = pc s /\
          instruction_memory s4 = instruction_memory s) as (El & Ep & Ei).
  { stage_facts. simpl in *. repeat split; congruence. }
  destruct stalled.
  - subst s'. simpl. rewrite count_fetched_snoc. simpl.
    rewrite El, Ep, Ei. repeat split; lia.
  - destruct H as (f & s5 & H5 & ->). simpl.
    rewrite count_fetched_snoc. simpl.
    pose proof (fetch_keeps _ _ _ H5) as (_ & _ & Ei5 & _ & _ & El5 & _).
    apply fetch_shape in H5
      as [(-> & Hlen & ->) | (text & -> & Htext & ->)]; simpl in *.
    + rewrite El, Ep, Ei. repeat split; lia.
    + apply lookup_lt_Some in Htext.
      rewrite El, Ep, Ei in *. repeat split; lia.
Qed.

Lemma run_cycles_fetch_invariant (n : nat) (s s' : state) :
  run_cycles n s = Ret s' ->
  fetch_invariant s ->
  fetch_invariant s' /\ instruction_memory s' = instruction_memory s.
Proof.
  revert s. induction n as [|n IH]; simpl; intros s H Hinv.
  - inv_exc. auto.
  - apply bind_Ret in H as (s1 & H1 & H).
    destruct (pipeline_step_fetch_invariant _ _ H1 Hinv) as [Hinv1 E1].
    destruct (IH _ H Hinv1) as [Hinv' E']. split; congruence.
Qed.

(** *** When a cycle stalls *)

Lemma same_operands_refl (i : instr) : same_operands i i.
Proof. repeat split. Qed.

Lemma same_operands_trans (i j k : instr) :
  same_operands i j -> same_operands j k -> same_operands i k.
Proof.
  unfold same_operands. intros (? & ? & ?) (? & ? & ?).
  repeat split; congruence.
Qed.

Lemma compute_same_operands (ex ex' : instr) (a b : Z) :
  compute ex a b = Ret ex' -> same_operands ex' ex.
Proof.
  unfold compute. intros H.
  repeat match type of H with
  | (if ?c then _ else _) = _ => destruct c
  end; inv_exc; repeat split.
Qed.

Lemma store_same_operands (s : state) (r : ref) (i : instr) :
  same_operands i (heap s r) ->
  forall r', same_operands (heap (store r i s) r') (heap s r').
Proof.
  intros H r'. simpl. destruct (Nat.eqb_spec r' r) as [-> |].
  - exact H.
  - apply same_operands_refl.
Qed.

Lemma memory_access_operands (s s' : state) :
  memory_access s = Ret s' ->
  forall r, same_operands (heap s' r) (heap s r).
Proof.
  unfold memory_access. intros H.
  destruct (EX_MEM (pipeline s)) as [r0|];
    [| inv_exc; intros r; apply same_operands_refl].
  apply bind_Ret in H as (s1 & H1 & H). inv_exc.
  destruct (opcode (heap s r0) =? "lw")%string;
    [| destruct (opcode (heap s r0) =? "sw")%string]; inv_exc;
    try (intros r; apply same_operands_refl).
  apply (store_same_operands s r0). repeat split.
Qed.

Lemma execute_operands (s s' : state) :
  execute s = Ret s' ->
  forall r, same_operands (heap s' r) (heap s r).
Proof.
  unfold execute. intros H.
  destruct (ID_EX (pipeline s)) as [r0|];
    [| inv_exc; intros r; apply same_operands_refl].
  destruct (detect_forwarding_sources s (heap s r0)) as [fA fB].
  inv_exc.
  match goal with K : compute _ _ _ = Ret ?ex |- _ =>
    apply compute_same_operands in K; rename K into Hex
  end.
  apply (store_same_operands s r0).
  match goal with |- context [if ?c then _ else _] => destruct c end;
    [| exact Hex].
  eapply same_operands_trans; [| exact Hex]. repeat split.
Qed.

Lemma hazard_same_operands (i i' : instr) (e e' : option instr) :
  same_operands i i' ->
  match e, e' with
  | Some x, Some x' => same_operands x x'
  | None, None => True
  | _, _ => False
  end ->
  detect_load_use_hazard i e = detect_load_use_hazard i' e'.
Proof.
  unfold detect_load_use_hazard. intros (_ & Hrs & Hrt) He.
  destruct e as [x|], e' as [x'|]; try contradiction; [| reflexivity].
  destruct He as (-> & _ & ->). rewrite Hrs, Hrt. reflexivity.
Qed.

Lemma fresh_above (s : state) :
  let p := pipeline s in
  (latch_ref (ID_EX p) < fresh s)%nat /\
  (latch_ref (EX_MEM p) < fresh s)%nat /\
  (latch_ref (MEM_WB p) < fresh s)%nat.
Proof. unfold fresh. simpl. lia. Qed.

Lemma object_of_contents (d : decoded) (s s1 : state) (r : ref) :
  object_of d s = (r, s1) ->
  heap s1 r = contents s d /\ pipeline s1 = pipeline s /\
  deref s1 (ID_EX (pipeline s)) = deref s (ID_EX (pipeline s)).
Proof.
  destruct d as [|i]; simpl; unfold alloc; intros [= <- <-].
  - auto.
  - simpl. rewrite Nat.eqb_refl. repeat split.
    destruct (ID_EX (pipeline s)) as [r|] eqn:Hr; simpl; [| reflexivity].
    destruct (Nat.eqb_spec r (fresh s)) as [E|]; [| reflexivity].
    pose proof (fresh_above s) as (Hlt & _). rewrite Hr in Hlt.
    simpl in Hlt. lia.
Qed.

Lemma decode_stalls_iff (s s' : state) (stalled : bool) :
  decode s = Ret (stalled, s') ->
  stalled = true <-> hazard_detected s.
Proof.
  unfold decode, hazard_detected. intros H.
  destruct (text_of (IF_ID (pipeline s))) as [line|].
  - apply bind_Ret in H as (d & Hd & H).
    destruct (object_of d s) as [r s1] eqn:Hobj.
    apply object_of_contents in Hobj as (Hc & Hp & Hderef).
    rewrite Hp, Hc, Hderef in H.
    split.
    + intros ->. exists line, d.
      split; [reflexivity |]. split; [exact Hd |].
      destruct (detect_load_use_hazard _ _); [reflexivity | discriminate H].
    + intros (line' & d' & [= <-] & Hd' & Hh).
      rewrite Hd in Hd'. injection Hd' as <-.
      rewrite Hh in H. inv_exc. reflexivity.
  - inv_exc. split; [discriminate |].
    intros (line & d & Ht & _). discriminate.
Qed.

Lemma hazard_detected_same (s s' : state) :
  IF_ID (pipeline s') = IF_ID (pipeline s) ->
  ID_EX (pipeline s') = ID_EX (pipeline s) ->
  (forall r, same_operands (heap s' r) (heap s r)) ->
  hazard_detected s' -> hazard_detected s.
Proof.
  unfold hazard_detected. intros Hif Hid Hheap (line & d & Ht & Hd & Hh).
  exists line, d. rewrite <- Hif. repeat split; try assumption.
  rewrite <- Hh, <- Hid. symmetry. apply hazard_same_operands.
  - destruct d; simpl; [apply Hheap | apply same_operands_refl].
  - unfold deref. destruct (ID_EX (pipeline s')); simpl; [apply Hheap | exact I].
Qed.

Lemma same_operands_sym (i j : instr) :
  same_operands i j -> same_operands j i.
Proof. unfold same_operands. intros (? & ? & ?). auto. Qed.

Lemma pipeline_step_stall_iff (s s' : state) (e : log_entry) :
  pipeline_step s = Ret s' ->
  last (log_lines s') = Some e ->
  log_stall e = true <-> hazard_detected s.
Proof.
  intros H He.
  apply pipeline_step_stages in H
    as (s1 & s2 & s3 & s4 & stalled & H1 & H2 & H3 & H4 & H).
  assert (log_stall e = stalled) as ->.
  { destruct stalled; [| destruct H as (f & s5 & _ & H)]; subst s';
      apply last_logged in He as [Hs _]; exact Hs. }
  rewrite (decode_stalls_iff _ _ _ H4).
  pose proof (write_back_keeps _ _ H1) as (_ & _ & _ & _ & _ & Hp1 & Hh1).
  pose proof (memory_access_keeps _ _ H2)
    as (_ & _ & _ & _ & _ & _ & Hif2 & Hid2 & _ & _).
  pose proof (execute_keeps _ _ H3)
    as (_ & _ & _ & _ & _ & _ & _ & Hif3 & Hid3 & _ & _).
  pose proof (memory_access_operands _ _ H2) as Ho2.
  pose proof (execute_operands _ _ H3) as Ho3.
  assert (forall r, same_operands (heap s3 r) (heap s r)) as Ho.
  { intros r. eapply same_operands_trans; [apply Ho3 |].
    eapply same_operands_trans; [apply Ho2 |].
    rewrite Hh1. apply same_operands_refl. }
  assert (IF_ID (pipeline s3) = IF_ID (pipeline s)) as Hif
    by (rewrite Hif3, Hif2, Hp1; reflexivity).
  assert (ID_EX (pipeline s3) = ID_EX (pipeline s)) as Hid
    by (rewrite Hid3, Hid2, Hp1; reflexivity).
  split; apply hazard_detected_same; auto.
  intros r. apply same_operands_sym, Ho.
Qed.

(** C7: a cycle stalls -- its log entry carries the stall mark -- exactly
    when a load-use hazard is detected in it; a cycle that stalls ends
    with the ID/EX, EX/MEM and MEM/WB latches empty, the IF/ID latch and
    the program counter as they were when the cycle began, and nothing
    fetched; and at any point of any run, the number of cycles that
    fetched an instruction and the program counter are at most the length
    of the program. *)
Theorem stall_suppresses_fetch :
  (forall (s s' : state) (e : log_entry),
      pipeline_step s = Ret s' ->
      last (log_lines s') = Some e ->
      (log_stall e = true <-> hazard_detected s)) /\
  (forall (s s' : state) (e : log_entry),
      pipeline_step s = Ret s' ->
      last (log_lines s') = Some e -> log_stall e = true ->
      ID_EX (pipeline s') = None /\ EX_MEM (pipeline s') = None /\
      MEM_WB (pipeline s') = None /\
      IF_ID (pipeline s') = IF_ID (pipeline s) /\
      pc s' = pc s /\ log_fetched e = None) /\
  (forall (program : list string) (n : nat) (s : state),
      run program n = Ret s ->
      (count_fetched (log_lines s) <= length program)%nat /\
      (pc s <= length program)%nat).
Proof.
  split; [exact pipeline_step_stall_iff |].
  split; [exact stall_cycle_frame |].
  intros program n s H.
  apply run_cycles_fetch_invariant in H as [[Hc Hpc] Ei].
  - simpl in Ei. rewrite Ei in Hpc. lia.
  - split; simpl; [reflexivity | lia].
Qed.

(** ** The latches seen by Execute *)

Lemma index_of_lt (n : nat) (i : Z) (k : nat) :
  index_of n i = Ret k -> (k < n)%nat.
Proof.
  unfold index_of. intros H.
  destruct (Z.leb_spec 0 i); destruct (Z.ltb_spec i (Z.of_nat n));
    simpl in H; try (injection H as <-; lia);
    destruct (Z.leb_spec (- Z.of_nat n) i); destruct (Z.ltb_spec i 0);
    simpl in H; try discriminate; injection H as <-; lia.
Qed.

Lemma getitem_setitem (l l' : list Z) (i v : Z) :
  setitem l i v = Ret l' -> getitem l' i = Ret v.
Proof.
  unfold setitem, getitem. intros H.
  apply bind_Ret in H as (k & Hk & H). injection H as <-.
  rewrite length_insert, Hk. simpl.
  rewrite list_lookup_insert_eq; [reflexivity |].
  eapply index_of_lt, Hk.
Qed.

Lemma pick_same_latch (l : option instr) (operand : option Z) :
  pick l l operand <> MEM.
Proof. unfold pick. destruct (qualifies_b l operand); discriminate. Qed.

Lemma write_back_writes (s s' : state) (r : ref) (d v : Z) :
  write_back s = Ret s' ->
  MEM_WB (pipeline s) = Some r -> opcode (heap s r) <> "nop" ->
  rd (heap s r) = Some d -> result (heap s r) = Some v ->
  getitem (registers s') d = Ret v.
Proof.
  unfold write_back, deref. intros H Hr Hop Hrd Hres.
  rewrite Hr in H. simpl in H.
  destruct (String.eqb_spec (opcode (heap s r)) "nop"); [contradiction |].
  simpl in H. rewrite Hrd, Hres in H. simpl in H.
  apply bind_Ret in H as (s1 & H1 & H).
  apply bind_Ret in H1 as (regs & Hregs & H1). inv_exc. simpl.
  eapply getitem_setitem, Hregs.
Qed.

(** C10: when, inside a call of [pipeline_step], the Memory stage has
    run, the EX/MEM and MEM/WB latches designate the same object (or are
    both empty), so the forwarding sources Execute then computes are never
    the Memory/WriteBack latch, for either operand; and a register written
    by Write-Back at the start of this same cycle is what an operand taken
    from the register file reads. *)
Theorem execute_never_forwards_from_mem_wb (s s1 s2 : state) :
  write_back (with_cycle (S (cycle s)) s) = Ret s1 ->
  memory_access s1 = Ret s2 ->
  EX_MEM (pipeline s2) = MEM_WB (pipeline s2) /\
  MEM_WB (pipeline s2) = EX_MEM (pipeline s) /\
  (forall i : instr,
      fst (detect_forwarding_sources s2 i) <> MEM /\
      snd (detect_forwarding_sources s2 i) <> MEM) /\
  (forall (r : ref) (d v : Z) (i : instr) (f : source),
      MEM_WB (pipeline s) = Some r -> opcode (heap s r) <> "nop" ->
      rd (heap s r) = Some d -> result (heap s r) = Some v ->
      (rs i = Some d ->
       apply_forwarding s2 i REG f =
       (rt_val ← read_register s2 (rt i);
        rt_val ← forwarded s2 f rt_val;
        Ret (v, rt_val))) /\
      (rt i = Some d ->
       apply_forwarding s2 i f REG =
       (rs_val ← read_register s2 (rs i);
        rs_val ← forwarded s2 f rs_val;
        Ret (rs_val, v)))).
Proof.
  intros H1 H2.
  pose proof (memory_access_keeps _ _ H2)
    as (Hregs & _ & _ & _ & _ & _ & _ & _ & Hex & Hwb).
  split; [congruence |]. split.
  { pose proof (write_back_keeps _ _ H1) as (_ & _ & _ & _ & _ & Hp & _).
    rewrite Hwb, Hp. reflexivity. }
  split.
  - intros i. rewrite detect_forwarding_sources_pick, Hex, Hwb. simpl.
    split; apply pick_same_latch.
  - intros r d v i f Hr Hop Hrd Hres.
    assert (getitem (registers s2) d = Ret v) as Hget.
    { rewrite Hregs. eapply write_back_writes; eauto. }
    unfold apply_forwarding. split; intros ->; simpl; rewrite Hget; simpl.
    + reflexivity.
    + destruct (read_register s2 (rs i)) as [a|]; simpl; [| reflexivity].
      destruct (forwarded s2 f a); reflexivity.
Qed.


(** ** Whole runs *)

Lemma run_cycles_add (n m : nat) (s : state) :
  run_cycles (n + m) s = run_cycles n s ≫= run_cycles m.
Proof.
  revert s. induction n as [|n IH]; intros s; simpl; [reflexivity |].
  destruct (pipeline_step s) as [s1|e]; simpl; [apply IH | reflexivity].
Qed.

Lemma run_add (program : list string) (n m : nat) :
  run program (n + m) = run program n ≫= run_cycles m.
Proof. unfold run. apply run_cycles_add. Qed.

(** What is true of the value a computation returns can be read off the
    computation. *)
Lemma observe {A B} (f : A -> B) (m : exc A) (a : A) (b : B) :
  f <$> m = Ret b -> m = Ret a -> f a = b.
Proof. intros H ->. injection H as <-. reflexivity. Qed.

Lemma pipeline_step_drained (s : state) :
  drained s -> forallb printable (take 8 (registers s)) = true ->
  exists s', pipeline_step s = Ret s' /\ drained s' /\
             registers s' = registers s /\ data_memory s' = data_memory s /\
             instr_executed s' = instr_executed s.
Proof.
  intros [Hp Hpc] Hregs. destruct s as [regs dm im pc0 cy n log p h].
  simpl in *. subst p.
  unfold pipeline_step, write_back, memory_access, execute, decode, fetch.
  simpl. apply Nat.ltb_ge in Hpc as Hlt. rewrite Hlt. simpl.
  unfold log_pipeline_state, printable_state, printable_latch. simpl.
  rewrite Hregs.
  eexists. split; [reflexivity |]. unfold drained. simpl. auto.
Qed.

Lemma run_cycles_drained (n : nat) (s : state) :
  drained s -> forallb printable (take 8 (registers s)) = true ->
  exists s', run_cycles n s = Ret s' /\ drained s' /\
             registers s' = registers s /\ data_memory s' = data_memory s /\
             instr_executed s' = instr_executed s.
Proof.
  revert s. induction n as [|n IH]; intros s Hd Hregs; simpl.
  - exists s. auto.
  - destruct (pipeline_step_drained s Hd Hregs)
      as (s1 & -> & Hd1 & Er & Em & Ei).
    simpl. rewrite <- Er in Hregs.
    destruct (IH s1 Hd1 Hregs) as (s' & -> & Hd' & Er' & Em' & Ei').
    exists s'. repeat split; try apply Hd'; congruence.
Qed.

Lemma reference_program_20 :
  exists s, run reference_program 20 = Ret s /\ drained s /\
            outcome s = ([0; 5; 10; 15; 15; 0; 0; 0], [15; 0], 5%nat, 0%nat).
Proof.
  destruct (run reference_program 20) as [s|e] eqn:E.
  - exists s. split; [reflexivity |]. split; [split |].
    + apply (observe pipeline (run reference_program 20) s); [| exact E].
      vm_compute. reflexivity.
    + apply Nat.leb_le.
      apply (observe (fun s => length (instruction_memory s) <=? pc s)%nat
               (run reference_program 20) s); [| exact E].
      vm_compute. reflexivity.
    + apply (observe outcome (run reference_program 20) s); [| exact E].
      vm_compute. reflexivity.
  - vm_compute in E. discriminate E.
Qed.

(** C3: from the initial state with the five-instruction reference
    program loaded, any number [n >= 20] of [pipeline_step] calls returns
    and leaves register 1 = 5, register 2 = 10, register 3 = 15,
    register 4 = 15, data-memory word 0 = 15 and 5 retired instructions. *)
Theorem reference_program_result (n : nat) :
  (20 <= n)%nat ->
  exists s, run reference_program n = Ret s /\
            registers s !! 1%nat = Some 5 /\
            registers s !! 2%nat = Some 10 /\
            registers s !! 3%nat = Some 15 /\
            registers s !! 4%nat = Some 15 /\
            data_memory s !! 0%nat = Some 15 /\
            instr_executed s = 5%nat.
Proof.
  intros Hn. replace n with (20 + (n - 20))%nat by lia.
  rewrite run_add.
  destruct reference_program_20 as (s20 & E & Hd & Hout).
  rewrite E, bind_Ret_l.
  unfold outcome in Hout. injection Hout as Hr Hm Hi _.
  destruct (run_cycles_drained (n - 20) s20 Hd) as (s & -> & _ & Er & Em & Ei).
  { rewrite Hr. vm_compute. reflexivity. }
  exists s. split; [reflexivity |].
  rewrite Ei, Hi.
  rewrite <- (take_drop 8 (registers s)), <- (take_drop 2 (data_memory s)).
  rewrite Er, Em, Hr, Hm. repeat split.
Qed.

Lemma reference_program_result_20 :
  (20 <= 20)%nat /\
  exists s, run reference_program 20 = Ret s /\
            registers s !! 1%nat = Some 5 /\
            registers s !! 2%nat = Some 10 /\
            registers s !! 3%nat = Some 15 /\
            registers s !! 4%nat = Some 15 /\
            data_memory s !! 0%nat = Some 15 /\
            instr_executed s = 5%nat.
Proof.
  split; [lia | apply (reference_program_result 20); lia].
Defined.

(** C1: on a program in which a reader of the loaded register
    immediately follows the load, there is one stall cycle, but the stall
    empties the latch holding the load (and the one holding the store
    before it): the load never reaches Memory or Write-Back, register 2
    is never loaded, and the reader computes 0 + 0 from the register file
    although word 0 holds 7; only two instructions retire. *)
Theorem load_use_stall_discards_the_load :
  outcome <$> run load_use_program 20 =
  Ret ([0; 7; 0; 0; 0; 0; 0; 0], [7; 0], 2%nat, 1%nat).
Proof. vm_compute. reflexivity. Qed.

(** C5: the reader of register 1 sits two instructions after its
    producer, with a load it also depends on in between; the stall that
    the load causes empties the MEM/WB latch holding the producer before
    it is written back, so the reader computes with the register file's
    initial 0 and not with the producer's 5: registers 1 and 3 stay 0. *)
Theorem stall_discards_the_producer :
  outcome <$> run distance_two_program 20 =
  Ret ([0; 0; 0; 0; 0; 0; 0; 0], [0; 0], 1%nat, 1%nat).
Proof. vm_compute. reflexivity. Qed.

(** C2: Write-Back stores into register 0 like into any other register:
    after [addi $0, $0, 5] has retired, register 0 holds 5. *)
Theorem write_back_overwrites_register_zero :
  outcome <$> run write_zero_program 5 =
  Ret ([5; 0; 0; 0; 0; 0; 0; 0], [0; 0], 1%nat, 0%nat).
Proof. vm_compute. reflexivity. Qed.

(** ** The decoder *)

#[local] Arguments in_tuple : simpl never.

Lemma in_tuple_MNEMONICS (m : string) :
  in_tuple m MNEMONICS =
  in_tuple m R_TYPE || in_tuple m I_TYPE || in_tuple m MEM_TYPE.
Proof.
  unfold in_tuple, MNEMONICS. rewrite !existsb_app, orb_assoc. reflexivity.
Qed.

Lemma parse_unrecognized (line : string) :
  recognized line = false -> parse_instruction line = Ret The_NOP.
Proof.
  unfold recognized, mnemonic, parse_instruction, tokens_of.
  destruct (split (remove_char "," line)) as [|t0 ts]; simpl; [reflexivity |].
  rewrite in_tuple_MNEMONICS, !orb_false_iff. intros [[-> ->] ->].
  reflexivity.
Qed.

Lemma raises_int (s : string) : raises (int s) = negb (is_int s).
Proof. unfold is_int. rewrite negb_involutive. reflexivity. Qed.

Lemma raises_reg_operand (tokens : list string) (k : nat) :
  raises (reg_operand tokens k) = negb (register_token (tokens !! k)).
Proof.
  unfold reg_operand, item, register_token.
  destruct (tokens !! k) as [t|]; simpl; [apply raises_int | reflexivity].
Qed.

Lemma raises_bind {A B} (m : exc A) (f : A -> exc B) :
  raises (m ≫= f) =
  match m with
  | Ret a => raises (f a)
  | Raise _ => true
  end.
Proof. destruct m; reflexivity. Qed.

(** Cases on the outcome of the next register operand read. *)
Ltac operand_cases :=
  repeat match goal with
  | |- context [reg_operand ?ts ?k] =>
      let E := fresh "E" in
      pose proof (raises_reg_operand ts k) as E;
      destruct (reg_operand ts k), (register_token (ts !! k));
      try discriminate E; clear E;
      cbn [raises mbind exc_bind negb andb]; try reflexivity
  end.

Lemma parse_recognized (line : string) :
  recognized line = true ->
  raises (parse_instruction line) = negb (operands_accepted line).
Proof.
  unfold recognized, operands_accepted, mnemonic, parse_instruction, tokens_of.
  destruct (split (remove_char "," line)) as [|t0 ts] eqn:Hts;
    [discriminate |].
  cbn [head fmap option_fmap option_map].
  set (tokens := t0 :: ts). clearbody tokens.
  rewrite in_tuple_MNEMONICS.
  destruct (in_tuple (lower t0) R_TYPE); [intros _ |].
  { operand_cases. }
  destruct (in_tuple (lower t0) I_TYPE); [intros _ |].
  { operand_cases.
    unfold item, immediate_token, is_int.
    destruct (tokens !! 3%nat) as [t|];
      cbn [raises mbind exc_bind negb andb]; [| reflexivity].
    destruct (int t); reflexivity. }
  destruct (in_tuple (lower t0) MEM_TYPE); [intros _ | discriminate].
  operand_cases.
  unfold item, memory_token, is_int.
  destruct (tokens !! 2%nat) as [t|];
    cbn [raises mbind exc_bind negb andb]; [| reflexivity].
  destruct (split_on "(" (remove_char ")" t)) as [|offset [|base [|x l]]];
    cbn [unpack2 raises mbind exc_bind negb andb]; try reflexivity.
  destruct (int (tail base));
    cbn [raises mbind exc_bind negb andb]; [| reflexivity].
  destruct (int offset); reflexivity.
Qed.

(** C9, as stated, fails: the register tokens of this line have no
    sigil, yet the decoder returns a record (for registers 5, 6 and 7)
    and does not raise. *)
Lemma sigil_not_checked :
  recognized "add 15, 26, 37" = true /\
  tokens_of "add 15, 26, 37" = ["add"; "15"; "26"; "37"] /\
  forallb has_sigil ["15"; "26"; "37"] = false /\
  parse_instruction "add 15, 26, 37" =
  Ret (New_dict (mkInstr "add" (Some 5) (Some 6) (Some 7)
                         None None None None)).
Proof. repeat split; reflexivity. Qed.

(** ** No-operations in flight *)

Lemma write_back_skips_nop (s : state) (r : ref) :
  MEM_WB (pipeline s) = Some r -> heap s r = NOP -> write_back s = Ret s.
Proof.
  unfold write_back, deref. intros -> Hnop. simpl. rewrite Hnop. reflexivity.
Qed.

Lemma memory_access_skips_nop (s : state) (r : ref) :
  EX_MEM (pipeline s) = Some r -> heap s r = NOP ->
  memory_access s = Ret (set_MEM_WB (Some r) s).
Proof.
  unfold memory_access. intros -> Hnop. rewrite Hnop. reflexivity.
Qed.

Lemma pick_no_operand (ex_mem mem_wb : option instr) :
  pick ex_mem mem_wb None = REG.
Proof.
  unfold pick, qualifies_b.
  destruct (forwardable_rd ex_mem), (forwardable_rd mem_wb); reflexivity.
Qed.

Lemma execute_passes_nop (s : state) (r : ref) :
  ID_EX (pipeline s) = Some r -> heap s r = NOP ->
  execute s = Ret (set_EX_MEM (Some r) (store r NOP s)).
Proof.
  unfold execute. intros -> Hnop.
  rewrite detect_forwarding_sources_pick, Hnop. simpl.
  rewrite !pick_no_operand. reflexivity.
Qed.

Lemma write_back_nop (s : state) :
  heap s NOP_ref = NOP -> nop_latch (MEM_WB (pipeline s)) ->
  write_back s = Ret s.
Proof.
  intros Hnop [H | H]; [| eapply write_back_skips_nop; eassumption].
  unfold write_back, deref. rewrite H. reflexivity.
Qed.

Lemma memory_access_nop (s : state) :
  heap s NOP_ref = NOP -> nop_latch (EX_MEM (pipeline s)) ->
  memory_access s = Ret (set_MEM_WB (EX_MEM (pipeline s)) s).
Proof.
  intros Hnop [H | H]; rewrite H.
  - unfold memory_access. rewrite H. reflexivity.
  - apply memory_access_skips_nop; assumption.
Qed.

Lemma execute_nop (s : state) :
  heap s NOP_ref = NOP -> nop_latch (ID_EX (pipeline s)) ->
  exists s', execute s = Ret s' /\ heap s' NOP_ref = NOP.
Proof.
  intros Hnop [H | H].
  - unfold execute. rewrite H. eexists. split; [reflexivity | exact Hnop].
  - rewrite (execute_passes_nop s NOP_ref H Hnop).
    eexists. split; reflexivity.
Qed.

Lemma decode_nop (s : state) :
  heap s NOP_ref = NOP -> nop_latch (ID_EX (pipeline s)) ->
  (forall t, IF_ID (pipeline s) = Some t -> recognized t = false) ->
  exists s', decode s = Ret (false, s') /\ heap s' = heap s /\
             nop_latch (ID_EX (pipeline s')).
Proof.
  unfold decode, nop_latch. intros Hnop Hid Hif.
  destruct (IF_ID (pipeline s)) as [[|c line]|]; simpl.
  - eexists. split; [reflexivity |]. simpl. auto.
  - rewrite (parse_unrecognized _ (Hif _ eq_refl)). simpl.
    assert (detect_load_use_hazard (heap s NOP_ref)
              (deref s (ID_EX (pipeline s))) = false) as ->.
    { destruct Hid as [-> | ->]; simpl; rewrite ?Hnop; reflexivity. }
    eexists. split; [reflexivity |]. simpl. auto.
  - eexists. split; [reflexivity |]. simpl. auto.
Qed.

Lemma fetch_returns (s : state) :
  exists fetched s', fetch s = Ret (fetched, s').
Proof.
  unfold fetch, item.
  destruct (Nat.ltb_spec (pc s) (length (instruction_memory s))) as [Hlt|Hge].
  - apply lookup_lt_is_Some_2 in Hlt as [text ->]. simpl. eauto.
  - eauto.
Qed.

Lemma fetch_text (s s' : state) (fetched : option string) (t : string) :
  fetch s = Ret (fetched, s') -> IF_ID (pipeline s') = Some t ->
  t ∈ instruction_memory s.
Proof.
  intros H Ht.
  apply fetch_shape in H as [(_ & _ & ->) | (text & _ & Htext & ->)];
    simpl in Ht; [discriminate |].
  injection Ht as <-. eapply list_elem_of_lookup_2, Htext.
Qed.

Lemma printable_latch_nop (s : state) (l : option ref) :
  heap s NOP_ref = NOP -> nop_latch l -> printable_latch s l = true.
Proof.
  unfold printable_latch, deref.
  intros Hnop [-> | ->]; simpl; rewrite ?Hnop; reflexivity.
Qed.

Lemma pipeline_step_only_nops (s : state) :
  only_nops s -> forallb printable (take 8 (registers s)) = true ->
  exists s', pipeline_step s = Ret s' /\ only_nops s' /\
             registers s' = registers s /\ data_memory s' = data_memory s.
Proof.
  intros (Hnop & Hid & Hex & Hwb & Hif & Him) Hregs.
  unfold pipeline_step.
  rewrite write_back_nop by assumption. rewrite bind_Ret_l.
  rewrite memory_access_nop by assumption. rewrite bind_Ret_l.
  set (s2 := set_MEM_WB _ _).
  destruct (execute_nop s2) as (s3 & H3 & Hnop3); try assumption.
  rewrite H3, bind_Ret_l.
  pose proof (execute_keeps _ _ H3)
    as (Er3 & Em3 & Ei3 & _ & _ & _ & _ & Eif3 & Eid3 & Eex3 & Ewb3).
  destruct (decode_nop s3) as (s4 & H4 & Eh4 & Hid4).
  { assumption. }
  { rewrite Eid3. exact Hid. }
  { rewrite Eif3. exact Hif. }
  rewrite H4, bind_Ret_l.
  pose proof (decode_keeps _ _ _ H4)
    as (Er4 & Em4 & Ei4 & _ & _ & _ & _ & Eif4 & Eex4 & Ewb4).
  destruct (fetch_returns s4) as (fetched & s5 & H5).
  rewrite H5, bind_Ret_l.
  pose proof (fetch_keeps _ _ _ H5)
    as (Er5 & Em5 & Ei5 & _ & _ & _ & Eh5 & Eid5 & Eex5 & Ewb5).
  assert (only_nops s5 /\ registers s5 = registers s /\
          data_memory s5 = data_memory s) as (Hs5 & Er & Em).
  { unfold only_nops.
    rewrite Eh5, Eh4, Eid5, Eex5, Eex4, Eex3, Ewb5, Ewb4, Ewb3, Ei5, Ei4, Ei3,
      Er5, Er4, Er3, Em5, Em4, Em3.
    repeat split; try assumption.
    intros t Ht. apply (fetch_text _ _ _ _ H5) in Ht.
    rewrite Ei4, Ei3 in Ht. simpl in Ht.
    rewrite Forall_forall in Him. apply Him, Ht. }
  rewrite log_pipeline_state_printable.
  - eexists. split; [reflexivity |]. auto.
  - destruct Hs5 as (Hnop5 & Hid5 & Hex5 & Hwb5 & _).
    unfold printable_state.
    rewrite !printable_latch_nop by assumption. rewrite Er. exact Hregs.
Qed.

Lemma run_cycles_only_nops (n : nat) (s : state) :
  only_nops s -> forallb printable (take 8 (registers s)) = true ->
  exists s', run_cycles n s = Ret s' /\ only_nops s' /\
             registers s' = registers s /\ data_memory s' = data_memory s.
Proof.
  revert s. induction n as [|n IH]; intros s Hs Hregs; simpl.
  - exists s. auto.
  - destruct (pipeline_step_only_nops s Hs Hregs) as (s1 & -> & Hs1 & Er & Em).
    simpl. rewrite <- Er in Hregs.
    destruct (IH s1 Hs1 Hregs) as (s' & -> & Hs' & Er' & Em').
    exists s'. repeat split; try apply Hs'; congruence.
Qed.

(** C9 (amended): [parse_instruction] returns the No-operation record,
    without raising, when the line is blank or its first token is, case
    ignored, none of the nine mnemonics; for a line with one of the nine
    mnemonics it raises exactly when an operand the mnemonic calls for is
    missing or not accepted, where a register token is accepted when what
    follows its first character -- sigil or not -- is an integer literal
    (one that [int] takes: at most 4300 digits);
    a No-operation record passes Write-Back, Memory and Execute without
    any change to registers, data memory or the retired count; and a
    program made of unrecognized lines runs for any number of cycles
    without raising and leaves registers and data memory as [reset] made
    them. *)
Theorem parse_instruction_spec :
  (forall line : string,
      recognized line = false -> parse_instruction line = Ret The_NOP) /\
  (forall line : string,
      recognized line = true ->
      (raises (parse_instruction line) = true <->
       operands_accepted line = false)) /\
  (forall (s : state) (r : ref),
      heap s r = NOP ->
      (MEM_WB (pipeline s) = Some r -> write_back s = Ret s) /\
      (EX_MEM (pipeline s) = Some r ->
       memory_access s = Ret (set_MEM_WB (Some r) s)) /\
      (ID_EX (pipeline s) = Some r ->
       execute s = Ret (set_EX_MEM (Some r) (store r NOP s)))) /\
  (forall (program : list string) (n : nat),
      Forall (fun t => recognized t = false) program ->
      exists s, run program n = Ret s /\
                registers s = replicate NUM_REGS 0 /\
                data_memory s = replicate MEMORY_SIZE 0).
Proof.
  split; [exact parse_unrecognized |]. split; [| split].
  - intros line H. rewrite (parse_recognized line H).
    destruct (operands_accepted line); simpl; split; congruence.
  - intros s r Hnop. repeat split; intros H.
    + eapply write_back_skips_nop; eassumption.
    + apply memory_access_skips_nop; assumption.
    + apply execute_passes_nop; assumption.
  - intros program n Hprog.
    destruct (run_cycles_only_nops n (with_instruction_memory program reset))
      as (s & E & _ & Er & Em).
    + unfold only_nops, nop_latch. simpl. repeat split; auto. discriminate.
    + vm_compute. reflexivity.
    + exists s. repeat split; assumption.
Qed.

Lemma parse_instruction_spec_foo :
  parse_instruction "foo $1, $2, $3" = Ret The_NOP /\
  (raises (parse_instruction "add $1, $2") = true <->
   operands_accepted "add $1, $2" = false) /\
  exists s, run ["foo $1, $2, $3"] 20 = Ret s /\
            registers s = replicate NUM_REGS 0 /\
            data_memory s = replicate MEMORY_SIZE 0.
Proof.
  destruct parse_instruction_spec as (Hnop & Hraise & _ & Hrun).
  split; [apply Hnop; reflexivity |].
  split; [apply Hraise; reflexivity |].
  apply Hrun. repeat constructor.
Defined.

(** ** The source's unit tests, on the model *)

Example test_parse_instruction_basic :
  parse_instruction "and $5, $6, $7" =
    Ret (New_dict (mkInstr "and" (Some 5) (Some 6) (Some 7)
                           None None None None)) /\
  parse_instruction "addi $2, $3, -1" =
    Ret (New_dict (mkInstr "addi" None (Some 3) (Some 2) (Some (-1))
                           None None None)) /\
  parse_instruction EmptyString = Ret The_NOP.
Proof. repeat split; reflexivity. Qed.

Example test_detect_load_use_hazard :
  detect_load_use_hazard (test_operands 2 3) (Some test_lw) = true /\
  detect_load_use_hazard (test_operands 4 5) (Some test_lw) = false.
Proof. split; reflexivity. Qed.

Example test_detect_forwarding_sources :
  detect_forwarding_sources
    (test_latches (Some (test_producer 2 99)) (Some NOP) (replicate NUM_REGS 0))
    (test_operands 2 3) = (EX, REG) /\
  detect_forwarding_sources
    (test_latches None (Some (test_producer 3 55)) (replicate NUM_REGS 0))
    (test_operands 1 3) = (REG, MEM).
Proof. split; reflexivity. Qed.

Example test_apply_forwarding :
  let s := test_latches (Some (test_producer 1 100))
                        (Some (test_producer 2 200))
                        (<[1%nat := 10]> (<[2%nat := 20]> (replicate NUM_REGS 0))) in
  apply_forwarding s (test_operands 1 2) EX EX = Ret (100, 100) /\
  apply_forwarding s (test_operands 1 2) REG MEM = Ret (10, 200).
Proof. split; reflexivity. Qed.

Example int_samples :
  int "15" = Ret 15 /\ int "-1" = Ret (-1) /\ int "+007" = Ret 7 /\
  int "1_000" = Ret 1000 /\ int EmptyString = Raise ValueError /\
  int "1__0" = Raise ValueError /\ int "_1" = Raise ValueError /\
  int "1_" = Raise ValueError /\ int "$1" = Raise ValueError /\
  int "+-1" = Raise ValueError.
Proof. repeat split; reflexivity. Qed.

Example split_samples :
  split "  add   $1 $2	$3 " = ["add"; "$1"; "$2"; "$3"] /\
  split "   " = [] /\
  split_on "(" "0($2" = ["0"; "$2"] /\
  split_on "(" EmptyString = [EmptyString] /\
  split_on "(" "((" = [EmptyString; EmptyString; EmptyString].
Proof. repeat split; reflexivity. Qed.

Example getitem_samples :
  getitem [10; 20; 30] 0 = Ret 10 /\ getitem [10; 20; 30] (-1) = Ret 30 /\
  getitem [10; 20; 30] 3 = Raise IndexError /\
  getitem [10; 20; 30] (-4) = Raise IndexError /\
  setitem [10; 20; 30] (-3) 7 = Ret [7; 20; 30].
Proof. repeat split; reflexivity. Qed.

(** ** The theorems at concrete states *)

Lemma detect_load_use_hazard_spec_test :
  detect_load_use_hazard (test_operands 2 3) (Some test_lw) = true <->
  exists ex r,
    Some test_lw = Some ex /\ opcode ex = "lw" /\ rt ex = Some r /\
    (rs (test_operands 2 3) = Some r \/ rt (test_operands 2 3) = Some r).
Proof. apply (detect_load_use_hazard_spec (test_operands 2 3) (Some test_lw)). Defined.

Lemma detect_forwarding_sources_spec_test :
  source_rule (Some (test_producer 2 99)) (Some (test_producer 2 55))
              (Some 2) EX /\
  source_rule (Some (test_producer 2 99)) (Some (test_producer 2 55))
              (Some 3) REG.
Proof.
  apply (detect_forwarding_sources_spec
           (test_latches (Some (test_producer 2 99)) (Some (test_producer 2 55))
                         (replicate NUM_REGS 0))
           (test_operands 2 3)).
Defined.

Lemma retired_counter_step_store :
  retiring store_retires /\ ~ unwritable store_retires /\
  instr_executed (globals_after store_retires)
  = S (instr_executed store_retires).
Proof.
  destruct (retired_counter_step store_retires)
    as (Hiff & _ & _ & _ & Hsw & _).
  assert (instr_executed (globals_after store_retires)
          = S (instr_executed store_retires)) as E.
  { apply (Hsw 4%nat); vm_compute; reflexivity. }
  split; [apply Hiff, E |]. split; [apply Hiff, E | exact E].
Defined.

(** C8, as first stated, fails on a call that raises: four cycles into
    [add $32, $0, $0] the MEM/WB latch holds the [add], which is no
    no-operation; the fifth call raises IndexError in Write-Back, at
    [registers[32] = ...], before the counter is incremented, and leaves
    it at 0. *)
Theorem retiring_call_raises :
  run register_32_program 4 = Ret register_32_retires /\
  retiring register_32_retires /\
  pipeline_step register_32_retires = Raise IndexError /\
  run register_32_program 5 = Raise IndexError /\
  instr_executed register_32_retires = 0%nat /\
  instr_executed (globals_after register_32_retires) = 0%nat.
Proof.
  split; [| split; [| split; [| split; [| split]]]].
  - unfold register_32_retires.
    destruct (run register_32_program 4) as [s|e] eqn:E; [reflexivity |].
    exfalso. vm_compute in E. discriminate E.
  - exists 1%nat. split; [vm_compute; reflexivity |].
    vm_compute. discriminate.
  - vm_compute. reflexivity.
  - vm_compute. reflexivity.
  - vm_compute. reflexivity.
  - vm_compute. reflexivity.
Qed.

Lemma stall_suppresses_fetch_load_use :
  hazard_detected before_stall /\
  (ID_EX (pipeline after_stall) = None /\
   EX_MEM (pipeline after_stall) = None /\
   MEM_WB (pipeline after_stall) = None /\
   IF_ID (pipeline after_stall) = IF_ID (pipeline before_stall) /\
   pc after_stall = pc before_stall) /\
  (count_fetched (log_lines after_stall) <= length load_use_program)%nat /\
  (pc after_stall <= length load_use_program)%nat.
Proof.
  destruct stall_suppresses_fetch as (Hiff & Hstall & Hbound).
  assert (pipeline_step before_stall = Ret after_stall) as Hstep
    by (vm_compute; reflexivity).
  destruct (last (log_lines after_stall)) as [e|] eqn:He.
  - assert (log_stall e = true) as Hs.
    { assert (log_stall <$> last (log_lines after_stall) = Some true) as Hs
        by (vm_compute; reflexivity).
      rewrite He in Hs. injection Hs as Hs. exact Hs. }
    split; [apply (Hiff before_stall after_stall e Hstep He), Hs |].
    split.
    + destruct (Hstall before_stall after_stall e Hstep He Hs)
        as (H1 & H2 & H3 & H4 & H5 & _).
      auto.
    + apply (Hbound load_use_program 5%nat after_stall).
      vm_compute. reflexivity.
  - exfalso.
    assert (is_Some (last (log_lines after_stall))) as [e He']
      by (vm_compute; eauto).
    congruence.
Defined.

Lemma execute_never_forwards_from_mem_wb_add :
  EX_MEM (pipeline add_after_memory) = MEM_WB (pipeline add_after_memory) /\
  MEM_WB (pipeline add_after_memory) = EX_MEM (pipeline add_enters_execute) /\
  (forall i : instr,
      fst (detect_forwarding_sources add_after_memory i) <> MEM /\
      snd (detect_forwarding_sources add_after_memory i) <> MEM) /\
  apply_forwarding add_after_memory (test_operands 1 2) REG EX = Ret (5, 10).
Proof.
  destruct (execute_never_forwards_from_mem_wb
              add_enters_execute add_after_write_back add_after_memory)
    as (H1 & H2 & H3 & H4).
  - vm_compute. reflexivity.
  - vm_compute. reflexivity.
  - split; [exact H1 |]. split; [exact H2 |]. split; [exact H3 |].
    destruct (H4 1%nat 1 5 (test_operands 1 2) EX) as [Hrs _].
    + vm_compute. reflexivity.
    + vm_compute. discriminate.
    + vm_compute. reflexivity.
    + vm_compute. reflexivity.
    + etransitivity; [apply Hrs; reflexivity |].
      vm_compute. reflexivity.
Defined.

(** ** The loader *)

Lemma split_once_two (c : ascii) (s : string) :
  contains c s = true -> exists a b, split_once c s = [a; b].
Proof.
  induction s as [|x r IH]; simpl; [discriminate |].
  destruct (Ascii.eqb x c); simpl; [eauto |].
  intros H. destruct (IH H) as (a & b & ->). eauto.
Qed.

Lemma split_once_none (c : ascii) (s : string) :
  contains c s = false -> split_once c s = [s].
Proof.
  induction s as [|x r IH]; simpl; [reflexivity |].
  destruct (Ascii.eqb x c); simpl; [discriminate |].
  intros H. rewrite (IH H). reflexivity.
Qed.

Lemma lstrip_head (s : string) :
  match lstrip s with
  | EmptyString => True
  | String a _ => isspace a = false
  end.
Proof.
  induction s as [|a r IH]; simpl; [exact I |].
  destruct (isspace a) eqn:E; [exact IH | simpl; exact E].
Qed.

Lemma rstrip_cons (a : ascii) (r : string) :
  isspace a = false -> rstrip (String a r) = String a (rstrip r).
Proof.
  intros E. simpl. destruct (rstrip r); [rewrite E |]; reflexivity.
Qed.

Lemma rstrip_cons_nonempty (a b : ascii) (r r' : string) :
  rstrip r = String b r' -> rstrip (String a r) = String a (String b r').
Proof. intros E. simpl. rewrite E. reflexivity. Qed.

Lemma rstrip_idem (s : string) : rstrip (rstrip s) = rstrip s.
Proof.
  induction s as [|a r IH]; [reflexivity |].
  destruct (rstrip r) as [|b r'] eqn:Er.
  - simpl. rewrite Er.
    destruct (isspace a) eqn:E; simpl; [reflexivity |].
    rewrite E. reflexivity.
  - rewrite (rstrip_cons_nonempty a b r r' Er).
    apply rstrip_cons_nonempty. exact IH.
Qed.

Lemma strip_head (s : string) :
  match strip s with
  | EmptyString => True
  | String a _ => isspace a = false
  end.
Proof.
  unfold strip. pose proof (lstrip_head s) as H.
  destruct (lstrip s) as [|a r]; [exact I |].
  rewrite (rstrip_cons a r H). exact H.
Qed.

Lemma strip_idem (s : string) : strip (strip s) = strip s.
Proof.
  pose proof (strip_head s) as H. unfold strip at 1.
  destruct (strip s) as [|a r] eqn:E; [reflexivity |].
  simpl lstrip. rewrite H.
  rewrite <- E. unfold strip. apply rstrip_idem.
Qed.

Lemma resolve_line_label_free (pure : list string) (m : gmap string nat)
    (line : string) :
  contains ":" line = false ->
  resolve_line (pure, m) line = Ret ((pure ++ [strip line])%list, m).
Proof. unfold resolve_line. intros ->. reflexivity. Qed.

Lemma resolve_from_label_free (pure : list string) (m : gmap string nat)
    (program : list string) :
  label_free program ->
  resolve_from (pure, m) program = Ret ((pure ++ (strip <$> program))%list, m).
Proof.
  unfold label_free. revert pure.
  induction program as [|line rest IH]; intros pure H; cbn [resolve_from].
  - simpl. rewrite app_nil_r. reflexivity.
  - apply Forall_cons in H as [Hl Hr].
    rewrite (resolve_line_label_free pure m line Hl), bind_Ret_l.
    rewrite (IH _ Hr), <- app_assoc. reflexivity.
Qed.

(** X1: on a program without labels, [resolve_labels] returns the lines,
    each stripped of surrounding blanks, in order, and an empty label
    map. *)
Theorem resolve_labels_label_free (program : list string) :
  label_free program ->
  resolve_labels program = Ret (strip <$> program, ∅).
Proof. intros H. apply (resolve_from_label_free [] ∅ program H). Qed.

Lemma resolve_labels_label_free_reference :
  label_free reference_program /\
  resolve_labels reference_program = Ret (strip <$> reference_program, ∅).
Proof.
  assert (label_free reference_program) as H by (repeat constructor).
  split; [exact H | apply (resolve_labels_label_free reference_program H)].
Defined.

(** What one turn of the loop does to the pair. *)
Lemma resolve_line_cases (pure : list string) (m : gmap string nat)
    (line : string) :
  (label_of line = None /\
   resolve_line (pure, m) line = Ret ((pure ++ [strip line])%list, m)) \/
  (exists label rest,
      contains ":" line = true /\ split_once ":" line = [label; rest] /\
      label_of line = Some (strip label) /\
      resolve_line (pure, m) line =
      Ret (if truthy (strip rest) then (pure ++ [strip rest])%list else pure,
           <[strip label := length pure]> m)).
Proof.
  unfold resolve_line, label_of.
  destruct (contains ":" line) eqn:Hc; [right | left; auto].
  destruct (split_once_two _ _ Hc) as (label & rest & E).
  exists label, rest. rewrite E. simpl.
  repeat split. destruct (truthy (strip rest)); reflexivity.
Qed.

Lemma resolve_from_app (acc : list string * gmap string nat)
    (p1 p2 : list string) :
  resolve_from acc (p1 ++ p2) =
  resolve_from acc p1 ≫= fun acc' => resolve_from acc' p2.
Proof.
  revert acc. induction p1 as [|line p1 IH]; intros acc; simpl;
    [reflexivity |].
  destruct (resolve_line acc line) as [acc'|e]; simpl; [apply IH | reflexivity].
Qed.

Lemma resolve_from_bounds (program : list string) (pure0 : list string)
    (m0 : gmap string nat) :
  (forall label k, m0 !! label = Some k -> (k <= length pure0)%nat) ->
  exists pure m,
    resolve_from (pure0, m0) program = Ret (pure, m) /\
    (length pure0 <= length pure <= length pure0 + length program)%nat /\
    (forall label k, m !! label = Some k -> (k <= length pure)%nat).
Proof.
  revert pure0 m0. induction program as [|line rest IH]; intros pure0 m0 H0.
  - exists pure0, m0. simpl. repeat split; auto; lia.
  - cbn [resolve_from].
    destruct (resolve_line_cases pure0 m0 line)
      as [(_ & ->) | (label & tl & _ & _ & _ & ->)]; rewrite bind_Ret_l.
    + destruct (IH (pure0 ++ [strip line])%list m0) as (pure & m & -> & Hl & Hm).
      { intros label k Hk. rewrite length_app. simpl.
        specialize (H0 _ _ Hk). lia. }
      exists pure, m. rewrite length_app in Hl. simpl in Hl. simpl.
      repeat split; auto; lia.
    + set (pure1 := if truthy (strip tl) then _ else _).
      assert (length pure0 <= length pure1 <= S (length pure0))%nat as Hl1.
      { subst pure1. destruct (truthy (strip tl));
          rewrite ?length_app; simpl; lia. }
      destruct (IH pure1 (<[strip label := length pure0]> m0))
        as (pure & m & -> & Hl & Hm).
      { intros l k. rewrite lookup_insert. case_decide.
        - intros [= <-]. lia.
        - intros Hk. specialize (H0 _ _ Hk). lia. }
      exists pure, m. simpl. repeat split; auto; lia.
Qed.

(** X2: [resolve_labels] never raises; it returns at most as many
    instructions as it was given lines, and every label it records maps
    to an index that is at most the number of instructions returned (one
    past the last instruction for a label that ends the program). *)
Theorem resolve_labels_bounds (program : list string) :
  exists pure label_map,
    resolve_labels program = Ret (pure, label_map) /\
    (length pure <= length program)%nat /\
    (forall label k, label_map !! label = Some k -> (k <= length pure)%nat).
Proof.
  destruct (resolve_from_bounds program [] ∅) as (pure & m & E & Hl & Hm).
  - intros label k. rewrite lookup_empty. discriminate.
  - exists pure, m. simpl in Hl. repeat split; auto; lia.
Qed.

Lemma resolve_labels_bounds_labelled :
  exists pure label_map,
    resolve_labels labelled_file = Ret (pure, label_map) /\
    (length pure <= length labelled_file)%nat /\
    (forall label k, label_map !! label = Some k -> (k <= length pure)%nat).
Proof. apply (resolve_labels_bounds labelled_file). Defined.

Lemma resolve_from_keeps_label (program : list string) (pure0 : list string)
    (m0 : gmap string nat) (L : string) :
  Forall (fun line => label_of line <> Some L) program ->
  forall pure m,
    resolve_from (pure0, m0) program = Ret (pure, m) -> m !! L = m0 !! L.
Proof.
  revert pure0 m0. induction program as [|line rest IH];
    intros pure0 m0 H pure m E; cbn [resolve_from] in E.
  - injection E as <- <-. reflexivity.
  - apply Forall_cons in H as [Hl Hr].
    destruct (resolve_line_cases pure0 m0 line)
      as [(_ & E1) | (label & tl & _ & _ & Hlab & E1)];
      rewrite E1, bind_Ret_l in E.
    + apply (IH _ _ Hr _ _ E).
    + rewrite (IH _ _ Hr _ _ E). apply lookup_insert_ne.
      intros <-. apply Hl, Hlab.
Qed.

(** X3: a label maps to the position of the instruction that follows it:
    if a line defines label [L] and no later line defines [L] again, the
    index recorded for [L] is the number of instructions that
    [resolve_labels] returns for the lines before it.  (Of several
    definitions of one label the last counts.) *)
Theorem resolve_labels_label_index (before after : list string)
    (line L : string) (pure1 pure : list string) (m1 m : gmap string nat) :
  label_of line = Some L ->
  Forall (fun l => label_of l <> Some L) after ->
  resolve_labels before = Ret (pure1, m1) ->
  resolve_labels (before ++ line :: after) = Ret (pure, m) ->
  m !! L = Some (length pure1).
Proof.
  unfold resolve_labels. intros HL Hafter E1 E.
  rewrite resolve_from_app, E1, bind_Ret_l in E. cbn [resolve_from] in E.
  destruct (resolve_line_cases pure1 m1 line)
    as [(Hn & _) | (label & tl & _ & _ & Hlab & E2)]; [congruence |].
  rewrite E2, bind_Ret_l in E.
  rewrite (resolve_from_keeps_label _ _ _ L Hafter _ _ E).
  assert (strip label = L) as -> by congruence.
  apply lookup_insert_eq.
Qed.

Lemma resolve_labels_label_index_loop :
  exists pure m,
    resolve_labels labelled_file = Ret (pure, m) /\
    m !! "loop" = Some 2%nat.
Proof.
  destruct (resolve_from_bounds labelled_file [] ∅) as (pure & m & E & _);
    [intros label k; rewrite lookup_empty; discriminate |].
  exists pure, m. split; [exact E |].
  apply (resolve_labels_label_index
           [ "start: addi $1, $0, 5"; "  " ]
           [ "  add $2, $1, $1  "; "end:" ] "loop:" "loop"
           [ "addi $1, $0, 5"; EmptyString ] pure
           {[ "start" := 0%nat ]} m).
  - reflexivity.
  - repeat constructor; discriminate.
  - vm_compute. reflexivity.
  - exact E.
Defined.

Lemma strip_clean (s : string) : truthy (strip s) = true -> clean (strip s).
Proof. intros H. split; [exact H | apply strip_idem]. Qed.

Lemma resolve_from_clean (program : list string) (pure0 pure : list string)
    (m0 m : gmap string nat) :
  Forall clean pure0 ->
  Forall (fun line => truthy (strip line) = true) program ->
  resolve_from (pure0, m0) program = Ret (pure, m) ->
  Forall clean pure.
Proof.
  revert pure0 m0. induction program as [|line rest IH];
    intros pure0 m0 H0 Hp E; cbn [resolve_from] in E.
  - injection E as <- <-. exact H0.
  - apply Forall_cons in Hp as [Hl Hr].
    destruct (resolve_line_cases pure0 m0 line)
      as [(_ & E1) | (label & tl & _ & _ & _ & E1)];
      rewrite E1, bind_Ret_l in E; apply (IH _ _) in E; auto.
    + apply Forall_app. split; [exact H0 |].
      constructor; [apply strip_clean, Hl | constructor].
    + destruct (truthy (strip tl)) eqn:Ht; [| exact H0].
      apply Forall_app. split; [exact H0 |].
      constructor; [apply strip_clean, Ht | constructor].
Qed.

Lemma file_lines (file : list string) :
  Forall (fun line => truthy (strip line) = true)
    (omap (fun l => if truthy (strip l) then Some (strip l) else None) file) /\
  (length (omap (fun l => if truthy (strip l) then Some (strip l) else None)
                file) <= length file)%nat.
Proof.
  induction file as [|l file [IH1 IH2]]; [split; [constructor | reflexivity] |].
  cbn [omap list_omap]. fold (@omap list _ string string).
  destruct (truthy (strip l)) eqn:E; cbn [length].
  - split; [| lia]. constructor; [| exact IH1].
    rewrite strip_idem. exact E.
  - split; [exact IH1 | lia].
Qed.

Lemma load_program_lines_clean (file code : list string) :
  load_program file = Ret code -> Forall clean code.
Proof.
  unfold load_program. intros H.
  destruct (file_lines file) as [Hlines _].
  set (lines := omap _ file) in *.
  apply bind_Ret in H as ([pure m] & E & H). injection H as <-.
  eapply (resolve_from_clean lines [] pure ∅ m);
    [constructor | exact Hlines | exact E].
Qed.

(** X4: [load_program] never raises, whatever the lines of the file;
    every instruction it returns is non-empty text without blanks at
    either end, and it returns at most as many instructions as the file
    has lines. *)
Theorem load_program_clean (file : list string) :
  exists code,
    load_program file = Ret code /\
    Forall clean code /\ (length code <= length file)%nat.
Proof.
  unfold load_program.
  destruct (file_lines file) as [Hlines Hlen].
  set (lines := omap _ file) in *.
  destruct (resolve_from_bounds lines [] ∅) as (pure & m & E & Hl & _);
    [intros label k; rewrite lookup_empty; discriminate |].
  fold (resolve_labels lines) in E. simpl in Hl.
  rewrite E. exists pure. split; [reflexivity |]. split; [| lia].
  eapply (resolve_from_clean lines [] pure ∅ m); [constructor | exact Hlines |].
  exact E.
Qed.

Lemma load_program_clean_labelled :
  exists code,
    load_program labelled_file = Ret code /\
    Forall clean code /\ (length code <= length labelled_file)%nat.
Proof. apply (load_program_clean labelled_file). Defined.

(** ** Text in flight *)

Lemma pipeline_step_fetched_from_program (s s' : state) :
  pipeline_step s = Ret s' ->
  fetched_from_program s ->
  fetched_from_program s' /\ instruction_memory s' = instruction_memory s.
Proof.
  unfold fetched_from_program. intros H Hs.
  apply pipeline_step_stages in H
    as (s1 & s2 & s3 & s4 & stalled & H1 & H2 & H3 & H4 & H).
  assert (IF_ID (pipeline s4) = IF_ID (pipeline s) /\
          instruction_memory s4 = instruction_memory s) as (Eif & Ei).
  { stage_facts. simpl in *. split; congruence. }
  destruct stalled.
  - subst s'. simpl. rewrite Eif, Ei. auto.
  - destruct H as (f & s5 & H5 & ->). simpl.
    pose proof (fetch_keeps _ _ _ H5) as (_ & _ & Ei5 & _).
    split; [| congruence].
    intros t Ht. apply (fetch_text _ _ _ _ H5) in Ht. congruence.
Qed.

Lemma run_cycles_fetched_from_program (n : nat) (s s' : state) :
  run_cycles n s = Ret s' ->
  fetched_from_program s ->
  fetched_from_program s' /\ instruction_memory s' = instruction_memory s.
Proof.
  revert s. induction n as [|n IH]; simpl; intros s H Hs.
  - inv_exc. auto.
  - apply bind_Ret in H as (s1 & H1 & H).
    destruct (pipeline_step_fetched_from_program _ _ H1 Hs) as [Hs1 E1].
    destruct (IH _ H Hs1) as [Hs' E']. split; [exact Hs' | congruence].
Qed.

(** X5: along a run of a loaded file, the text in the IF/ID latch is
    always one of the loaded instructions, hence never the empty string
    that Decode would take for an empty latch: what Fetch puts in IF/ID,
    Decode decodes. *)
Theorem run_file_decodes_what_it_fetches (file : list string) (n : nat)
    (s : state) :
  run_file file n = Ret s ->
  (forall t, IF_ID (pipeline s) = Some t ->
             t ∈ instruction_memory s /\ clean t) /\
  text_of (IF_ID (pipeline s)) = IF_ID (pipeline s).
Proof.
  unfold run_file. intros H.
  destruct (load_program file) as [code|e] eqn:E; [| discriminate H].
  pose proof (load_program_lines_clean _ _ E) as Hclean.
  rewrite bind_Ret_l in H. unfold run in H.
  apply run_cycles_fetched_from_program in H as [Hs Ei].
  - assert (forall t, IF_ID (pipeline s) = Some t ->
                      t ∈ instruction_memory s /\ clean t) as Ht.
    { intros t Ht. split; [apply Hs, Ht |].
      apply Hs in Ht. rewrite Ei in Ht. simpl in Ht.
      rewrite Forall_forall in Hclean. apply Hclean, Ht. }
    split; [exact Ht |].
    destruct (IF_ID (pipeline s)) as [t|]; [| reflexivity].
    destruct (Ht t eq_refl) as [_ [Htruthy _]].
    destruct t; [discriminate Htruthy | reflexivity].
  - intros t Ht. discriminate Ht.
Qed.

Lemma run_file_decodes_what_it_fetches_labelled :
  exists s, run_file labelled_file 2 = Ret s /\
    (forall t, IF_ID (pipeline s) = Some t ->
               t ∈ instruction_memory s /\ clean t) /\
    text_of (IF_ID (pipeline s)) = IF_ID (pipeline s).
Proof.
  destruct (run_file labelled_file 2) as [s|e] eqn:E.
  - exists s. split; [reflexivity |].
    apply (run_file_decodes_what_it_fetches labelled_file 2 s E).
  - exfalso. vm_compute in E. discriminate E.
Defined.

(** ** What a cycle changes *)

Lemma write_back_registers (s s' : state) :
  write_back s = Ret s' -> registers_step s s'.
Proof.
  unfold write_back, registers_step, deref. intros H.
  destruct (MEM_WB (pipeline s)) as [r|]; simpl in H; [| inv_exc; auto].
  destruct (String.eqb_spec (opcode (heap s r)) "nop") as [|Hop];
    simpl in H; [inv_exc; auto |].
  destruct (rd (heap s r)) as [d|] eqn:Hrd; [| inv_exc; auto].
  apply bind_Ret in H as (s1 & H1 & H).
  apply bind_Ret in H1 as (v & Hv & H1).
  apply bind_Ret in H1 as (regs & Hregs & H1).
  unfold setitem in Hregs. apply bind_Ret in Hregs as (k & Hk & Hregs).
  destruct (result (heap s r)) as [v'|] eqn:Hres; [| discriminate Hv].
  simpl in Hv. inv_exc. right. exists r, d, v, k. simpl. auto 10.
Qed.

Lemma memory_access_data (s s' : state) :
  memory_access s = Ret s' -> data_memory_step s s'.
Proof.
  unfold memory_access, data_memory_step. intros H.
  destruct (EX_MEM (pipeline s)) as [r|]; [| inv_exc; auto].
  apply bind_Ret in H as (s1 & H1 & H). inv_exc. simpl.
  destruct (String.eqb_spec (opcode (heap s r)) "lw"); [inv_exc; auto |].
  destruct (String.eqb_spec (opcode (heap s r)) "sw") as [Hop|];
    [| inv_exc; auto].
  apply bind_Ret in H1 as (v & Hv & H1).
  apply bind_Ret in H1 as (a & Ha & H1).
  apply bind_Ret in H1 as (dm & Hdm & H1).
  unfold setitem in Hdm. apply bind_Ret in Hdm as (k & Hk & Hdm).
  destruct (val (heap s r)) as [v'|] eqn:Hval; [| discriminate Hv].
  destruct (addr (heap s r)) as [a'|] eqn:Haddr; [| discriminate Ha].
  simpl in Hv, Ha. inv_exc. right. exists r, a, v, k. simpl. auto 10.
Qed.

Lemma pipeline_step_registers_memory (s s' : state) :
  pipeline_step s = Ret s' ->
  registers_step s s' /\ data_memory_step s s' /\
  instruction_memory s' = instruction_memory s.
Proof.
  intros H.
  apply pipeline_step_stages in H
    as (s1 & s2 & s3 & s4 & stalled & H1 & H2 & H3 & H4 & H).
  pose proof (write_back_registers _ _ H1) as Hr.
  pose proof (memory_access_data _ _ H2) as Hm.
  assert (registers s' = registers s1 /\ data_memory s' = data_memory s2 /\
          instruction_memory s' = instruction_memory s) as (Er & Em & Ei).
  { destruct stalled; [| destruct H as (f & s5 & H5 & H)]; subst s';
      stage_facts; simpl in *; repeat split; congruence. }
  pose proof (write_back_keeps _ _ H1) as (Edm & _ & _ & _ & _ & Ep & Eh).
  split; [| split; [| exact Ei]].
  - unfold registers_step in *. rewrite Er. simpl in Hr. exact Hr.
  - unfold data_memory_step in *. rewrite Em.
    rewrite Ep, Eh, Edm in Hm. simpl in Hm. exact Hm.
Qed.

(** X6: a cycle changes at most one register and at most one memory
    word: the register file is left as it was or gets the [result] of the
    record in MEM/WB at the register its [rd] designates; data memory is
    left as it was or gets the [val] of the store in EX/MEM at word
    [addr // 4]; and the program is never changed. *)
Theorem pipeline_step_changes (s s' : state) :
  pipeline_step s = Ret s' ->
  registers_step s s' /\ data_memory_step s s' /\
  instruction_memory s' = instruction_memory s.
Proof. apply pipeline_step_registers_memory. Qed.

Lemma pipeline_step_changes_store :
  registers_step store_retires store_retired /\
  data_memory_step store_retires store_retired /\
  instruction_memory store_retired = instruction_memory store_retires.
Proof.
  apply (pipeline_step_changes store_retires store_retired).
  vm_compute. reflexivity.
Defined.

Lemma registers_step_length (s s' : state) :
  registers_step s s' -> length (registers s') = length (registers s).
Proof.
  intros [-> | (r & d & v & k & _ & _ & _ & _ & _ & ->)];
    [reflexivity | apply length_insert].
Qed.

Lemma data_memory_step_length (s s' : state) :
  data_memory_step s s' -> length (data_memory s') = length (data_memory s).
Proof.
  intros [-> | (r & a & v & k & _ & _ & _ & _ & _ & ->)];
    [reflexivity | apply length_insert].
Qed.

Lemma run_cycles_sizes (n : nat) (s s' : state) :
  run_cycles n s = Ret s' ->
  length (registers s') = length (registers s) /\
  length (data_memory s') = length (data_memory s) /\
  instruction_memory s' = instruction_memory s.
Proof.
  revert s. induction n as [|n IH]; simpl; intros s H.
  - inv_exc. auto.
  - apply bind_Ret in H as (s1 & H1 & H).
    apply pipeline_step_registers_memory in H1 as (Hr & Hm & Ei).
    apply registers_step_length in Hr. apply data_memory_step_length in Hm.
    destruct (IH _ H) as (Er' & Em' & Ei'). repeat split; congruence.
Qed.

(** X7: at every point of every run there are 32 registers and 1024
    memory words, and the program in [instruction_memory] is the one the
    run was given. *)
Theorem run_sizes (program : list string) (n : nat) (s : state) :
  run program n = Ret s ->
  length (registers s) = NUM_REGS /\
  length (data_memory s) = MEMORY_SIZE /\
  instruction_memory s = program.
Proof.
  unfold run. intros H.
  apply run_cycles_sizes in H as (Er & Em & Ei).
  cbn [registers data_memory instruction_memory with_instruction_memory reset]
    in Er, Em, Ei.
  rewrite length_replicate in Er, Em. auto.
Qed.

Lemma run_sizes_reference :
  exists s, run reference_program 9 = Ret s /\
            length (registers s) = NUM_REGS /\
            length (data_memory s) = MEMORY_SIZE /\
            instruction_memory s = reference_program.
Proof.
  destruct (run reference_program 9) as [s|e] eqn:E.
  - exists s. split; [reflexivity |].
    apply (run_sizes reference_program 9 s E).
  - exfalso. vm_compute in E. discriminate E.
Defined.

(** ** The log *)

Lemma logged_shows (stalled : bool) (fetched : option string)
    (s : state) :
  exists e : log_entry,
    log_lines (logged stalled fetched s)
    = (log_lines s ++ [e])%list /\
    log_stall e = stalled /\ log_fetched e = fetched /\
    shows e (logged stalled fetched s).
Proof.
  unfold logged. eexists. simpl. split; [reflexivity |].
  unfold shows, deref. simpl. auto 10.
Qed.

Lemma pipeline_step_log_entry (s s' : state) :
  pipeline_step s = Ret s' ->
  cycle s' = S (cycle s) /\
  exists e : log_entry,
    log_lines s' = (log_lines s ++ [e])%list /\ shows e s'.
Proof.
  intros H.
  apply pipeline_step_stages in H
    as (s1 & s2 & s3 & s4 & stalled & H1 & H2 & H3 & H4 & H).
  destruct stalled; [| destruct H as (f & s5 & H5 & H)]; subst s'.
  - destruct (logged_shows true None s4) as (e & El & _ & _ & Hs).
    stage_facts. simpl in *. split; [congruence |].
    exists e. split; [| exact Hs]. rewrite El. congruence.
  - destruct (logged_shows false f s5) as (e & El & _ & _ & Hs).
    stage_facts. simpl in *. split; [congruence |].
    exists e. split; [| exact Hs]. rewrite El. congruence.
Qed.

(** X8: every cycle, stalled or not, adds 1 to the cycle counter and
    exactly one entry to the log, and that entry shows the machine as the
    cycle leaves it: the new cycle number, the four latches, registers 0
    to 7 and the retired count. *)
Theorem pipeline_step_logs (s s' : state) :
  pipeline_step s = Ret s' ->
  cycle s' = S (cycle s) /\
  exists e : log_entry,
    log_lines s' = (log_lines s ++ [e])%list /\ shows e s'.
Proof. apply pipeline_step_log_entry. Qed.

Lemma pipeline_step_logs_store :
  cycle store_retired = S (cycle store_retires) /\
  exists e : log_entry,
    log_lines store_retired = (log_lines store_retires ++ [e])%list /\
    shows e store_retired.
Proof.
  apply (pipeline_step_logs store_retires store_retired).
  vm_compute. reflexivity.
Defined.

Lemma pipeline_step_numbered (s s' : state) :
  pipeline_step s = Ret s' -> numbered s -> numbered s'.
Proof.
  unfold numbered. intros H [Hlen Hnum].
  apply pipeline_step_log_entry in H as (Ec & e & El & He & _).
  rewrite El, length_app, Ec, Hlen. simpl. split; [lia |].
  intros k e' Hk.
  destruct (Nat.lt_ge_cases k (length (log_lines s))) as [Hlt|Hge].
  - rewrite lookup_app_l in Hk by exact Hlt. apply Hnum, Hk.
  - rewrite lookup_app_r in Hk by exact Hge.
    destruct (k - length (log_lines s))%nat as [|j] eqn:Ek;
      simpl in Hk; [| discriminate Hk].
    injection Hk as <-. rewrite He, Ec. lia.
Qed.

Lemma run_cycles_numbered (n : nat) (s s' : state) :
  run_cycles n s = Ret s' -> numbered s ->
  numbered s' /\ cycle s' = (cycle s + n)%nat.
Proof.
  revert s. induction n as [|n IH]; simpl; intros s H Hs.
  - inv_exc. split; [exact Hs | lia].
  - apply bind_Ret in H as (s1 & H1 & H).
    pose proof (pipeline_step_numbered _ _ H1 Hs) as Hs1.
    apply pipeline_step_log_entry in H1 as (Ec & _).
    destruct (IH _ H Hs1) as [Hs' Ec']. split; [exact Hs' | lia].
Qed.

(** X9: after a run of [n] cycles that returned, the cycle counter is
    [n], the log has [n] entries, and the entry at position [k] (from 0)
    carries cycle number [k + 1]. *)
Theorem run_log_numbered (program : list string) (n : nat) (s : state) :
  run program n = Ret s ->
  cycle s = n /\ length (log_lines s) = n /\
  forall k e, log_lines s !! k = Some e -> log_cycle e = S k.
Proof.
  unfold run. intros H.
  apply run_cycles_numbered in H as [[Hlen Hnum] Ec].
  - simpl in Ec. subst n. auto.
  - split; [reflexivity |]. intros k e Hk. discriminate Hk.
Qed.

Lemma run_log_numbered_reference :
  exists s, run reference_program 9 = Ret s /\
    cycle s = 9%nat /\ length (log_lines s) = 9%nat /\
    forall k e, log_lines s !! k = Some e -> log_cycle e = S k.
Proof.
  destruct (run reference_program 9) as [s|e] eqn:E.
  - exists s. split; [reflexivity |].
    apply (run_log_numbered reference_program 9 s E).
  - exfalso. vm_compute in E. discriminate E.
Defined.

(** ** Fetching *)

Lemma pipeline_step_fetched_in_order (s s' : state) :
  pipeline_step s = Ret s' -> fetched_in_order s -> fetched_in_order s'.
Proof.
  unfold fetched_in_order. intros H Hs.
  apply pipeline_step_stages in H
    as (s1 & s2 & s3 & s4 & stalled & H1 & H2 & H3 & H4 & H).
  assert (log_lines s4 = log_lines s /\ pc s4 = pc s /\
          instruction_memory s4 = instruction_memory s) as (El & Ep & Ei).
  { stage_facts. simpl in *. repeat split; congruence. }
  destruct stalled.
  - subst s'. simpl. rewrite omap_app. simpl.
    rewrite app_nil_r, El, Ep, Ei. exact Hs.
  - destruct H as (f & s5 & H5 & ->). simpl. rewrite omap_app. simpl.
    pose proof (fetch_keeps _ _ _ H5) as (_ & _ & Ei5 & _ & _ & El5 & _).
    apply fetch_shape in H5
      as [(-> & Hlen & ->) | (text & -> & Htext & ->)]; simpl in *.
    + rewrite app_nil_r, El, Ep, Ei. exact Hs.
    + rewrite El, Ei, Ep, Hs. rewrite Ei, Ep in Htext.
      symmetry. apply take_S_r, Htext.
Qed.

Lemma run_cycles_fetched_in_order (n : nat) (s s' : state) :
  run_cycles n s = Ret s' -> fetched_in_order s -> fetched_in_order s'.
Proof.
  revert s. induction n as [|n IH]; simpl; intros s H Hs.
  - inv_exc. exact Hs.
  - apply bind_Ret in H as (s1 & H1 & H).
    apply (IH _ H). apply (pipeline_step_fetched_in_order _ _ H1 Hs).
Qed.

(** X10: the program is fetched strictly in sequence, each instruction
    once: at any point of a run, the texts that the logged cycles fetched
    are, in order, the first [pc] lines of the program. *)
Theorem run_fetches_in_order (program : list string) (n : nat) (s : state) :
  run program n = Ret s ->
  omap log_fetched (log_lines s) = take (pc s) program.
Proof.
  unfold run. intros H.
  pose proof (run_cycles_sizes _ _ _ H) as (_ & _ & Ei).
  apply run_cycles_fetched_in_order in H.
  - unfold fetched_in_order in H. rewrite Ei in H. exact H.
  - reflexivity.
Qed.

Lemma run_fetches_in_order_load_use :
  omap log_fetched (log_lines after_stall) =
  take (pc after_stall) load_use_program.
Proof.
  apply (run_fetches_in_order load_use_program 5 after_stall).
  vm_compute. reflexivity.
Defined.

(** ** The digit limit *)

Lemma longer_than_lt (k : nat) (z : Z) :
  0 <= z -> (longer_than (S k) z = false <-> z < 10 ^ Z.of_nat (S k)).
Proof.
  revert z. induction k as [|k IH]; intros z Hz.
  - cbn [longer_than]. change (10 ^ Z.of_nat 1) with 10.
    destruct (Z.ltb_spec z 10); split; intros H'; try reflexivity;
      try discriminate; lia.
  - cbn [longer_than] in *.
    replace (10 ^ Z.of_nat (S (S k))) with (10 * 10 ^ Z.of_nat (S k))
      by (rewrite (Nat2Z.inj_succ (S k)), Z.pow_succ_r by lia; reflexivity).
    assert (0 < 10 ^ Z.of_nat (S k)) by (apply Z.pow_pos_nonneg; lia).
    destruct (Z.ltb_spec z 10) as [Hlt|Hge].
    + split; [lia | reflexivity].
    + specialize (IH (z / 10)).
      assert (0 <= z / 10) as H0 by (apply Z.div_pos; lia).
      rewrite (IH H0). split; intros H'.
      * pose proof (Z.mul_div_le z 10). pose proof (Z.mod_pos_bound z 10).
        pose proof (Z.div_mod z 10). lia.
      * apply Z.div_lt_upper_bound; lia.
Qed.

Lemma printable_lt (z : Z) :
  printable z = true <-> Z.abs z < 10 ^ Z.of_nat MAX_STR_DIGITS.
Proof.
  unfold printable. rewrite negb_true_iff.
  change MAX_STR_DIGITS with (S 4299).
  apply longer_than_lt, Z.abs_nonneg.
Qed.

Lemma digit_value_range (a : ascii) :
  is_digit a = true -> 0 <= digit_value a <= 9.
Proof.
  unfold is_digit, digit_value. intros H.
  apply andb_true_iff in H as [H1 H2].
  apply Nat.leb_le in H1, H2. lia.
Qed.

Lemma digits_bound (s : string) (acc : Z) (b : bool) (z : Z) :
  0 <= acc -> digits acc b s = Some z ->
  acc * 10 ^ Z.of_nat (count_digits s) <= z
  < (acc + 1) * 10 ^ Z.of_nat (count_digits s).
Proof.
  revert acc b. induction s as [|a r IH]; intros acc b Hacc H.
  - cbn [digits] in H. destruct b; [| discriminate H].
    injection H as <-. cbn [count_digits]. change (10 ^ Z.of_nat 0) with 1.
    lia.
  - cbn [digits count_digits] in *.
    destruct (is_digit a) eqn:Hd.
    + pose proof (digit_value_range a Hd) as Hv.
      apply IH in H; [| lia].
      rewrite Nat2Z.inj_add, Z.pow_add_r by lia.
      change (10 ^ Z.of_nat 1) with 10.
      assert (0 < 10 ^ Z.of_nat (count_digits r))
        by (apply Z.pow_pos_nonneg; lia).
      nia.
    + destruct (Ascii.eqb a "_" && b); [| discriminate H].
      apply IH in H; [| exact Hacc]. exact H.
Qed.

(** The three shapes of the body of a literal. *)
Lemma int_body_cases (body : string) :
  exists r (sign : Z -> Z),
    match body with
    | String "+" r => digits 0 false r
    | String "-" r => Z.opp <$> digits 0 false r
    | _ => digits 0 false body
    end = sign <$> digits 0 false r /\
    count_digits r = count_digits body /\
    (forall z, Z.abs (sign z) = Z.abs z).
Proof.
  destruct body as [|a r].
  { exists EmptyString, id. repeat split. }
  destruct (Ascii.eqb_spec a "+") as [-> |Np].
  { exists r, id. repeat split. cbn [fmap option_fmap option_map].
    destruct (digits 0 false r); reflexivity. }
  destruct (Ascii.eqb_spec a "-") as [-> |Nm].
  { exists r, Z.opp. repeat split. intros z. apply Z.abs_opp. }
  exists (String a r), id. split; [| split; [reflexivity | reflexivity]].
  assert (digits 0 false (String a r) = id <$> digits 0 false (String a r))
    as Hid by (destruct (digits 0 false (String a r)); reflexivity).
  destruct a as [[] [] [] [] [] [] [] []];
    first [exact Hid | contradiction Np; reflexivity
          | contradiction Nm; reflexivity].
Qed.

(** What [int] returns is printable: a literal of [n] digits denotes a
    number below [10 ^ n]. *)
Lemma int_printable (s : string) (z : Z) :
  int s = Ret z -> printable z = true.
Proof.
  unfold int. set (body := rstrip (lstrip s)).
  destruct (int_body_cases body) as (r & sign & -> & Hc & Hs).
  destruct (digits 0 false r) as [z0|] eqn:Hd; [| discriminate].
  cbn [fmap option_fmap option_map].
  destruct (Nat.ltb_spec MAX_STR_DIGITS (count_digits body)) as [|Hle];
    [discriminate |].
  intros [= <-]. apply printable_lt. rewrite Hs.
  apply digits_bound in Hd; [| lia]. rewrite Hc in Hd.
  assert (10 ^ Z.of_nat (count_digits body) <= 10 ^ Z.of_nat MAX_STR_DIGITS)
    by (apply Z.pow_le_mono_r; lia).
  lia.
Qed.

Lemma limit_not_printable :
  printable (10 ^ Z.of_nat MAX_STR_DIGITS) = false.
Proof.
  destruct (printable _) eqn:E; [| reflexivity].
  apply printable_lt in E.
  assert (0 < 10 ^ Z.of_nat MAX_STR_DIGITS) by (apply Z.pow_pos_nonneg; lia).
  lia.
Qed.

(** ** Stalls *)

Lemma hazard_detected_load (s : state) :
  hazard_detected s ->
  exists r, ID_EX (pipeline s) = Some r /\ opcode (heap s r) = "lw".
Proof.
  unfold hazard_detected, detect_load_use_hazard, deref.
  intros (line & d & _ & _ & H).
  destruct (ID_EX (pipeline s)) as [r|]; simpl in H; [| discriminate H].
  destruct (String.eqb_spec (opcode (heap s r)) "lw") as [E|];
    [| discriminate H].
  exists r. auto.
Qed.

Lemma decode_empty_ID_EX (s : state) (line : string) (d : decoded) :
  ID_EX (pipeline s) = None ->
  text_of (IF_ID (pipeline s)) = Some line ->
  parse_instruction line = Ret d ->
  exists r s', decode s = Ret (false, s') /\
               ID_EX (pipeline s') = Some r /\ heap s' r = contents s d.
Proof.
  unfold decode. intros Hid -> ->. rewrite bind_Ret_l.
  destruct (object_of d s) as [r s1] eqn:Hobj.
  apply object_of_contents in Hobj as (Hc & Hp & _).
  rewrite Hp, Hid. simpl.
  exists r, (set_ID_EX (Some r) s1). simpl. auto.
Qed.

Lemma pipeline_step_after_stall (s : state) :
  ID_EX (pipeline s) = None -> EX_MEM (pipeline s) = None ->
  MEM_WB (pipeline s) = None ->
  pipeline_step s =
  ('(stalled, s4) ← decode (set_EX_MEM None (set_MEM_WB None
                              (with_cycle (S (cycle s)) s)));
   if stalled : bool then log_pipeline_state true None s4
   else '(fetched, s5) ← fetch s4;
        log_pipeline_state false fetched s5).
Proof.
  intros Hid Hex Hwb.
  unfold pipeline_step.
  unfold write_back, deref. simpl. rewrite Hwb. simpl.
  unfold memory_access. simpl. rewrite Hex. simpl.
  unfold execute. simpl. rewrite Hid. reflexivity.
Qed.

Lemma reg_operand_printable (tokens : list string) (k : nat) (z : Z) :
  reg_operand tokens k = Ret z -> printable z = true.
Proof.
  unfold reg_operand. intros H. apply bind_Ret in H as (t & _ & H).
  eapply int_printable, H.
Qed.

(** The integers of a record fresh from the decoder are printable. *)
Lemma parse_instruction_printable (line : string) (i : instr) :
  parse_instruction line = Ret (New_dict i) -> printable_instr i = true.
Proof.
  unfold parse_instruction.
  destruct (split (remove_char "," line)) as [|t0 ts]; [discriminate |].
  set (tokens := t0 :: ts). clearbody tokens.
  destruct (in_tuple (lower t0) R_TYPE).
  { intros H.
    apply bind_Ret in H as (d & Hd & H). apply bind_Ret in H as (a & Ha & H).
    apply bind_Ret in H as (b & Hb & H). injection H as <-.
    unfold printable_instr. simpl.
    rewrite (reg_operand_printable _ _ _ Hd), (reg_operand_printable _ _ _ Ha),
      (reg_operand_printable _ _ _ Hb). reflexivity. }
  destruct (in_tuple (lower t0) I_TYPE).
  { intros H.
    apply bind_Ret in H as (b & Hb & H). apply bind_Ret in H as (a & Ha & H).
    apply bind_Ret in H as (v & Hv & H). injection H as <-.
    apply bind_Ret in Hv as (t & _ & Hv).
    unfold printable_instr. simpl.
    rewrite (reg_operand_printable _ _ _ Ha), (reg_operand_printable _ _ _ Hb),
      (int_printable _ _ Hv). reflexivity. }
  destruct (in_tuple (lower t0) MEM_TYPE); [| discriminate].
  intros H.
  apply bind_Ret in H as (b & Hb & H). apply bind_Ret in H as (t2 & _ & H).
  apply bind_Ret in H as ([offset base] & _ & H).
  apply bind_Ret in H as (a & Ha & H). apply bind_Ret in H as (v & Hv & H).
  injection H as <-.
  unfold printable_instr. simpl.
  rewrite (int_printable _ _ Ha), (reg_operand_printable _ _ _ Hb),
    (int_printable _ _ Hv). reflexivity.
Qed.

(** X11: a cycle stalls only if the ID/EX latch holds a load-word, and
    two cycles in a row never stall: after a stall no hazard is detected,
    and the next cycle puts the decoded text that was held in IF/ID into
    ID/EX and does not stall.  (The shared [NOP] dict is taken to be as
    the module defines it: were it given operand keys, a line decoded to
    it could stall, and its integers would be put into text by the next
    cycle's log, which raises on one of more than 4300 digits.) *)
Theorem stall_only_once (s s' : state) (e : log_entry) :
  heap s NOP_ref = NOP ->
  pipeline_step s = Ret s' ->
  last (log_lines s') = Some e -> log_stall e = true ->
  (exists r, ID_EX (pipeline s) = Some r /\ opcode (heap s r) = "lw") /\
  ~ hazard_detected s' /\
  exists line d,
    text_of (IF_ID (pipeline s')) = Some line /\
    text_of (IF_ID (pipeline s)) = Some line /\
    parse_instruction line = Ret d /\
    exists s'' r e',
      pipeline_step s' = Ret s'' /\
      last (log_lines s'') = Some e' /\ log_stall e' = false /\
      ID_EX (pipeline s'') = Some r /\ heap s'' r = contents s' d.
Proof.
  intros Hnop H He Hstall.
  pose proof (proj1 (pipeline_step_stall_iff _ _ _ H He) Hstall) as Hhaz.
  pose proof (pipeline_step_printable _ _ H) as Hp'.
  destruct (stall_cycle_frame _ _ _ H He Hstall)
    as (Hid & Hex & Hwb & Hif & _ & _).
  split; [apply hazard_detected_load, Hhaz |].
  assert (~ hazard_detected s') as Hno.
  { intros Hh. apply hazard_detected_load in Hh as (r & Hr & _). congruence. }
  split; [exact Hno |].
  destruct Hhaz as (line & d & Hline & Hd & Hdet).
  assert (exists i, d = New_dict i) as [i ->].
  { destruct d as [|i]; [| eauto]. exfalso.
    simpl in Hdet. rewrite Hnop in Hdet.
    unfold detect_load_use_hazard in Hdet.
    destruct (deref s (ID_EX (pipeline s))) as [ex|]; [| discriminate Hdet].
    destruct (String.eqb (opcode ex) "lw"); [| discriminate Hdet].
    destruct (rt ex); discriminate Hdet. }
  exists line, (New_dict i). rewrite Hif. repeat split; try assumption.
  rewrite (pipeline_step_after_stall s' Hid Hex Hwb).
  set (s0 := set_EX_MEM None _).
  destruct (decode_empty_ID_EX s0 line (New_dict i))
    as (r & s4 & Hdec & Hr & Hh);
    try (subst s0; simpl; congruence).
  rewrite Hdec. simpl.
  destruct (fetch_returns s4) as (f & s5 & H5). rewrite H5. simpl.
  pose proof (fetch_keeps _ _ _ H5)
    as (Er5 & _ & _ & _ & _ & _ & Eh & Eid & Eex5 & Ewb5).
  pose proof (decode_keeps _ _ _ Hdec)
    as (Er4 & _ & _ & _ & _ & _ & _ & _ & Eex4 & Ewb4).
  destruct (logged_shows false f s5) as (e' & El & Hs & _).
  exists (logged false f s5), r, e'.
  rewrite log_pipeline_state_printable.
  - split; [reflexivity |]. rewrite El, last_snoc.
    repeat split; try assumption; simpl.
    + congruence.
    + rewrite Eh, Hh. reflexivity.
  - unfold printable_state, printable_latch, deref.
    rewrite Eid, Hr, Eex5, Eex4, Ewb5, Ewb4, Er5, Er4, Eh.
    subst s0. cbn [fmap option_fmap option_map EX_MEM MEM_WB pipeline
                   set_EX_MEM set_MEM_WB with_pipeline with_cycle registers].
    rewrite Hh. cbn [contents].
    rewrite (parse_instruction_printable _ _ Hd).
    unfold printable_state in Hp'.
    apply andb_true_iff in Hp' as [_ Hregs]. rewrite Hregs. reflexivity.
Qed.

Lemma stall_only_once_load_use :
  (exists r, ID_EX (pipeline before_stall) = Some r /\
             opcode (heap before_stall r) = "lw") /\
  ~ hazard_detected after_stall.
Proof.
  destruct (last (log_lines after_stall)) as [e|] eqn:He.
  - destruct (stall_only_once before_stall after_stall e) as (H1 & H2 & _).
    + vm_compute. reflexivity.
    + vm_compute. reflexivity.
    + exact He.
    + assert (log_stall <$> last (log_lines after_stall) = Some true) as Hs
        by (vm_compute; reflexivity).
      rewrite He in Hs. injection Hs as Hs. exact Hs.
    + split; [exact H1 | exact H2].
  - exfalso.
    assert (is_Some (last (log_lines after_stall))) as [e He']
      by (vm_compute; eauto).
    congruence.
Defined.

(** The hypothesis of X11 on the [NOP] dict is needed.  With the [NOP]
    dict given a source register and an integer that is not printable, a
    line decoded to it stalls behind a load; the stalled cycle returns,
    its latches being empty when the log is written, and the next cycle
    raises ValueError in the log, with the [NOP] dict in ID/EX. *)
Lemma modified_nop_stalls_then_raises (z : Z) :
  printable z = false ->
  exists s' e,
    pipeline_step (stall_on_nop z) = Ret s' /\
    last (log_lines s') = Some e /\ log_stall e = true /\
    pipeline_step s' = Raise ValueError.
Proof.
  intros Hz.
  destruct (pipeline_step (stall_on_nop z)) as [s'|e0] eqn:E;
    [| exfalso; vm_compute in E; discriminate E].
  set (m := pipeline_step (stall_on_nop z)) in E.
  assert (pipeline s' = mkLatches (Some "foo") None None None) as Hp.
  { apply (observe pipeline m s'); [| exact E]. vm_compute. reflexivity. }
  assert (log_stall <$> last (log_lines s') = Some true) as Hl.
  { apply (observe (fun s => log_stall <$> last (log_lines s)) m s');
      [| exact E]. vm_compute. reflexivity. }
  assert (heap s' NOP_ref = marked_nop z) as Hh.
  { apply (observe (fun s => heap s NOP_ref) m s'); [| exact E].
    vm_compute. reflexivity. }
  destruct (last (log_lines s')) as [e|] eqn:He; [| discriminate Hl].
  injection Hl as Hl.
  exists s', e. split; [reflexivity |]. split; [exact He |].
  clear E m.
  split; [exact Hl |].
  rewrite pipeline_step_after_stall by (rewrite Hp; reflexivity).
  set (s0 := set_EX_MEM None _).
  destruct (decode_empty_ID_EX s0 "foo" The_NOP) as (r & s4 & Hdec & Hr & Hc).
  { subst s0. simpl. rewrite Hp. reflexivity. }
  { subst s0. simpl. rewrite Hp. reflexivity. }
  { reflexivity. }
  rewrite Hdec, bind_Ret_l.
  destruct (fetch_returns s4) as (f & s5 & H5). rewrite H5, bind_Ret_l.
  pose proof (fetch_keeps _ _ _ H5) as (_ & _ & _ & _ & _ & _ & Eh & Eid & _).
  unfold log_pipeline_state, printable_state, printable_latch, deref.
  rewrite Eid, Hr, Eh. cbn [fmap option_fmap option_map].
  rewrite Hc. subst s0. cbn [contents heap set_EX_MEM set_MEM_WB with_pipeline
                               with_cycle].
  rewrite Hh. unfold printable_instr, marked_nop. cbn [rd rs rt imm result addr val printable_field].
  rewrite Hz. rewrite !andb_false_r. reflexivity.
Qed.

Lemma modified_nop_stalls_then_raises_limit :
  exists s s' e,
    heap s NOP_ref <> NOP /\
    pipeline_step s = Ret s' /\
    last (log_lines s') = Some e /\ log_stall e = true /\
    pipeline_step s' = Raise ValueError.
Proof.
  destruct (modified_nop_stalls_then_raises _ limit_not_printable)
    as (s' & e & H).
  exists (stall_on_nop (10 ^ Z.of_nat MAX_STR_DIGITS)), s', e.
  split; [discriminate | exact H].
Qed.

(** ** Retired, in flight, fetched *)

Lemma decode_occupied (s s' : state) :
  decode s = Ret (false, s') ->
  (occupied (ID_EX (pipeline s')) <= occupied (IF_ID (pipeline s)))%nat.
Proof.
  unfold decode. intros H.
  destruct (IF_ID (pipeline s)) as [[|c line]|]; simpl in *;
    try (inv_exc; simpl; lia).
  apply bind_Ret in H as (d & _ & H).
  destruct (object_of d s) as [r s1].
  destruct (detect_load_use_hazard _ _); inv_exc; simpl; lia.
Qed.

Lemma write_back_occupied (s s' : state) :
  write_back s = Ret s' ->
  (instr_executed s' <= instr_executed s + occupied (MEM_WB (pipeline s)))%nat.
Proof.
  intros H. destruct (write_back_counter _ _ H) as [[(r & Hr & _) E] | [_ E]];
    rewrite E; [rewrite Hr; simpl |]; lia.
Qed.

Lemma pipeline_step_accounted (s s' : state) :
  pipeline_step s = Ret s' -> accounted s -> accounted s'.
Proof.
  unfold accounted, in_flight. intros H Hs.
  apply pipeline_step_stages in H
    as (s1 & s2 & s3 & s4 & stalled & H1 & H2 & H3 & H4 & H).
  pose proof (write_back_occupied _ _ H1) as Hwb.
  destruct stalled.
  - subst s'. stage_facts.
    match goal with K : _ /\ _ /\ _ |- _ => destruct K as (E1 & E2 & E3) end.
    simpl in *. rewrite E1, E2, E3. simpl.
    replace (IF_ID (pipeline s4)) with (IF_ID (pipeline s)) by congruence.
    replace (instr_executed s4) with (instr_executed s1) by congruence.
    replace (pc s4) with (pc s) by congruence.
    replace (pipeline s1) with (pipeline s) in * by congruence.
    lia.
  - destruct H as (f & s5 & H5 & ->).
    pose proof (decode_occupied _ _ H4) as Hdec.
    pose proof (fetch_shape _ _ _ H5) as Hf.
    stage_facts.
    match goal with K : _ /\ _ |- _ => destruct K as (E1 & E2) end.
    simpl in *.
    replace (ID_EX (pipeline s5)) with (ID_EX (pipeline s4)) by congruence.
    replace (EX_MEM (pipeline s5)) with (ID_EX (pipeline s)) by congruence.
    replace (MEM_WB (pipeline s5)) with (EX_MEM (pipeline s)) by congruence.
    replace (instr_executed s5) with (instr_executed s1) by congruence.
    replace (IF_ID (pipeline s3)) with (IF_ID (pipeline s)) in Hdec
      by congruence.
    replace (pipeline s1) with (pipeline s) in * by congruence.
    assert (pc s4 = pc s) as Epc by congruence.
    destruct Hf as [(_ & _ & ->) | (text & _ & _ & ->)]; simpl; lia.
Qed.

Lemma run_cycles_accounted (n : nat) (s s' : state) :
  run_cycles n s = Ret s' -> accounted s -> accounted s'.
Proof.
  revert s. induction n as [|n IH]; simpl; intros s H Hs.
  - inv_exc. exact Hs.
  - apply bind_Ret in H as (s1 & H1 & H).
    apply (IH _ H). apply (pipeline_step_accounted _ _ H1 Hs).
Qed.

(** X12: nothing retires that was not fetched: at any point of a run,
    the retired count plus the number of occupied latches is at most the
    program counter, which is at most the length of the program; so a
    program of [k] lines never retires more than [k] instructions. *)
Theorem run_retires_what_it_fetched (program : list string) (n : nat)
    (s : state) :
  run program n = Ret s ->
  (instr_executed s + in_flight s <= pc s)%nat /\
  (pc s <= length program)%nat /\
  (instr_executed s <= length program)%nat.
Proof.
  unfold run. intros H.
  pose proof (run_cycles_accounted _ _ _ H) as Ha.
  apply run_cycles_fetch_invariant in H as [[_ Hpc] Ei].
  - simpl in Ei. rewrite Ei in Hpc.
    assert (accounted s) as Hs
      by (apply Ha; unfold accounted, in_flight; simpl; lia).
    unfold accounted in Hs. repeat split; lia.
  - split; simpl; [reflexivity | lia].
Qed.

Lemma run_retires_what_it_fetched_load_use :
  (instr_executed after_stall + in_flight after_stall <= pc after_stall)%nat /\
  (pc after_stall <= length load_use_program)%nat /\
  (instr_executed after_stall <= length load_use_program)%nat.
Proof.
  apply (run_retires_what_it_fetched load_use_program 5 after_stall).
  vm_compute. reflexivity.
Defined.

(** ** Register and memory indices *)

(** X13: Write-Back of a record with destination [d] and result [v]
    stores [v] at register [d] when [0 <= d < 32], at register [32 + d]
    when [-32 <= d < 0] (a negative register number counts from the end
    of the register file), and raises IndexError for any other [d]; the
    whole cycle then raises IndexError. *)
Theorem write_back_index (s : state) (r : ref) (d v : Z) :
  MEM_WB (pipeline s) = Some r -> opcode (heap s r) <> "nop" ->
  rd (heap s r) = Some d -> result (heap s r) = Some v ->
  let n := length (registers s) in
  (in_range n d = true ->
   write_back s =
   Ret (with_instr_executed (S (instr_executed s))
          (with_registers (<[position n d := v]> (registers s)) s))) /\
  (in_range n d = false ->
   write_back s = Raise IndexError /\ pipeline_step s = Raise IndexError).
Proof.
  intros Hr Hop Hrd Hres n.
  assert (write_back s =
          (regs ← setitem (registers s) d v;
           Ret (with_instr_executed (S (instr_executed s))
                  (with_registers regs s)))) as E.
  { unfold write_back, deref. rewrite Hr. simpl.
    destruct (String.eqb_spec (opcode (heap s r)) "nop"); [contradiction |].
    simpl. rewrite Hrd, Hres. simpl.
    destruct (setitem (registers s) d v); reflexivity. }
  rewrite setitem_position in E. fold n in E.
  split; intros Hin; rewrite Hin in E; [exact E |].
  split; [exact E |].
  unfold pipeline_step.
  assert (write_back (with_cycle (S (cycle s)) s) = Raise IndexError) as ->;
    [| reflexivity].
  unfold write_back, deref in *. simpl. rewrite Hr in *. simpl in *.
  destruct (String.eqb_spec (opcode (heap s r)) "nop"); [contradiction |].
  simpl in *. rewrite Hrd, Hres in *. simpl in *.
  rewrite setitem_position. fold n. rewrite Hin. reflexivity.
Qed.

(** ** Data memory *)

(** X14: the Memory stage addresses words: a store at byte address [a]
    that returns has written word [a // 4] (which is then within
    [-1024 <= a // 4 < 1024], a negative index counting from the end);
    a load whose address falls in the same word, or designates it from
    the end, then reads back the value stored, whatever the low two bits
    of the two addresses. *)
Theorem store_then_load (s s1 s2 : state) (r r' : ref) (a a' v : Z) :
  EX_MEM (pipeline s) = Some r -> opcode (heap s r) = "sw" ->
  addr (heap s r) = Some a -> val (heap s r) = Some v ->
  memory_access s = Ret s1 ->
  data_memory s2 = data_memory s1 ->
  EX_MEM (pipeline s2) = Some r' -> opcode (heap s2 r') = "lw" ->
  addr (heap s2 r') = Some a' ->
  let n := length (data_memory s) in
  in_range n (a' / 4) = true ->
  position n (a' / 4) = position n (a / 4) ->
  in_range n (a / 4) = true /\
  data_memory s1 = <[position n (a / 4) := v]> (data_memory s) /\
  exists s3, memory_access s2 = Ret s3 /\
             result (heap s3 r') = Some v /\
             MEM_WB (pipeline s3) = Some r' /\
             data_memory s3 = data_memory s2.
Proof.
  intros Hr Hop Ha Hv H1 Hdm Hr' Hop' Ha' n Hin' Hpos.
  unfold memory_access in H1. rewrite Hr, Hop in H1. simpl in H1.
  rewrite Ha, Hv in H1. simpl in H1.
  rewrite setitem_position in H1. fold n in H1.
  destruct (in_range n (a / 4)) eqn:Hin; [| discriminate H1].
  simpl in H1. injection H1 as <-. simpl in Hdm.
  split; [reflexivity |]. split; [reflexivity |].
  unfold memory_access. rewrite Hr', Hop'. simpl. rewrite Ha'. simpl.
  rewrite getitem_position, Hdm, length_insert. fold n.
  rewrite Hin', Hpos.
  rewrite list_lookup_insert_eq by (apply position_lt, Hin).
  simpl. eexists. split; [reflexivity |]. simpl.
  rewrite Nat.eqb_refl. simpl. auto.
Qed.

Lemma memory_access_out_of_range (s : state) (r : ref) (a : Z) :
  EX_MEM (pipeline s) = Some r ->
  addr (heap s r) = Some a ->
  in_range (length (data_memory s)) (a / 4) = false ->
  (opcode (heap s r) = "lw" -> memory_access s = Raise IndexError) /\
  (opcode (heap s r) = "sw" -> is_Some (val (heap s r)) ->
   memory_access s = Raise IndexError).
Proof.
  intros Hr Ha Hin. unfold memory_access. rewrite Hr, Ha.
  split.
  - intros ->. simpl. rewrite getitem_position, Hin. reflexivity.
  - intros -> [v ->]. simpl. rewrite setitem_position, Hin. reflexivity.
Qed.

Lemma write_back_index_negative :
  let n := length (registers negative_destination) in
  (in_range n (-1) = true ->
   write_back negative_destination =
   Ret (with_instr_executed (S (instr_executed negative_destination))
          (with_registers
             (<[position n (-1) := 5]> (registers negative_destination))
             negative_destination))) /\
  (in_range n (-1) = false ->
   write_back negative_destination = Raise IndexError /\
   pipeline_step negative_destination = Raise IndexError).
Proof.
  apply (write_back_index negative_destination 2%nat (-1) 5).
  - reflexivity.
  - discriminate.
  - reflexivity.
  - reflexivity.
Defined.

Lemma store_then_load_unaligned :
  let n := length (data_memory store_in_memory) in
  in_range n (6 / 4) = true /\
  data_memory store_done =
  <[position n (6 / 4) := 15]> (data_memory store_in_memory) /\
  exists s3, memory_access load_in_memory = Ret s3 /\
             result (heap s3 1%nat) = Some 15 /\
             MEM_WB (pipeline s3) = Some 1%nat /\
             data_memory s3 = data_memory load_in_memory.
Proof.
  apply (store_then_load store_in_memory store_done load_in_memory
           1%nat 1%nat 6 5 15); vm_compute; reflexivity.
Defined.

(** ** Operands *)

Lemma getitem_raises {A} (l : list A) (i : Z) (e : exn) :
  getitem l i = Raise e -> e = IndexError.
Proof.
  rewrite getitem_position.
  destruct (in_range (length l) i); [| congruence].
  destruct (l !! position (length l) i); congruence.
Qed.

Lemma read_register_raises (s : state) (field : option Z) (e : exn) :
  read_register s field = Raise e -> e = IndexError.
Proof.
  destruct field as [r|]; simpl; [apply getitem_raises | discriminate].
Qed.

Lemma qualifies_b_occupied (l : option instr) (operand : option Z) :
  qualifies_b l operand = true -> is_Some l.
Proof.
  unfold qualifies_b, forwardable_rd.
  destruct l as [x|]; [eauto | discriminate].
Qed.

Lemma latch_result_raises (s : state) (l : option ref) (e : exn) :
  is_Some (deref s l) -> latch_result s l = Raise e -> e = KeyError.
Proof.
  unfold latch_result. intros [x ->].
  destruct (result x); simpl; congruence.
Qed.

Lemma forwarded_pick_raises (s : state) (operand : option Z) (v : Z)
    (e : exn) :
  forwarded s
    (pick (deref s (EX_MEM (pipeline s))) (deref s (MEM_WB (pipeline s)))
          operand) v = Raise e ->
  e = KeyError.
Proof.
  unfold pick.
  destruct (qualifies_b (deref s (EX_MEM (pipeline s))) operand) eqn:Ex.
  - apply latch_result_raises. eapply qualifies_b_occupied, Ex.
  - destruct (qualifies_b (deref s (MEM_WB (pipeline s))) operand) eqn:Em.
    + apply latch_result_raises. eapply qualifies_b_occupied, Em.
    + discriminate.
Qed.

Lemma apply_forwarding_pick_raises (s : state) (i : instr) (e : exn) :
  apply_forwarding s i (fst (detect_forwarding_sources s i))
                       (snd (detect_forwarding_sources s i)) = Raise e ->
  e = IndexError \/ e = KeyError.
Proof.
  rewrite detect_forwarding_sources_pick. simpl. unfold apply_forwarding.
  destruct (read_register s (rs i)) as [a|e1] eqn:E1; simpl;
    [| apply read_register_raises in E1; intros [= <-]; auto].
  destruct (read_register s (rt i)) as [b|e2] eqn:E2; simpl;
    [| apply read_register_raises in E2; intros [= <-]; auto].
  destruct (forwarded s _ a) as [a'|e3] eqn:E3; simpl;
    [| apply forwarded_pick_raises in E3; intros [= <-]; auto].
  destruct (forwarded s _ b) as [b'|e4] eqn:E4; simpl;
    [discriminate | apply forwarded_pick_raises in E4; intros [= <-]; auto].
Qed.

(** X15: with the sources that [detect_forwarding_sources] chose,
    [apply_forwarding] never fails for an empty latch (TypeError): it can
    only raise IndexError, for a source register outside the register
    file, or KeyError, for a producer without [result]. *)
Theorem chosen_sources_apply (s : state) (i : instr) (e : exn) :
  apply_forwarding s i (fst (detect_forwarding_sources s i))
                       (snd (detect_forwarding_sources s i)) = Raise e ->
  e = IndexError \/ e = KeyError.
Proof. apply apply_forwarding_pick_raises. Qed.

Lemma chosen_sources_apply_test :
  IndexError = IndexError \/ IndexError = KeyError.
Proof.
  apply (chosen_sources_apply
           (test_latches None None (replicate NUM_REGS 0))
           (test_operands 40 0) IndexError).
  vm_compute. reflexivity.
Defined.


(** X16: [apply_forwarding] reads the register file before it looks at
    the forwarding sources: a source register outside the register file
    raises IndexError even when the operand is to be taken from a
    latch. *)
Theorem apply_forwarding_reads_first (s : state) (i : instr)
    (forwardA forwardB : source) (r : Z) :
  in_range (length (registers s)) r = false ->
  rs i = Some r \/ rt i = Some r ->
  apply_forwarding s i forwardA forwardB = Raise IndexError.
Proof.
  intros Hr H. unfold apply_forwarding.
  assert (read_register s (Some r) = Raise IndexError) as Hread.
  { simpl. rewrite getitem_position, Hr. reflexivity. }
  destruct H as [-> | Hrt].
  - rewrite Hread. reflexivity.
  - destruct (read_register s (rs i)) as [a|e] eqn:E; simpl.
    + rewrite Hrt, Hread. reflexivity.
    + apply read_register_raises in E as ->. reflexivity.
Qed.

Lemma apply_forwarding_reads_first_test :
  apply_forwarding
    (test_latches (Some (test_producer 40 99)) None (replicate NUM_REGS 0))
    (test_operands 40 0) EX REG = Raise IndexError.
Proof.
  apply (apply_forwarding_reads_first
           (test_latches (Some (test_producer 40 99)) None
                         (replicate NUM_REGS 0))
           (test_operands 40 0) EX REG 40).
  - reflexivity.
  - left. reflexivity.
Defined.

(** ** What the decoder returns *)

#[local] Arguments in_tuple : simpl never.

Lemma bind_Raise {A B} (m : exc A) (f : A -> exc B) (e : exn) :
  m ≫= f = Raise e ->
  m = Raise e \/ exists a, m = Ret a /\ f a = Raise e.
Proof. destruct m as [a|e']; simpl; intros H; [eauto | left; congruence]. Qed.

Lemma item_raises {A} (l : list A) (k : nat) (e : exn) :
  item l k = Raise e -> e = IndexError.
Proof. unfold item. destruct (l !! k); congruence. Qed.

Lemma int_raises (t : string) (e : exn) : int t = Raise e -> e = ValueError.
Proof.
  unfold int.
  destruct (match rstrip (lstrip t) with
            | String "+" r => digits 0 false r
            | String "-" r => Z.opp <$> digits 0 false r
            | _ => digits 0 false (rstrip (lstrip t))
            end); [| congruence].
  destruct (MAX_STR_DIGITS <? _)%nat; congruence.
Qed.

Lemma reg_operand_raises (tokens : list string) (k : nat) (e : exn) :
  reg_operand tokens k = Raise e -> input_error e.
Proof.
  unfold reg_operand, input_error. intros H.
  apply bind_Raise in H as [H | (t & _ & H)].
  - apply item_raises in H. auto.
  - apply int_raises in H. auto.
Qed.

Lemma unpack2_raises (l : list string) (e : exn) :
  unpack2 l = Raise e -> e = ValueError.
Proof.
  unfold unpack2. destruct l as [|a [|b [|c l]]]; congruence.
Qed.

(** Splits a hypothesis that a sequence of reads raised. *)
Ltac raise_cases H :=
  repeat match type of H with
  | _ ≫= _ = Raise _ =>
      let a := fresh "a" in
      apply bind_Raise in H as [H | (a & _ & H)]
  | (let '(_, _) := ?p in _) = Raise _ => destruct p
  end.

Lemma parse_instruction_raises (line : string) (e : exn) :
  parse_instruction line = Raise e -> input_error e.
Proof.
  unfold parse_instruction.
  destruct (split (remove_char "," line)) as [|t0 ts]; [discriminate |].
  set (tokens := t0 :: ts). clearbody tokens.
  destruct (in_tuple (lower t0) R_TYPE).
  { intros H.
    apply bind_Raise in H as [H | (a & _ & H)];
      [eapply reg_operand_raises, H |].
    apply bind_Raise in H as [H | (b & _ & H)];
      [eapply reg_operand_raises, H |].
    apply bind_Raise in H as [H | (c & _ & H)];
      [eapply reg_operand_raises, H | discriminate H]. }
  destruct (in_tuple (lower t0) I_TYPE).
  { intros H.
    apply bind_Raise in H as [H | (a & _ & H)];
      [eapply reg_operand_raises, H |].
    apply bind_Raise in H as [H | (b & _ & H)];
      [eapply reg_operand_raises, H |].
    apply bind_Raise in H as [H | (c & _ & H)]; [| discriminate H].
    apply bind_Raise in H as [H | (t & _ & H)].
    - apply item_raises in H. left. exact H.
    - apply int_raises in H. right. exact H. }
  destruct (in_tuple (lower t0) MEM_TYPE); [| discriminate].
  intros H.
  apply bind_Raise in H as [H | (a & _ & H)];
    [eapply reg_operand_raises, H |].
  apply bind_Raise in H as [H | (t2 & _ & H)];
    [apply item_raises in H; left; exact H |].
  apply bind_Raise in H as [H | ([offset base] & _ & H)];
    [apply unpack2_raises in H; right; exact H |].
  apply bind_Raise in H as [H | (b & _ & H)];
    [apply int_raises in H; right; exact H |].
  apply bind_Raise in H as [H | (c & _ & H)];
    [apply int_raises in H; right; exact H | discriminate H].
Qed.

Lemma in_tuple_I_not_R (m : string) :
  in_tuple m I_TYPE = true -> in_tuple m R_TYPE = false.
Proof.
  unfold in_tuple, I_TYPE, R_TYPE. simpl.
  rewrite !orb_false_r, orb_true_iff, !String.eqb_eq.
  intros [-> | ->]; reflexivity.
Qed.

(** X17: a record that [parse_instruction] builds has one of the nine
    mnemonics, in lower case, as its opcode (the first token of the
    line); it has [rs] and [rt]; it has [rd] exactly when the mnemonic is
    a register-register one and [imm] exactly when it is not; it has no
    [result], [addr] or [val] yet.  The decoder returns the shared
    No-operation exactly on the lines whose first token is not
    recognized, and when it raises it raises IndexError or ValueError. *)
Theorem parse_instruction_shape :
  (forall (line : string) (i : instr),
      parse_instruction line = Ret (New_dict i) ->
      mnemonic line = Some (opcode i) /\
      in_tuple (opcode i) MNEMONICS = true /\
      is_Some (rs i) /\ is_Some (rt i) /\
      (is_Some (rd i) <-> in_tuple (opcode i) R_TYPE = true) /\
      (is_Some (imm i) <-> in_tuple (opcode i) R_TYPE = false) /\
      result i = None /\ addr i = None /\ val i = None) /\
  (forall line : string,
      parse_instruction line = Ret The_NOP <-> recognized line = false) /\
  (forall (line : string) (e : exn),
      parse_instruction line = Raise e -> e = IndexError \/ e = ValueError).
Proof.
  split; [| split; [| exact parse_instruction_raises]].
  - intros line i.
    unfold parse_instruction, mnemonic, tokens_of.
    destruct (split (remove_char "," line)) as [|t0 ts]; [discriminate |].
    cbn [head fmap option_fmap option_map].
    set (tokens := t0 :: ts). clearbody tokens.
    rewrite in_tuple_MNEMONICS.
    destruct (in_tuple (lower t0) R_TYPE) eqn:ER.
    { intros H. inv_exc. simpl. rewrite ER. simpl.
      repeat split; eauto; try discriminate.
      intros [x Hx]. discriminate Hx. }
    destruct (in_tuple (lower t0) I_TYPE) eqn:EI.
    { intros H. inv_exc. simpl. rewrite ER, EI. simpl.
      repeat split; eauto; try discriminate.
      intros [x Hx]. discriminate Hx. }
    destruct (in_tuple (lower t0) MEM_TYPE) eqn:EM; [| discriminate].
    intros H. inv_exc. simpl. rewrite ER, EI, EM. simpl.
    repeat split; eauto; try discriminate.
    intros [x Hx]. discriminate Hx.
  - intros line. split; [| apply parse_unrecognized].
    destruct (recognized line) eqn:E; [| reflexivity].
    intros H. exfalso. revert H E.
    unfold parse_instruction, recognized, mnemonic, tokens_of.
    destruct (split (remove_char "," line)) as [|t0 ts]; [discriminate |].
    cbn [head fmap option_fmap option_map].
    set (tokens := t0 :: ts). clearbody tokens.
    rewrite in_tuple_MNEMONICS.
    destruct (in_tuple (lower t0) R_TYPE); [intros H; inv_exc; discriminate |].
    destruct (in_tuple (lower t0) I_TYPE); [intros H; inv_exc; discriminate |].
    destruct (in_tuple (lower t0) MEM_TYPE); [intros H; inv_exc; discriminate |].
    discriminate.
Qed.

Lemma parse_instruction_shape_lw :
  mnemonic "LW $4, 8($2)" = Some "lw" /\
  (parse_instruction "foo" = Ret The_NOP <-> recognized "foo" = false) /\
  (IndexError = IndexError \/ IndexError = ValueError).
Proof.
  destruct parse_instruction_shape as (Hshape & Hnop & Hraise).
  split; [| split].
  - apply (Hshape "LW $4, 8($2)"
             (mkInstr "lw" None (Some 2) (Some 4) (Some 8) None None None)).
    reflexivity.
  - apply Hnop.
  - apply (Hraise "add $1" IndexError). reflexivity.
Defined.

(** ** Records in flight have the keys the stages read *)

#[local] Arguments in_tuple : simpl never.

Lemma safely_bind {A B} (P : A -> Prop) (Q : B -> Prop) (m : exc A)
    (f : A -> exc B) :
  safely P m -> (forall a, m = Ret a -> P a -> safely Q (f a)) ->
  safely Q (m ≫= f).
Proof. destruct m as [a|e]; simpl; [intros Ha Hf; apply Hf; auto | auto]. Qed.

Lemma decoded_ok_NOP : decoded_ok NOP.
Proof. split; [discriminate | reflexivity]. Qed.

Lemma executed_ok_NOP : executed_ok NOP.
Proof.
  repeat split; simpl; try discriminate.
  - intros [H | H]; discriminate H.
  - intros [x Hx]. discriminate Hx.
Qed.

Lemma completed_ok_NOP : completed_ok NOP.
Proof. intros [x Hx]. discriminate Hx. Qed.

Lemma decoded_ok_set_result (v : Z) (i : instr) :
  decoded_ok i -> decoded_ok (set_result v i).
Proof. intros H. exact H. Qed.

Lemma in_tuple_R_no_imm (m : string) :
  in_tuple m R_TYPE = true ->
  in_tuple m ["addi"; "slti"; "lw"; "sw"] = false.
Proof.
  unfold in_tuple, R_TYPE. simpl.
  repeat match goal with
  | |- context [String.eqb m ?c] =>
      destruct (String.eqb_spec m c) as [-> |]; simpl; try reflexivity
  end; discriminate.
Qed.

Lemma in_tuple_app_l (m : string) (l1 l2 : list string) :
  in_tuple m l1 = true -> in_tuple m (l1 ++ l2) = true.
Proof.
  unfold in_tuple. rewrite existsb_app. intros ->. reflexivity.
Qed.

Lemma parse_decoded_ok (line : string) (i : instr) :
  parse_instruction line = Ret (New_dict i) -> decoded_ok i.
Proof.
  unfold parse_instruction, decoded_ok.
  destruct (split (remove_char "," line)) as [|t0 ts]; [discriminate |].
  set (tokens := t0 :: ts). clearbody tokens.
  destruct (in_tuple (lower t0) R_TYPE) eqn:ER.
  { intros H. inv_exc. simpl. split.
    - rewrite (in_tuple_R_no_imm _ ER). discriminate.
    - intros H4.
      pose proof (in_tuple_app_l _ _ ["addi"; "slti"; "lw"] ER) as K.
      unfold in_tuple in H4, K. simpl in H4, K. congruence. }
  destruct (in_tuple (lower t0) I_TYPE) eqn:EI.
  { intros H. inv_exc. simpl. split; eauto. }
  destruct (in_tuple (lower t0) MEM_TYPE) eqn:EM; [| discriminate].
  intros H. inv_exc. simpl. split; eauto.
Qed.

Lemma write_back_safe (s : state) :
  (forall r, MEM_WB (pipeline s) = Some r -> completed_ok (heap s r)) ->
  safely (fun _ => True) (write_back s).
Proof.
  unfold write_back, deref. intros Hwb.
  destruct (MEM_WB (pipeline s)) as [r|]; simpl; [| exact I].
  destruct (negb _); simpl; [| exact I].
  destruct (rd (heap s r)) as [d|] eqn:Hrd; simpl; [| exact I].
  destruct (Hwb r eq_refl) as [v Hv]; [rewrite Hrd; eauto |].
  rewrite Hv. simpl. rewrite setitem_position.
  destruct (in_range _ d); simpl; [exact I | left; reflexivity].
Qed.

Lemma memory_access_safe (s : state) :
  heap s NOP_ref = NOP ->
  (forall r, EX_MEM (pipeline s) = Some r -> executed_ok (heap s r)) ->
  safely
    (fun s' =>
       heap s' NOP_ref = NOP /\
       (forall r, EX_MEM (pipeline s) = Some r -> completed_ok (heap s' r)) /\
       (forall r, decoded_ok (heap s r) -> decoded_ok (heap s' r)))
    (memory_access s).
Proof.
  unfold memory_access. intros Hnop Hex.
  destruct (EX_MEM (pipeline s)) as [r|]; simpl;
    [| split; [exact Hnop | split; [intros r Hr; discriminate Hr | auto]]].
  destruct (Hex r eq_refl) as (Haddr & Hval & Hres).
  destruct (String.eqb_spec (opcode (heap s r)) "lw") as [El|Nl].
  - destruct Haddr as [a Ha]; [auto |]. rewrite Ha. simpl.
    rewrite getitem_position.
    destruct (in_range _ (a / 4)); simpl; [| left; reflexivity].
    destruct (data_memory s !! _) as [v|]; simpl; [| left; reflexivity].
    assert (r <> NOP_ref) as Hne.
    { intros ->. rewrite Hnop in El. simpl in El. discriminate El. }
    split; [| split].
    + destruct r as [|r']; [contradiction Hne; reflexivity | exact Hnop].
    + intros r' [= <-]. rewrite Nat.eqb_refl. intros _. simpl. eauto.
    + intros r' Hd. destruct (Nat.eqb_spec r' r) as [-> |]; exact Hd.
  - assert (completed_ok (heap s r)) as Hc.
    { intros Hrd. destruct (Hres Hrd); [contradiction | assumption]. }
    destruct (String.eqb_spec (opcode (heap s r)) "sw") as [Es|Ns].
    + destruct Haddr as [a Ha]; [auto |].
      destruct Hval as [v Hv]; [auto |].
      rewrite Ha, Hv. simpl. rewrite setitem_position.
      destruct (in_range _ (a / 4)); simpl; [| left; reflexivity].
      split; [exact Hnop | split; [| auto]]. intros r' [= <-]. exact Hc.
    + simpl. split; [exact Hnop | split; [| auto]].
      intros r' [= <-]. exact Hc.
Qed.

Lemma in_tuple_false (m : string) (l : list string) :
  Forall (fun c => m <> c) l -> in_tuple m l = false.
Proof.
  unfold in_tuple. induction 1 as [|c l Hc _ IH]; simpl; [reflexivity |].
  rewrite IH, orb_false_r. apply String.eqb_neq, Hc.
Qed.

Lemma compute_ok (ex : instr) (a b : Z) :
  decoded_ok ex ->
  exists ex1, compute ex a b = Ret ex1 /\
              executed_ok (executed ex1) /\
              (ex = NOP -> executed ex1 = NOP).
Proof.
  intros [Himm Hrd]. unfold compute, executed.
  destruct (String.eqb_spec (opcode ex) "add") as [E|N1].
  { eexists. split; [reflexivity |]. simpl. rewrite E.
    split; [| intros ->; discriminate E].
    repeat split; simpl; rewrite ?E; eauto; try discriminate.
    intros [H | H]; discriminate H. }
  destruct (String.eqb_spec (opcode ex) "sub") as [E|N2].
  { eexists. split; [reflexivity |]. simpl. rewrite E.
    split; [| intros ->; discriminate E].
    repeat split; simpl; rewrite ?E; eauto; try discriminate.
    intros [H | H]; discriminate H. }
  destruct (String.eqb_spec (opcode ex) "and") as [E|N3].
  { eexists. split; [reflexivity |]. simpl. rewrite E.
    split; [| intros ->; discriminate E].
    repeat split; simpl; rewrite ?E; eauto; try discriminate.
    intros [H | H]; discriminate H. }
  destruct (String.eqb_spec (opcode ex) "or") as [E|N4].
  { eexists. split; [reflexivity |]. simpl. rewrite E.
    split; [| intros ->; discriminate E].
    repeat split; simpl; rewrite ?E; eauto; try discriminate.
    intros [H | H]; discriminate H. }
  destruct (String.eqb_spec (opcode ex) "slt") as [E|N5].
  { eexists. split; [reflexivity |]. simpl. rewrite E.
    split; [| intros ->; discriminate E].
    repeat split; simpl; rewrite ?E; eauto; try discriminate.
    intros [H | H]; discriminate H. }
  destruct (String.eqb_spec (opcode ex) "addi") as [E|N6].
  { destruct Himm as [i Hi]; [rewrite E; reflexivity |]. rewrite Hi.
    eexists. split; [reflexivity |]. simpl. rewrite E.
    split; [| intros ->; discriminate E].
    repeat split; simpl; rewrite ?E; eauto; try discriminate.
    intros [H | H]; discriminate H. }
  destruct (String.eqb_spec (opcode ex) "slti") as [E|N7].
  { destruct Himm as [i Hi]; [rewrite E; reflexivity |]. rewrite Hi.
    eexists. split; [reflexivity |]. simpl. rewrite E.
    split; [| intros ->; discriminate E].
    repeat split; simpl; rewrite ?E; eauto; try discriminate.
    intros [H | H]; discriminate H. }
  destruct (String.eqb_spec (opcode ex) "lw") as [E|N8].
  { destruct Himm as [i Hi]; [rewrite E; reflexivity |]. rewrite Hi.
    eexists. split; [reflexivity |]. simpl. rewrite E.
    split; [| intros ->; discriminate E].
    repeat split; simpl; rewrite ?E; eauto; try discriminate. }
  destruct (String.eqb_spec (opcode ex) "sw") as [E|N9].
  { destruct Himm as [i Hi]; [rewrite E; reflexivity |]. rewrite Hi.
    eexists. split; [reflexivity |]. simpl. rewrite E.
    split; [| intros ->; discriminate E].
    assert (rd ex = None) as Hnone by (apply Hrd; rewrite E; reflexivity).
    repeat split; simpl; rewrite ?E, ?Hnone; eauto; try discriminate.
    intros [x Hx]. discriminate Hx. }
  exists ex. split; [reflexivity |].
  rewrite (in_tuple_false (opcode ex) ["addi"; "slti"; "lw"])
    by (repeat constructor; assumption).
  split; [| auto].
  assert (rd ex = None) as Hnone.
  { apply Hrd, in_tuple_false. repeat constructor; assumption. }
  repeat split; rewrite ?Hnone.
  - intros [H | H]; contradiction.
  - intros H. contradiction.
  - intros [x Hx]. discriminate Hx.
Qed.

Lemma forwarded_pick_returns (s : state) (operand : option Z) (v : Z) :
  (forall x, deref s (EX_MEM (pipeline s)) = Some x -> completed_ok x) ->
  (forall x, deref s (MEM_WB (pipeline s)) = Some x -> completed_ok x) ->
  exists w,
    forwarded s
      (pick (deref s (EX_MEM (pipeline s))) (deref s (MEM_WB (pipeline s)))
            operand) v = Ret w.
Proof.
  intros Hex Hwb. unfold pick.
  destruct (qualifies_b (deref s (EX_MEM (pipeline s))) operand) eqn:Ex.
  - apply qualifies_reflect in Ex as (p & d & Hp & Hrd & _).
    destruct (Hex p Hp) as [w Hw]; [rewrite Hrd; eauto |].
    exists w. simpl. unfold latch_result. rewrite Hp, Hw. reflexivity.
  - destruct (qualifies_b (deref s (MEM_WB (pipeline s))) operand) eqn:Em.
    + apply qualifies_reflect in Em as (p & d & Hp & Hrd & _).
      destruct (Hwb p Hp) as [w Hw]; [rewrite Hrd; eauto |].
      exists w. simpl. unfold latch_result. rewrite Hp, Hw. reflexivity.
    + exists v. reflexivity.
Qed.

Lemma apply_forwarding_safe (s : state) (i : instr) :
  (forall x, deref s (EX_MEM (pipeline s)) = Some x -> completed_ok x) ->
  (forall x, deref s (MEM_WB (pipeline s)) = Some x -> completed_ok x) ->
  safely (fun _ => True)
    (apply_forwarding s i (fst (detect_forwarding_sources s i))
                          (snd (detect_forwarding_sources s i))).
Proof.
  intros Hex Hwb.
  rewrite detect_forwarding_sources_pick. simpl. unfold apply_forwarding.
  destruct (read_register s (rs i)) as [a|e1] eqn:E1; simpl;
    [| apply read_register_raises in E1; left; exact E1].
  destruct (read_register s (rt i)) as [b|e2] eqn:E2; simpl;
    [| apply read_register_raises in E2; left; exact E2].
  destruct (forwarded_pick_returns s (rs i) a Hex Hwb) as [a' ->].
  destruct (forwarded_pick_returns s (rt i) b Hex Hwb) as [b' ->].
  exact I.
Qed.

Lemma execute_safe (s : state) :
  heap s NOP_ref = NOP ->
  (forall r, ID_EX (pipeline s) = Some r -> decoded_ok (heap s r)) ->
  (forall r, EX_MEM (pipeline s) = Some r -> completed_ok (heap s r)) ->
  MEM_WB (pipeline s) = EX_MEM (pipeline s) ->
  (forall r, ID_EX (pipeline s) = Some r -> EX_MEM (pipeline s) = Some r ->
             r = NOP_ref) ->
  safely
    (fun s' =>
       heap s' NOP_ref = NOP /\
       (forall r, ID_EX (pipeline s) = Some r -> executed_ok (heap s' r)) /\
       (forall r, EX_MEM (pipeline s) = Some r -> completed_ok (heap s' r)))
    (execute s).
Proof.
  intros Hnop Hid Hex Hwb Hne. unfold execute.
  destruct (ID_EX (pipeline s)) as [r|] eqn:Hr.
  2:{ simpl. split; [exact Hnop |]. split; [intros r Hr'; discriminate Hr' |].
      exact Hex. }
  pose proof (apply_forwarding_safe s (heap s r)) as Hfw.
  destruct (detect_forwarding_sources s (heap s r)) as [fA fB].
  simpl in Hfw.
  destruct (apply_forwarding s (heap s r) fA fB) as [[a b]|e] eqn:Ef.
  2:{ simpl. apply Hfw.
      - unfold deref. intros x Hx.
        destruct (EX_MEM (pipeline s)) as [r'|]; [| discriminate Hx].
        injection Hx as <-. apply Hex. reflexivity.
      - rewrite Hwb. unfold deref. intros x Hx.
        destruct (EX_MEM (pipeline s)) as [r'|]; [| discriminate Hx].
        injection Hx as <-. apply Hex. reflexivity. }
  rewrite bind_Ret_l.
  destruct (compute_ok (heap s r) a b (Hid r eq_refl))
    as (ex1 & -> & Hok & Hnop1).
  rewrite bind_Ret_l. fold (executed ex1). simpl.
  split; [| split].
  - destruct r as [|r0]; [apply Hnop1, Hnop | exact Hnop].
  - intros r' [= <-]. rewrite Nat.eqb_refl. exact Hok.
  - intros r' Hr'. destruct (Nat.eqb_spec r' r) as [-> |]; [| apply Hex, Hr'].
    rewrite (Hne r eq_refl Hr') in *. rewrite Hnop1 by exact Hnop.
    apply completed_ok_NOP.
Qed.

Lemma decode_safe (s : state) :
  heap s NOP_ref = NOP ->
  safely
    (fun p : bool * state =>
       heap p.2 NOP_ref = NOP /\
       (forall r, (r < fresh s)%nat -> heap p.2 r = heap s r) /\
       if p.1
       then ID_EX (pipeline p.2) = None /\ EX_MEM (pipeline p.2) = None /\
            MEM_WB (pipeline p.2) = None
       else EX_MEM (pipeline p.2) = EX_MEM (pipeline s) /\
            MEM_WB (pipeline p.2) = MEM_WB (pipeline s) /\
            forall r, ID_EX (pipeline p.2) = Some r ->
                      decoded_ok (heap p.2 r) /\
                      (r = NOP_ref \/ r = fresh s))
    (decode s).
Proof.
  intros Hnop. unfold decode.
  destruct (text_of (IF_ID (pipeline s))) as [line|].
  2:{ simpl. split; [exact Hnop |]. split; [reflexivity |].
      split; [reflexivity |]. split; [reflexivity |].
      intros r Hr. discriminate Hr. }
  destruct (parse_instruction line) as [d|e] eqn:Hd;
    [| apply parse_instruction_raises in Hd; exact Hd].
  rewrite bind_Ret_l.
  destruct d as [|i]; unfold object_of, alloc.
  - destruct (detect_load_use_hazard _ _); simpl.
    + split; [exact Hnop |]. split; [reflexivity |]. auto.
    + split; [exact Hnop |]. split; [reflexivity |].
      split; [reflexivity |]. split; [reflexivity |].
      intros r [= <-].
      split; [rewrite Hnop; apply decoded_ok_NOP | left; reflexivity].
  - assert (forall r, (r < fresh s)%nat ->
              heap (store (fresh s) i s) r = heap s r) as Hold.
    { intros r Hlt. simpl.
      destruct (Nat.eqb_spec r (fresh s)); [lia | reflexivity]. }
    assert (heap (store (fresh s) i s) (fresh s) = i) as Hnew.
    { simpl. rewrite Nat.eqb_refl. reflexivity. }
    assert (heap (store (fresh s) i s) NOP_ref = NOP) as Hnop'.
    { rewrite Hold; [exact Hnop |]. unfold fresh, NOP_ref. lia. }
    destruct (detect_load_use_hazard _ _).
    + split; [exact Hnop' |]. split; [exact Hold |]. simpl. auto.
    + split; [exact Hnop' |]. split; [exact Hold |].
      split; [reflexivity |]. split; [reflexivity |].
      intros r Hr. injection Hr as <-.
      split; [| right; reflexivity].
      change (decoded_ok (heap (store (fresh s) i s) (fresh s))).
      rewrite Hnew. eapply parse_decoded_ok, Hd.
Qed.

Lemma well_formed_log (stalled : bool) (fetched : option string) (s : state) :
  well_formed s -> safely well_formed (log_pipeline_state stalled fetched s).
Proof.
  intros H. unfold log_pipeline_state.
  destruct (printable_state s); [exact H | right; reflexivity].
Qed.

Lemma pipeline_step_safe (s : state) :
  well_formed s -> safely well_formed (pipeline_step s).
Proof.
  intros (Hnop & Hid & Hex & Hwb & Hne). unfold pipeline_step.
  set (s0 := with_cycle (S (cycle s)) s).
  pose proof (write_back_safe s0 Hwb) as S1.
  destruct (write_back s0) as [s1|e1] eqn:H1; [| exact S1].
  rewrite bind_Ret_l.
  pose proof (write_back_keeps _ _ H1) as (_ & _ & _ & _ & _ & Ep1 & Eh1).
  assert (pipeline s1 = pipeline s) as Ep by exact Ep1.
  assert (heap s1 = heap s) as Eh by exact Eh1.
  pose proof (memory_access_safe s1) as S2.
  rewrite Ep, Eh in S2. specialize (S2 Hnop Hex).
  destruct (memory_access s1) as [s2|e2] eqn:H2; [| exact S2].
  rewrite bind_Ret_l. simpl in S2. destruct S2 as (Hnop2 & Hc2 & Hd2).
  pose proof (memory_access_keeps _ _ H2)
    as (_ & _ & _ & _ & _ & _ & _ & Eid2 & Eex2 & Ewb2).
  rewrite Ep in Eid2, Eex2, Ewb2.
  pose proof (execute_safe s2) as S3.
  rewrite Eid2, Eex2, Ewb2 in S3.
  specialize (S3 Hnop2 (fun r Hr => Hd2 r (Hid r Hr)) Hc2 eq_refl Hne).
  destruct (execute s2) as [s3|e3] eqn:H3; [| exact S3].
  rewrite bind_Ret_l. simpl in S3. destruct S3 as (Hnop3 & He3 & Hc3).
  pose proof (execute_keeps _ _ H3)
    as (_ & _ & _ & _ & _ & _ & _ & _ & Eid3 & Eex3 & Ewb3).
  rewrite Eid2 in Eid3, Eex3. rewrite Ewb2 in Ewb3.
  pose proof (decode_safe s3 Hnop3) as S4.
  pose proof (fresh_above s3) as (_ & Fex & Fwb).
  rewrite Eex3, Ewb3 in *.
  destruct (decode s3) as [[stalled s4]|e4] eqn:H4; [| exact S4].
  rewrite bind_Ret_l. simpl in S4. destruct S4 as (Hnop4 & Hold4 & S4).
  destruct stalled.
  - destruct S4 as (E1 & E2 & E3).
    apply well_formed_log.
    unfold well_formed. rewrite E1, E2, E3.
    split; [exact Hnop4 |].
    split; [| split; [| split]]; intros r Hr; discriminate Hr.
  - destruct S4 as (Eex4 & Ewb4 & Hid4).
    destruct (fetch_returns s4) as (f & s5 & H5). rewrite H5, bind_Ret_l.
    pose proof (fetch_keeps _ _ _ H5)
      as (_ & _ & _ & _ & _ & _ & Eh5 & Eid5 & Eex5 & Ewb5).
    apply well_formed_log. unfold well_formed.
    rewrite Eh5, Eid5, Eex5, Ewb5, Eex4, Ewb4.
    split; [exact Hnop4 |]. split; [| split; [| split]].
    + intros r Hr. apply Hid4, Hr.
    + intros r Hr. rewrite Hold4; [apply He3, Hr |].
      rewrite Hr in Fex. exact Fex.
    + intros r Hr. rewrite Hold4; [apply Hc3, Hr |].
      rewrite Hr in Fwb. exact Fwb.
    + intros r Hr Hr'. destruct (Hid4 r Hr) as [_ [-> | ->]];
        [reflexivity |].
      rewrite Hr' in Fex. simpl in Fex. lia.
Qed.

Lemma run_cycles_safe (n : nat) (s : state) :
  well_formed s -> safely well_formed (run_cycles n s).
Proof.
  revert s. induction n as [|n IH]; intros s Hs; simpl; [exact Hs |].
  pose proof (pipeline_step_safe s Hs) as H1.
  destruct (pipeline_step s) as [s1|e]; simpl; [apply IH, H1 | exact H1].
Qed.

Lemma well_formed_reset (program : list string) :
  well_formed (with_instruction_memory program reset).
Proof.
  unfold well_formed. simpl. split; [reflexivity |].
  split; [| split; [| split]]; intros r Hr; discriminate Hr.
Qed.

(** X18: a run never fails for a missing key or an empty latch: whatever
    the program, it returns or raises IndexError or ValueError (a line
    the decoder rejects, a register or memory index out of range, an
    integer too long to be put into the log), never KeyError or
    TypeError; and in every state it reaches, the records in the latches
    have the keys the next stages read: an immediate before Execute where
    one is needed, an address (and a value, for a store) before Memory, a
    result before Write-Back wherever there is a destination. *)
Theorem run_raises_only_input_errors (program : list string) (n : nat) :
  (forall e, run program n = Raise e -> e = IndexError \/ e = ValueError) /\
  (forall s, run program n = Ret s -> well_formed s).
Proof.
  pose proof (run_cycles_safe n _ (well_formed_reset program)) as H.
  unfold run. destruct (run_cycles n _) as [s|e]; simpl in H.
  - split; [discriminate |]. intros s' [= <-]. exact H.
  - split; [| discriminate]. intros e' [= <-]. exact H.
Qed.

Lemma run_raises_only_input_errors_missing_operand :
  IndexError = IndexError \/ IndexError = ValueError.
Proof.
  apply (proj1 (run_raises_only_input_errors missing_operand_program 3)
           IndexError).
  vm_compute. reflexivity.
Defined.

(** ** Draining *)

(** Where the latches and the program counter are after a cycle. *)
Lemma pipeline_step_advance (s s' : state) :
  pipeline_step s = Ret s' ->
  instruction_memory s' = instruction_memory s /\
  ((ID_EX (pipeline s) <> None /\ IF_ID (pipeline s) <> None /\
    ID_EX (pipeline s') = None /\ EX_MEM (pipeline s') = None /\
    MEM_WB (pipeline s') = None /\
    IF_ID (pipeline s') = IF_ID (pipeline s) /\ pc s' = pc s) \/
   ((occupied (ID_EX (pipeline s')) <= occupied (IF_ID (pipeline s)))%nat /\
    EX_MEM (pipeline s') = ID_EX (pipeline s) /\
    MEM_WB (pipeline s') = EX_MEM (pipeline s) /\
    ((pc s < length (instruction_memory s))%nat /\
     IF_ID (pipeline s') <> None /\ pc s' = S (pc s) \/
     (length (instruction_memory s) <= pc s)%nat /\
     IF_ID (pipeline s') = None /\ pc s' = pc s))).
Proof.
  intros H.
  apply pipeline_step_stages in H
    as (s1 & s2 & s3 & s4 & stalled & H1 & H2 & H3 & H4 & H).
  pose proof (write_back_keeps _ _ H1) as (_ & Ei1 & Epc1 & _ & _ & Ep1 & _).
  pose proof (memory_access_keeps _ _ H2)
    as (_ & Ei2 & Epc2 & _ & _ & _ & Eif2 & Eid2 & Eex2 & Ewb2).
  pose proof (execute_keeps _ _ H3)
    as (_ & _ & Ei3 & Epc3 & _ & _ & _ & Eif3 & Eid3 & Eex3 & Ewb3).
  pose proof (decode_keeps _ _ _ H4)
    as (_ & _ & Ei4 & Epc4 & _ & _ & _ & Eif4 & Hlat).
  simpl in Ei1, Epc1, Ep1.
  destruct stalled.
  - subst s'. simpl. split; [congruence |]. left.
    destruct Hlat as (E1 & E2 & E3).
    assert (hazard_detected s3) as Hh
      by (apply (decode_stalls_iff _ _ _ H4); reflexivity).
    pose proof (hazard_detected_load _ Hh) as (r & Hr & _).
    destruct Hh as (line & d & Hline & _).
    repeat split; try congruence.
    intros Hn. rewrite Eif3, Eif2, Ep1, Hn in Hline. discriminate Hline.
  - destruct H as (f & s5 & H5 & ->). simpl.
    pose proof (decode_occupied _ _ H4) as Hocc.
    pose proof (fetch_keeps _ _ _ H5)
      as (_ & _ & Ei5 & _ & _ & _ & _ & Eid5 & Eex5 & Ewb5).
    destruct Hlat as (Eex4 & Ewb4).
    split; [congruence |]. right.
    rewrite Eid5, Eex5, Ewb5, Eex4, Ewb4, Eex3, Ewb3, Eid2, Ewb2, Ep1.
    rewrite Eif3, Eif2, Ep1 in Hocc.
    split; [exact Hocc |]. split; [reflexivity |]. split; [reflexivity |].
    assert (pc s4 = pc s) as Epc by congruence.
    assert (instruction_memory s4 = instruction_memory s) as Ei by congruence.
    apply fetch_shape in H5
      as [(_ & Hlen & ->) | (text & _ & Htext & ->)]; simpl.
    + right. rewrite Ei, Epc in Hlen. auto.
    + left. apply lookup_lt_Some in Htext. rewrite Ei, Epc in Htext.
      repeat split; [exact Htext | discriminate | congruence].
Qed.

Lemma pipeline_step_to_decode (s s' : state) :
  pipeline_step s = Ret s' ->
  (to_decode s' < to_decode s)%nat \/ to_decode s' = 0%nat.
Proof.
  intros H. apply pipeline_step_advance in H as (Ei & H).
  unfold to_decode. rewrite Ei.
  destruct H as [(Hid & Hif & -> & _ & _ & -> & ->)
                | (Hocc & _ & _ & [(Hlt & Hif' & ->) | (Hge & -> & ->)])].
  - left. destruct (ID_EX (pipeline s)); [| contradiction].
    destruct (IF_ID (pipeline s)); [| contradiction]. simpl. lia.
  - left. destruct (IF_ID (pipeline s')); [| contradiction].
    apply Nat.ltb_lt in Hlt as Hb.
    destruct (IF_ID (pipeline s)); rewrite ?Hb;
      destruct (ID_EX (pipeline s)), (ID_EX (pipeline s'));
      simpl in *; lia.
  - apply Nat.ltb_ge in Hge as Hb. rewrite Hb.
    destruct (IF_ID (pipeline s));
      destruct (ID_EX (pipeline s)), (ID_EX (pipeline s'));
      simpl in *; lia.
Qed.

Lemma run_cycles_to_decode (n : nat) (s s' : state) :
  run_cycles n s = Ret s' -> (to_decode s <= n)%nat -> to_decode s' = 0%nat.
Proof.
  revert s. induction n as [|n IH]; simpl; intros s H Hn.
  - inv_exc. lia.
  - apply bind_Ret in H as (s1 & H1 & H).
    apply (IH _ H).
    destruct (pipeline_step_to_decode _ _ H1); lia.
Qed.

Lemma to_decode_zero (s : state) :
  to_decode s = 0%nat ->
  IF_ID (pipeline s) = None /\ ID_EX (pipeline s) = None /\
  (length (instruction_memory s) <= pc s)%nat.
Proof.
  unfold to_decode. intros H.
  destruct (IF_ID (pipeline s)), (ID_EX (pipeline s)); simpl in H; try lia.
  destruct (Nat.ltb_spec (pc s) (length (instruction_memory s)));
    repeat split; lia.
Qed.

Lemma pipeline_step_nothing_to_decode (s s' : state) :
  pipeline_step s = Ret s' -> to_decode s = 0%nat ->
  to_decode s' = 0%nat /\
  EX_MEM (pipeline s') = None /\ MEM_WB (pipeline s') = EX_MEM (pipeline s).
Proof.
  intros H Hz.
  pose proof (pipeline_step_to_decode _ _ H) as Hd.
  apply to_decode_zero in Hz as Hs. destruct Hs as (Hif & Hid & Hpc).
  apply pipeline_step_advance in H as (_ & [(Hn & _) | (_ & Eex & Ewb & _)]).
  - contradiction.
  - split; [lia |]. rewrite Eex, Ewb, Hid. auto.
Qed.

Lemma run_cycles_printable (n : nat) (s s' : state) :
  (0 < n)%nat -> run_cycles n s = Ret s' -> printable_state s' = true.
Proof.
  intros Hn H. replace n with ((n - 1) + 1)%nat in H by lia.
  rewrite run_cycles_add in H. apply bind_Ret in H as (s1 & _ & H).
  simpl in H. apply bind_Ret in H as (s2 & H & E). injection E as ->.
  eapply pipeline_step_printable, H.
Qed.

(** X19: every run drains: a run of [n >= 2 * len + 3] cycles over a
    program of [len] lines, if it returns, ends with the four latches
    empty and the whole program fetched (no cycle stalls twice in a row,
    so decoding takes at most two cycles per line); and running a drained
    machine further changes neither registers, nor data memory, nor the
    retired count. *)
Theorem run_drains (program : list string) (n : nat) (s : state) :
  (2 * length program + 3 <= n)%nat ->
  run program n = Ret s ->
  drained s /\
  forall m, exists s', run_cycles m s = Ret s' /\ drained s' /\
                       registers s' = registers s /\
                       data_memory s' = data_memory s /\
                       instr_executed s' = instr_executed s.
Proof.
  intros Hn H.
  assert (drained s) as Hd; [| split; [exact Hd |]].
  2:{ intros m. apply run_cycles_drained; [exact Hd |].
      apply run_cycles_printable in H; [| lia].
      unfold printable_state in H. apply andb_true_iff in H as [_ H].
      exact H. }
  replace n with ((n - 2) + 1 + 1)%nat in H by lia.
  unfold run in H. rewrite !run_cycles_add in H.
  apply bind_Ret in H as (s2 & H12 & Hc).
  apply bind_Ret in H12 as (s1 & H1 & Hb).
  simpl in Hb, Hc.
  apply bind_Ret in Hb as (s2' & Hb & E2). injection E2 as ->.
  apply bind_Ret in Hc as (s' & Hc & E3). injection E3 as ->.
  pose proof (run_cycles_to_decode _ _ _ H1) as Hz1.
  assert (to_decode s1 = 0%nat) as Z1.
  { apply Hz1. unfold to_decode. simpl.
    destruct program; simpl length in *; simpl; lia. }
  destruct (pipeline_step_nothing_to_decode _ _ Hb Z1) as (Z2 & Eex2 & _).
  destruct (pipeline_step_nothing_to_decode _ _ Hc Z2) as (Z3 & Eex3 & Ewb3).
  apply to_decode_zero in Z3 as (Hif & Hid & Hpc).
  split; [| exact Hpc].
  destruct (pipeline s) as [a b c d]. simpl in *. congruence.
Qed.

Lemma run_drains_reference :
  exists s, run reference_program 13 = Ret s /\ drained s.
Proof.
  destruct (run reference_program 13) as [s|e] eqn:E.
  - exists s. split; [reflexivity |].
    apply (run_drains reference_program 13 s); [vm_compute; lia | exact E].
  - exfalso. vm_compute in E. discriminate E.
Defined.

(** ** Operands in flight *)



(** ** Programs without loads and stores *)

#[local] Arguments in_tuple : simpl never.

Lemma within_mono (k k' z : Z) : k <= k' -> within k z -> within k' z.
Proof.
  unfold within. intros Hk H.
  assert (2 ^ k <= 2 ^ k') by (apply Z.pow_le_mono_r; lia). lia.
Qed.

Lemma pow2_below_limit : 2 ^ MAX_BITS < 10 ^ Z.of_nat MAX_STR_DIGITS.
Proof. apply Z.ltb_lt. vm_compute. reflexivity. Qed.

Lemma within_printable (k z : Z) :
  k <= MAX_BITS -> within k z -> printable z = true.
Proof.
  intros Hk H. apply (within_mono _ _ _ Hk) in H. unfold within in H.
  apply printable_lt. pose proof pow2_below_limit. lia.
Qed.

Lemma in_range_printable (r : Z) :
  in_range NUM_REGS r = true -> printable r = true.
Proof.
  unfold in_range. intros H. apply andb_true_iff in H as [H1 H2].
  apply Z.leb_le in H1. apply Z.ltb_lt in H2.
  apply (within_printable 5); [unfold MAX_BITS; lia |].
  unfold within. change (2 ^ 5) with 32.
  change (Z.of_nat NUM_REGS) with 32 in *. lia.
Qed.

(** Fitting in [k] bits and a sign, read off the bits above [k]. *)
Lemma within_div (k z : Z) :
  0 <= k -> (within k z <-> z / 2 ^ k = 0 \/ z / 2 ^ k = -1).
Proof.
  intros Hk. unfold within.
  assert (0 < 2 ^ k) as Hp by (apply Z.pow_pos_nonneg; lia).
  pose proof (Z.div_mod z (2 ^ k)) as Hd.
  pose proof (Z.mod_pos_bound z (2 ^ k) Hp) as Hm.
  split; [intros H | intros [H | H]]; try (rewrite H in Hd; lia).
  nia.
Qed.

Lemma within_land (k a b : Z) :
  0 <= k -> within k a -> within k b -> within k (Z.land a b).
Proof.
  intros Hk Ha Hb. rewrite within_div in * by exact Hk.
  rewrite <- !Z.shiftr_div_pow2 in * by exact Hk.
  rewrite Z.shiftr_land.
  destruct Ha as [-> | ->], Hb as [-> | ->]; auto.
Qed.

Lemma within_lor (k a b : Z) :
  0 <= k -> within k a -> within k b -> within k (Z.lor a b).
Proof.
  intros Hk Ha Hb. rewrite within_div in * by exact Hk.
  rewrite <- !Z.shiftr_div_pow2 in * by exact Hk.
  rewrite Z.shiftr_lor.
  destruct Ha as [-> | ->], Hb as [-> | ->]; auto.
Qed.

Lemma within_add (k a b : Z) :
  0 <= k -> within k a -> within k b -> within (k + 1) (a + b).
Proof.
  unfold within. intros Hk Ha Hb. rewrite Z.pow_add_r by lia.
  change (2 ^ 1) with 2. lia.
Qed.

Lemma within_sub (k a b : Z) :
  0 <= k -> within k a -> within k b -> within (k + 1) (a - b).
Proof.
  unfold within. intros Hk Ha Hb. rewrite Z.pow_add_r by lia.
  change (2 ^ 1) with 2. lia.
Qed.

Lemma within_bit (k : Z) (b : bool) :
  0 < k -> within k (if b then 1 else 0).
Proof.
  unfold within. intros Hk.
  assert (2 ^ 1 <= 2 ^ k) by (apply Z.pow_le_mono_r; lia).
  change (2 ^ 1) with 2 in *. destruct b; lia.
Qed.

Lemma within_0 (k : Z) : 0 <= k -> within k 0.
Proof.
  unfold within. intros Hk.
  assert (0 < 2 ^ k) by (apply Z.pow_pos_nonneg; lia). lia.
Qed.

Lemma forallb_printable (e : Z) (l : list Z) :
  e <= MAX_BITS -> Forall (within e) l -> forallb printable l = true.
Proof.
  intros He. induction 1 as [|z l Hz _ IH]; [reflexivity |].
  cbn [forallb]. rewrite (within_printable e z He Hz), IH. reflexivity.
Qed.

Lemma alu_object_NOP (n : nat) (k e : Z) : alu_object n k e NOP.
Proof.
  unfold alu_object, alu_record. simpl.
  repeat split; try discriminate; intros r Hr; discriminate Hr.
Qed.

Lemma alu_object_mono (n : nat) (k e e' : Z) (i : instr) :
  e <= e' -> alu_object n k e i -> alu_object n k e' i.
Proof.
  intros He (Hr & Ha & Hv & Hres).
  split; [exact Hr |]. split; [exact Ha |]. split; [exact Hv |].
  intros v H. apply (within_mono e e' v He), Hres, H.
Qed.

Lemma alu_object_printable (k e : Z) (i : instr) :
  k <= MAX_BITS -> e <= MAX_BITS ->
  alu_object NUM_REGS k e i -> printable_instr i = true.
Proof.
  intros Hk He ((_ & _ & Hrd & Hrs & Hrt & Himm) & Ha & Hv & Hres).
  unfold printable_instr, printable_field. rewrite Ha, Hv.
  destruct (rd i) as [d|]; [rewrite (in_range_printable d) by auto |];
  destruct (rs i) as [a|]; [rewrite (in_range_printable a) by auto | |
                            rewrite (in_range_printable a) by auto |];
  destruct (rt i) as [b|]; try rewrite (in_range_printable b) by auto;
  destruct (imm i) as [v|];
    try rewrite (within_printable k v Hk) by auto;
  destruct (result i) as [w|];
    try rewrite (within_printable e w He) by auto;
  reflexivity.
Qed.

Lemma getitem_elem {A} (l : list A) (i : Z) (v : A) :
  getitem l i = Ret v -> v ∈ l.
Proof.
  rewrite getitem_position.
  destruct (in_range (length l) i); [| discriminate].
  destruct (l !! position (length l) i) as [w|] eqn:E; [| discriminate].
  intros [= <-]. eapply list_elem_of_lookup_2, E.
Qed.

Lemma read_register_returns (s : state) (field : option Z) :
  (forall r, field = Some r -> in_range (length (registers s)) r = true) ->
  exists v, read_register s field = Ret v.
Proof.
  intros H. destruct field as [r|]; simpl; [| eauto].
  rewrite getitem_position, (H r eq_refl).
  destruct (lookup_lt_is_Some_2 (registers s)
              (position (length (registers s)) r)) as [v ->];
    [apply position_lt, H; reflexivity | eauto].
Qed.

Lemma read_register_within (s : state) (field : option Z) (e v : Z) :
  0 <= e -> Forall (within e) (registers s) ->
  read_register s field = Ret v -> within e v.
Proof.
  intros He Hregs. destruct field as [r|]; simpl.
  - intros H. apply getitem_elem in H.
    rewrite Forall_forall in Hregs. apply Hregs, H.
  - intros [= <-]. apply within_0, He.
Qed.

Lemma forwarded_within (s : state) (f : source) (e v w : Z) :
  (forall r x, result (heap s r) = Some x -> within e x) ->
  within e v -> forwarded s f v = Ret w -> within e w.
Proof.
  intros Hres Hv. destruct f; simpl.
  - intros [= <-]. exact Hv.
  - unfold latch_result, deref.
    destruct (EX_MEM (pipeline s)) as [r|]; simpl; [| discriminate].
    destruct (result (heap s r)) as [x|] eqn:E; simpl; [| discriminate].
    intros [= <-]. eapply Hres, E.
  - unfold latch_result, deref.
    destruct (MEM_WB (pipeline s)) as [r|]; simpl; [| discriminate].
    destruct (result (heap s r)) as [x|] eqn:E; simpl; [| discriminate].
    intros [= <-]. eapply Hres, E.
Qed.

Lemma apply_forwarding_within (s : state) (i : instr) (fA fB : source)
    (e a b : Z) :
  0 <= e -> Forall (within e) (registers s) ->
  (forall r x, result (heap s r) = Some x -> within e x) ->
  apply_forwarding s i fA fB = Ret (a, b) -> within e a /\ within e b.
Proof.
  intros He Hregs Hres H. unfold apply_forwarding in H.
  apply bind_Ret in H as (a0 & Ha0 & H). apply bind_Ret in H as (b0 & Hb0 & H).
  apply bind_Ret in H as (a1 & Ha1 & H). apply bind_Ret in H as (b1 & Hb1 & H).
  injection H as <- <-.
  apply (read_register_within _ _ e _ He Hregs) in Ha0.
  apply (read_register_within _ _ e _ He Hregs) in Hb0.
  split.
  - exact (forwarded_within s fA e a0 a1 Hres Ha0 Ha1).
  - exact (forwarded_within s fB e b0 b1 Hres Hb0 Hb1).
Qed.

Lemma write_back_returns (s : state) (k : Z) :
  (forall r, MEM_WB (pipeline s) = Some r -> completed_ok (heap s r)) ->
  (forall r, alu_record (length (registers s)) k (heap s r)) ->
  exists s1, write_back s = Ret s1.
Proof.
  unfold write_back, deref. intros Hwb Halu.
  destruct (MEM_WB (pipeline s)) as [r|]; simpl; [| eauto].
  destruct (negb _); simpl; [| eauto].
  destruct (rd (heap s r)) as [d|] eqn:Hrd; simpl; [| eauto].
  destruct (Hwb r eq_refl) as [v Hv]; [rewrite Hrd; eauto |].
  rewrite Hv. simpl. rewrite setitem_position.
  destruct (Halu r) as (_ & _ & Hd & _). rewrite (Hd d Hrd). simpl. eauto.
Qed.

Lemma write_back_within (s s1 : state) (e : Z) :
  write_back s = Ret s1 ->
  Forall (within e) (registers s) ->
  (forall r x, result (heap s r) = Some x -> within e x) ->
  Forall (within e) (registers s1).
Proof.
  intros H Hregs Hres.
  destruct (write_back_registers _ _ H)
    as [-> | (r & d & v & j & _ & _ & _ & Hv & _ & ->)]; [exact Hregs |].
  apply Forall_insert; [exact Hregs |]. eapply Hres, Hv.
Qed.

Lemma memory_access_alu (s : state) (n : nat) (k : Z) :
  (forall r, alu_record n k (heap s r)) ->
  memory_access s = Ret (set_MEM_WB (EX_MEM (pipeline s)) s).
Proof.
  unfold memory_access. intros Halu.
  destruct (EX_MEM (pipeline s)) as [r|]; [| reflexivity].
  destruct (Halu r) as (Nl & Ns & _).
  destruct (String.eqb_spec (opcode (heap s r)) "lw"); [contradiction |].
  destruct (String.eqb_spec (opcode (heap s r)) "sw"); [contradiction |].
  reflexivity.
Qed.

(** What Execute stores for a record without load or store: the same
    record with, at most, a result of one bit more than its operands
    and the [rd] taken from [rt]. *)
Lemma compute_alu (n : nat) (k e : Z) (ex ex1 : instr) (a b : Z) :
  0 < k -> k <= e ->
  compute ex a b = Ret ex1 -> alu_object n k e ex ->
  within e a -> within e b ->
  alu_object n k (e + 1) (executed ex1).
Proof.
  intros Hk He H ((Nl & Ns & Hrd & Hrs & Hrt & Himm) & Ha & Hv & Hres) Wa Wb.
  unfold compute in H.
  apply String.eqb_neq in Nl as Nl', Ns as Ns'. rewrite Nl', Ns' in H.
  assert (opcode ex1 = opcode ex /\ rd ex1 = rd ex /\ rs ex1 = rs ex /\
          rt ex1 = rt ex /\ imm ex1 = imm ex /\ addr ex1 = addr ex /\
          val ex1 = val ex) as (Eo & Ed & Es & Et & Ei & Ea & Ev).
  { repeat match type of H with
    | (if ?c then _ else _) = _ => destruct c
    end; inv_exc; repeat split. }
  assert (forall w, result ex1 = Some w -> within (e + 1) w) as Er.
  { intros w Hw.
    assert (within (e + 1) 0 /\ within (e + 1) 1) as [W0 W1].
    { split; [apply (within_bit (e + 1) false) | apply (within_bit (e + 1) true)];
        lia. }
    destruct (opcode ex =? "add")%string.
    { injection H as <-. injection Hw as <-. apply within_add; auto; lia. }
    destruct (opcode ex =? "sub")%string.
    { injection H as <-. injection Hw as <-. apply within_sub; auto; lia. }
    destruct (opcode ex =? "and")%string.
    { injection H as <-. injection Hw as <-. apply (within_mono e); [lia |].
      apply within_land; auto; lia. }
    destruct (opcode ex =? "or")%string.
    { injection H as <-. injection Hw as <-. apply (within_mono e); [lia |].
      apply within_lor; auto; lia. }
    destruct (opcode ex =? "slt")%string.
    { injection H as <-. injection Hw as <-. destruct (a <? b); assumption. }
    destruct (opcode ex =? "addi")%string.
    { destruct (imm ex) as [v|] eqn:Ev'; [| discriminate H].
      injection H as <-. injection Hw as <-.
      apply within_add; [lia | exact Wa |].
      apply (within_mono k); [exact He | auto]. }
    destruct (opcode ex =? "slti")%string.
    { destruct (imm ex) as [v|] eqn:Ev'; [| discriminate H].
      injection H as <-. injection Hw as <-. destruct (a <? v); assumption. }
    injection H as <-. apply (within_mono e); [lia | auto]. }
  unfold executed, alu_object, alu_record.
  destruct (in_tuple (opcode ex1) _); simpl;
    rewrite ?Eo, ?Ed, ?Es, ?Et, ?Ei, ?Ea, ?Ev; auto 10.
Qed.

Lemma apply_forwarding_returns (s : state) (i : instr) :
  (forall x, deref s (EX_MEM (pipeline s)) = Some x -> completed_ok x) ->
  (forall x, deref s (MEM_WB (pipeline s)) = Some x -> completed_ok x) ->
  (forall r, rs i = Some r -> in_range (length (registers s)) r = true) ->
  (forall r, rt i = Some r -> in_range (length (registers s)) r = true) ->
  exists a b,
    apply_forwarding s i
      (pick (deref s (EX_MEM (pipeline s))) (deref s (MEM_WB (pipeline s)))
            (rs i))
      (pick (deref s (EX_MEM (pipeline s))) (deref s (MEM_WB (pipeline s)))
            (rt i)) = Ret (a, b).
Proof.
  intros Hex Hwb Hrs Hrt. unfold apply_forwarding.
  destruct (read_register_returns s (rs i) Hrs) as [a ->].
  destruct (read_register_returns s (rt i) Hrt) as [b ->].
  rewrite !bind_Ret_l.
  destruct (forwarded_pick_returns s (rs i) a Hex Hwb) as [a' ->].
  destruct (forwarded_pick_returns s (rt i) b Hex Hwb) as [b' ->].
  rewrite !bind_Ret_l. eauto.
Qed.

Lemma execute_alu (s : state) (k e : Z) :
  0 < k -> k <= e ->
  (forall r, ID_EX (pipeline s) = Some r -> decoded_ok (heap s r)) ->
  (forall x, deref s (EX_MEM (pipeline s)) = Some x -> completed_ok x) ->
  (forall x, deref s (MEM_WB (pipeline s)) = Some x -> completed_ok x) ->
  (forall r, alu_object (length (registers s)) k e (heap s r)) ->
  Forall (within e) (registers s) ->
  exists s3,
    execute s = Ret s3 /\
    forall r, alu_object (length (registers s)) k
                (e + Z.of_nat (occupied (ID_EX (pipeline s)))) (heap s3 r).
Proof.
  intros Hk He Hid Hex Hwb Hobj Hregs. unfold execute.
  destruct (ID_EX (pipeline s)) as [r|] eqn:Hr.
  2:{ eexists. split; [reflexivity |]. intros r. simpl.
      rewrite Z.add_0_r. apply Hobj. }
  rewrite detect_forwarding_sources_pick.
  destruct (Hobj r) as ((_ & _ & _ & Hrs & Hrt & _) & _).
  destruct (apply_forwarding_returns s (heap s r) Hex Hwb Hrs Hrt)
    as (a & b & Hfw).
  rewrite Hfw, bind_Ret_l.
  destruct (apply_forwarding_within s _ _ _ e a b ltac:(lia) Hregs
              (fun r x => proj2 (proj2 (proj2 (Hobj r))) x) Hfw) as [Wa Wb].
  destruct (compute_ok (heap s r) a b (Hid r eq_refl)) as (ex1 & Hc & _).
  rewrite Hc, bind_Ret_l. fold (executed ex1).
  eexists. split; [reflexivity |].
  intros r'. simpl. change (Z.of_nat 1) with 1.
  destruct (Nat.eqb r' r).
  - eapply compute_alu; eauto.
  - apply (alu_object_mono _ _ e); [lia | apply Hobj].
Qed.

Lemma text_of_Some (l : option string) (line : string) :
  text_of l = Some line -> l = Some line /\ line <> EmptyString.
Proof.
  destruct l as [[|c t]|]; simpl; intros H; try discriminate H.
  injection H as <-. split; [reflexivity | discriminate].
Qed.

Lemma parse_instruction_fresh (line : string) (i : instr) :
  parse_instruction line = Ret (New_dict i) ->
  result i = None /\ addr i = None /\ val i = None.
Proof.
  unfold parse_instruction.
  destruct (split (remove_char "," line)) as [|t0 ts]; [discriminate |].
  set (tokens := t0 :: ts). clearbody tokens.
  destruct (in_tuple (lower t0) R_TYPE); [intros H; inv_exc; auto |].
  destruct (in_tuple (lower t0) I_TYPE); [intros H; inv_exc; auto |].
  destruct (in_tuple (lower t0) MEM_TYPE); [| discriminate].
  intros H; inv_exc; auto.
Qed.

Lemma decode_alu (s : state) (n : nat) (k e : Z) :
  (forall t, IF_ID (pipeline s) = Some t -> t <> EmptyString ->
             alu_line n k t) ->
  (forall r, alu_object n k e (heap s r)) ->
  exists s4, decode s = Ret (false, s4) /\
             forall r, alu_object n k e (heap s4 r).
Proof.
  intros Hif Hobj. unfold decode.
  destruct (text_of (IF_ID (pipeline s))) as [line|] eqn:Ht;
    [| eexists; split; [reflexivity | exact Hobj]].
  apply text_of_Some in Ht as [Ht Hne].
  destruct (Hif line Ht Hne) as (d & Hd & Hrec). rewrite Hd, bind_Ret_l.
  destruct (object_of d s) as [r s1] eqn:Hobj1.
  assert (forall r', alu_object n k e (heap s1 r')) as Hobj'.
  { destruct d as [|i]; unfold object_of, alloc in Hobj1;
      injection Hobj1 as <- <-; [exact Hobj |].
    intros r'. simpl. destruct (Nat.eqb r' (fresh s)); [| apply Hobj].
    destruct (parse_instruction_fresh _ _ Hd) as (Er & Ea & Ev).
    split; [apply Hrec; reflexivity |]. split; [exact Ea |].
    split; [exact Ev |]. intros v Hv. congruence. }
  assert (detect_load_use_hazard (heap s1 r)
            (deref s1 (ID_EX (pipeline s1))) = false) as ->.
  { unfold detect_load_use_hazard, deref.
    destruct (ID_EX (pipeline s1)) as [r'|]; simpl; [| reflexivity].
    destruct (Hobj' r') as ((Nl & _) & _).
    apply String.eqb_neq in Nl. rewrite Nl. reflexivity. }
  eexists. split; [reflexivity | exact Hobj'].
Qed.

Lemma completed_ok_alu (n : nat) (k e : Z) (i : instr) :
  executed_ok i -> alu_object n k e i -> completed_ok i.
Proof.
  intros (_ & _ & H) ((Nl & _) & _) Hrd.
  destruct (H Hrd) as [El | Hres]; [contradiction | exact Hres].
Qed.

Lemma printable_latch_alu (s : state) (l : option ref) (k e : Z) :
  k <= MAX_BITS -> e <= MAX_BITS ->
  (forall r, alu_object NUM_REGS k e (heap s r)) ->
  printable_latch s l = true.
Proof.
  intros Hk He Hobj. unfold printable_latch, deref.
  destruct l as [r|]; simpl; [| reflexivity].
  exact (alu_object_printable k e (heap s r) Hk He (Hobj r)).
Qed.

Lemma pipeline_step_alu (k : Z) (s : state) :
  0 < k -> k + Z.of_nat (length (instruction_memory s)) <= MAX_BITS ->
  well_formed s -> length (registers s) = NUM_REGS -> alu_state k s ->
  exists s', pipeline_step s = Ret s' /\ well_formed s' /\
             length (registers s') = NUM_REGS /\
             instruction_memory s' = instruction_memory s /\
             alu_state k s'.
Proof.
  intros Hk Hlen Hwf Hn (Hx & Hpc & Hobj & Hregs & Hif & Him).
  cbv zeta in Hobj, Hregs, Hif, Him. rewrite Hn in Hobj, Hif, Him.
  pose proof (pipeline_step_safe s Hwf) as Hsafe.
  destruct Hwf as (Hnop & Hid & Hex & Hwb & Hne).
  set (e := k + past_decode s) in *.
  set (o := Z.of_nat (occupied (ID_EX (pipeline s)))).
  assert (k <= e) as Hke by (subst e; lia).
  assert (e + o = k + Z.of_nat (pc s)
                  - Z.of_nat (occupied (IF_ID (pipeline s)))) as Heo
    by (subst e o; unfold past_decode; lia).
  assert (e + o <= MAX_BITS) as Hemax by lia.
  assert (0 <= o) as Ho by (subst o; lia).
  assert (exists s', pipeline_step s = Ret s' /\
                     length (registers s') = NUM_REGS /\
                     instruction_memory s' = instruction_memory s /\
                     alu_state k s') as (s' & E & H).
  2:{ exists s'. rewrite E in Hsafe. split; [exact E |].
      split; [exact Hsafe | exact H]. }
  clear Hsafe. unfold pipeline_step.
  set (s0 := with_cycle (S (cycle s)) s).
  destruct (write_back_returns s0 k Hwb) as [s1 H1].
  { intros r. change (length (registers s0)) with (length (registers s)).
    rewrite Hn. apply Hobj. }
  rewrite H1, bind_Ret_l.
  pose proof (write_back_keeps _ _ H1) as (_ & Ei1 & Epc1 & _ & _ & Ep1 & Eh1).
  pose proof (registers_step_length _ _ (write_back_registers _ _ H1)) as En1.
  pose proof (write_back_within s0 s1 e H1 Hregs
                (fun r x => proj2 (proj2 (proj2 (Hobj r))) x)) as Hregs1.
  change (length (registers s0)) with (length (registers s)) in En1.
  rewrite Hn in En1.
  change (heap s0) with (heap s) in Eh1.
  change (pipeline s0) with (pipeline s) in Ep1.
  change (instruction_memory s0) with (instruction_memory s) in Ei1.
  change (pc s0) with (pc s) in Epc1.
  rewrite (memory_access_alu s1 NUM_REGS k), bind_Ret_l
    by (intros r; rewrite Eh1; apply Hobj).
  set (s2 := set_MEM_WB (EX_MEM (pipeline s1)) s1).
  assert (forall x, deref s2 (EX_MEM (pipeline s2)) = Some x -> completed_ok x)
    as Hc2.
  { unfold deref. simpl. rewrite Ep1, Eh1. intros y Hy.
    destruct (EX_MEM (pipeline s)) as [r|]; [| discriminate Hy].
    injection Hy as <-. eapply completed_ok_alu; [apply Hex; reflexivity |].
    apply Hobj. }
  destruct (execute_alu s2 k e Hk Hke) as (s3 & H3 & Hobj3).
  { simpl. rewrite Ep1, Eh1. exact Hid. }
  { exact Hc2. }
  { exact Hc2. }
  { intros r. change (registers s2) with (registers s1).
    change (heap s2) with (heap s1). rewrite En1, Eh1. apply Hobj. }
  { exact Hregs1. }
  rewrite H3, bind_Ret_l.
  change (length (registers s2)) with (length (registers s1)) in Hobj3.
  change (ID_EX (pipeline s2)) with (ID_EX (pipeline s1)) in Hobj3.
  rewrite En1, Ep1 in Hobj3. fold o in Hobj3.
  pose proof (execute_keeps _ _ H3)
    as (Er3 & _ & Ei3 & Epc3 & _ & _ & _ & Eif3 & _).
  change (registers s2) with (registers s1) in Er3.
  change (instruction_memory s2) with (instruction_memory s1) in Ei3.
  change (pc s2) with (pc s1) in Epc3.
  change (IF_ID (pipeline s2)) with (IF_ID (pipeline s1)) in Eif3.
  rewrite Ep1 in Eif3. rewrite Ei1 in Ei3. rewrite Epc1 in Epc3.
  destruct (decode_alu s3 NUM_REGS k (e + o)) as (s4 & H4 & Hobj4).
  { rewrite Eif3. exact Hif. }
  { exact Hobj3. }
  rewrite H4, bind_Ret_l.
  pose proof (decode_keeps _ _ _ H4)
    as (Er4 & _ & Ei4 & Epc4 & _ & _ & _ & Eif4 & _).
  pose proof (decode_occupied _ _ H4) as Hocc.
  rewrite Er3 in Er4. rewrite Ei3 in Ei4. rewrite Epc3 in Epc4.
  rewrite Eif3 in Eif4, Hocc.
  destruct (fetch_returns s4) as (f & s5 & H5). rewrite H5, bind_Ret_l.
  pose proof (fetch_keeps _ _ _ H5)
    as (Er5 & _ & Ei5 & _ & _ & _ & Eh5 & Eid5 & _).
  rewrite Er4 in Er5. rewrite Ei4 in Ei5.
  assert (forall r, alu_object NUM_REGS k (e + o) (heap s5 r)) as Hobj5
    by (rewrite Eh5; exact Hobj4).
  assert (Forall (within (e + o)) (registers s5)) as Hregs5.
  { rewrite Er5. eapply Forall_impl; [exact Hregs1 |].
    intros z. apply within_mono. lia. }
  rewrite log_pipeline_state_printable.
  2:{ unfold printable_state.
      rewrite !(printable_latch_alu s5 _ k (e + o)) by (assumption || lia).
      rewrite (forallb_printable (e + o)); [reflexivity | exact Hemax |].
      apply Forall_take, Hregs5. }
  eexists. split; [reflexivity |].
  assert (length (registers s5) = NUM_REGS) as En5 by (rewrite Er5; exact En1).
  split; [exact En5 |]. split; [exact Ei5 |].
  assert (e + o <= k + past_decode s5 /\
          (pc s5 <= length (instruction_memory s))%nat /\
          forall t, IF_ID (pipeline s5) = Some t ->
                    t ∈ instruction_memory s) as (Hpd & Hpc5 & Hif5).
  { unfold past_decode. rewrite Eid5, Heo.
    apply fetch_shape in H5
      as [(_ & Hge & ->) | (text & _ & Htext & ->)]; simpl.
    - rewrite Epc4, Ei4 in *.
      split; [| split; [exact Hpc | intros t Ht; discriminate Ht]].
      destruct (ID_EX (pipeline s4)), (IF_ID (pipeline s));
        simpl in *; lia.
    - rewrite Epc4, Ei4 in *. apply lookup_lt_Some in Htext as Hlt.
      split; [| split; [lia |]].
      + destruct (ID_EX (pipeline s4)), (IF_ID (pipeline s));
          simpl in *; lia.
      + intros t [= <-]. eapply list_elem_of_lookup_2, Htext. }
  unfold alu_state. cbv zeta.
  change (registers (logged false f s5)) with (registers s5).
  change (past_decode (logged false f s5)) with (past_decode s5).
  change (pc (logged false f s5)) with (pc s5).
  change (heap (logged false f s5)) with (heap s5).
  change (pipeline (logged false f s5)) with (pipeline s5).
  change (instruction_memory (logged false f s5))
    with (instruction_memory s5).
  rewrite En5, Ei5.
  split; [lia |]. split; [exact Hpc5 |].
  split; [intros r; apply (alu_object_mono _ _ (e + o)); [exact Hpd | auto] |].
  split.
  { eapply Forall_impl; [exact Hregs5 |]. intros z. apply within_mono, Hpd. }
  split; [| exact Him].
  intros t Ht _. rewrite Forall_forall in Him. apply Him, Hif5, Ht.
Qed.

Lemma run_cycles_alu (k : Z) (n : nat) (s : state) :
  0 < k -> k + Z.of_nat (length (instruction_memory s)) <= MAX_BITS ->
  well_formed s -> length (registers s) = NUM_REGS -> alu_state k s ->
  exists s', run_cycles n s = Ret s'.
Proof.
  intros Hk. revert s. induction n as [|n IH]; intros s Hlen Hwf Hn Halu;
    simpl; [eauto |].
  destruct (pipeline_step_alu k s Hk Hlen Hwf Hn Halu)
    as (s1 & -> & Hwf1 & Hn1 & Ei1 & Halu1).
  rewrite bind_Ret_l. apply IH; try assumption. rewrite Ei1. exact Hlen.
Qed.

(** X21: a program without loads and stores, with register numbers the
    register file accepts and immediates that leave room for the
    results, never raises: if the decoder accepts every line and turns
    it into a record that is no load or store, has its register operands
    between -32 and 31 and its immediate within [k] bits, or into the NOP
    (an unknown mnemonic, an empty line), and [k] plus the number of
    lines is at most 14284, then [run] returns a state for any number of
    cycles.  (Each instruction adds at most one bit to the integers in
    flight, and an integer of 14284 bits has at most 4300 digits; beyond
    that the log raises ValueError.) *)
Theorem run_alu_program_returns (program : list string) (k : Z) (n : nat) :
  0 < k -> k + Z.of_nat (length program) <= MAX_BITS ->
  Forall (alu_line NUM_REGS k) program ->
  exists s, run program n = Ret s.
Proof.
  intros Hk Hlen H.
  apply (run_cycles_alu k n (with_instruction_memory program reset) Hk).
  - exact Hlen.
  - apply well_formed_reset.
  - reflexivity.
  - unfold alu_state.
    cbn [registers heap pipeline IF_ID pc instruction_memory
         with_instruction_memory reset].
    rewrite length_replicate.
    split; [unfold past_decode; simpl; lia |]. split; [simpl; lia |].
    split; [intros r; apply alu_object_NOP |].
    split.
    { apply Forall_replicate. apply within_0. unfold past_decode. simpl. lia. }
    split; [intros t Ht; discriminate Ht | exact H].
Qed.

Lemma run_alu_program_returns_test :
  exists s, run alu_program 12 = Ret s.
Proof.
  apply (run_alu_program_returns alu_program 3 12).
  - lia.
  - vm_compute. discriminate.
  - unfold alu_program.
    repeat (apply List.Forall_cons;
            [eexists; split; [vm_compute; reflexivity |];
             intros i Hi; try discriminate Hi; injection Hi as <-;
             (split; [discriminate |]); (split; [discriminate |]);
             (split; [| split; [| split]]); intros r Hr;
             try discriminate Hr; injection Hr as <-;
             first [reflexivity | unfold within; simpl; lia] |]).
    apply List.Forall_nil.
Defined.
